(** * simple-router: a shallow embedding of [router.js]

    The development follows the source file top to bottom:

    - the host capabilities the router calls ([RegExp], [decodeURIComponent],
      [URL], [fetch]) as far as the router depends on them;
    - the route matcher ([_pathToRegex], [route], [_matchRoute]);
    - the tree reconciler ([_patch], [_updateChildren], [_patchNode],
      [_runScripts]);
    - the navigation controller ([navigate], [_onPopState], the click and
      hover listeners, [init]);
    - the properties of the specification, one theorem per claim.

    Text is a [string]: a sequence of 8-bit code units.  Route patterns and
    URL path names are ASCII; the output of [decodeURIComponent] is the UTF-8
    encoding of the decoded text. *)

From Stdlib Require Import String Ascii List ZArith Lia Bool.
From stdpp Require Import base option list gmap strings.

Import ListNotations.
Local Open Scope string_scope.
Local Open Scope list_scope.
Local Open Scope nat_scope.

(** ** Text helpers *)

Definition chars (s : string) : list ascii := list_ascii_of_string s.
Definition text (l : list ascii) : string := string_of_list_ascii l.

Definition code (c : ascii) : nat := nat_of_ascii c.

Definition in_range (lo hi : nat) (c : ascii) : bool :=
  ((lo <=? code c) && (code c <=? hi))%nat.

Definition is_digit (c : ascii) : bool := in_range 48 57 c.
Definition is_upper (c : ascii) : bool := in_range 65 90 c.
Definition is_lower (c : ascii) : bool := in_range 97 122 c.
Definition is_letter (c : ascii) : bool := is_upper c || is_lower c.

Definition one_of (set : string) (c : ascii) : bool :=
  existsb (Ascii.eqb c) (chars set).

(** ** Exceptions

    What a JavaScript [throw] carries, as far as the router tells errors
    apart (it never inspects them, it only passes them to [onError] hooks). *)

Inductive JSError :=
| SyntaxError (msg : string)
| TypeError (msg : string)
| URIError (msg : string)
| Error (msg : string).

(** How a call ends: normally, by an exception, or outside what this
    development models (a pattern construct the parser does not read, or a
    bounded recursion out of fuel). *)
Inductive Completion (A : Type) :=
| Normal (a : A)
| Throw (e : JSError)
| Beyond.
Arguments Normal {A} a.
Arguments Throw {A} e.
Arguments Beyond {A}.

(** The values the router inspects: it tests truthiness, compares with
    [false], asks [typeof v === "string"] and converts with [String(v)].
    An object is represented by the text [String] gives for it. *)
Inductive JSValue :=
| VUndefined
| VNull
| VBool (b : bool)
| VString (s : string)
| VObject (repr : string).

Definition truthy (v : JSValue) : bool :=
  match v with
  | VUndefined | VNull => false
  | VBool b => b
  | VString s => negb (String.eqb s "")
  | VObject _ => true
  end.

Definition ToString (v : JSValue) : string :=
  match v with
  | VUndefined => "undefined"
  | VNull => "null"
  | VBool true => "true"
  | VBool false => "false"
  | VString s => s
  | VObject repr => repr
  end.

(** What an awaited callback (hook, loader, renderer) gives back. *)
Inductive Outcome (A : Type) :=
| Returns (a : A)
| Throws (e : JSError).
Arguments Returns {A} a.
Arguments Throws {A} e.

(** ** Regular expressions: the part of [RegExp] the router reaches

    [_pathToRegex] builds a pattern source and hands it to [new RegExp].
    The parser below reads the ECMAScript pattern grammar (without flags,
    with the web-compatibility rules of Annex B) for the constructs such a
    source can contain: characters, [.], identity escapes, character
    classes with ranges, capturing groups, alternation, the three
    one-character quantifiers and the two anchors.  Anything else is
    reported as [Beyond] (outside the modelled fragment), never silently
    accepted. *)

Inductive pat :=
| REmpty
| RChar (c : ascii)
| RAny
| RClass (negated : bool) (ranges : list (ascii * ascii))
| RSeq (r1 r2 : pat)
| RAlt (r1 r2 : pat)
| RQuant (min : nat) (max : option nat) (greedy : bool) (r : pat)
| RGroup (index : nat) (r : pat)
| RBol
| REol.

Fixpoint seq_of (terms : list pat) : pat :=
  match terms with
  | [] => REmpty
  | [r] => r
  | r :: rest => RSeq r (seq_of rest)
  end.

Fixpoint alt_of (alts : list pat) (last : pat) : pat :=
  match alts with
  | [] => last
  | a :: rest => RAlt a (alt_of rest last)
  end.

(** A backslash followed by a letter or a digit is a class escape, a
    control escape or a back reference; followed by anything else it is an
    identity escape and stands for that character. *)
Definition identity_escape (c : ascii) : bool :=
  negb (is_letter c || is_digit c).

(** The members of a character class, up to the closing bracket.  [fuel]
    bounds the scan by the length of the text. *)
Fixpoint parse_class_atoms (fuel : nat) (s : list ascii)
    (acc : list (ascii * ascii))
    : Completion (list (ascii * ascii) * list ascii) :=
  match fuel with
  | O => Beyond
  | S fuel' =>
    let atom (s : list ascii) : Completion (ascii * list ascii) :=
      match s with
      | [] => Throw (SyntaxError "Unterminated character class")
      | "\"%char :: [] => Throw (SyntaxError "\ at end of pattern")
      | "\"%char :: c :: r =>
          if identity_escape c then Normal (c, r) else Beyond
      | c :: r => Normal (c, r)
      end in
    match s with
    | [] => Throw (SyntaxError "Unterminated character class")
    | "]"%char :: r => Normal (acc, r)
    | _ =>
      match atom s with
      | Normal (lo, r) =>
        match r with
        | "-"%char :: "]"%char :: r' =>
            Normal (acc ++ [(lo, lo); ("-"%char, "-"%char)], r')
        | "-"%char :: r' =>
          match atom r' with
          | Normal (hi, r'') =>
              if (code hi <? code lo)%nat
              then Throw (SyntaxError "Range out of order in character class")
              else parse_class_atoms fuel' r'' (acc ++ [(lo, hi)])
          | Throw e => Throw e
          | Beyond => Beyond
          end
        | _ => parse_class_atoms fuel' r (acc ++ [(lo, lo)])
        end
      | Throw e => Throw e
      | Beyond => Beyond
      end
    end
  end.

Definition parse_class (s : list ascii) : Completion (pat * list ascii) :=
  let '(neg, body) :=
    match s with
    | "^"%char :: r => (true, r)
    | _ => (false, s)
    end in
  match parse_class_atoms (S (length body)) body [] with
  | Normal (ranges, r) => Normal (RClass neg ranges, r)
  | Throw e => Throw e
  | Beyond => Beyond
  end.

(** An optional quantifier after an atom. *)
Definition parse_quantifier (atom : pat) (s : list ascii)
    : Completion (pat * list ascii) :=
  let lazy (min : nat) (max : option nat) (r : list ascii) :=
    match r with
    | "?"%char :: r' => Normal (RQuant min max false atom, r')
    | _ => Normal (RQuant min max true atom, r)
    end in
  match s with
  | "*"%char :: r => lazy 0 None r
  | "+"%char :: r => lazy 1 None r
  | "?"%char :: r => lazy 0 (Some 1) r
  | "{"%char :: _ => Beyond
  | _ => Normal (atom, s)
  end.

(** A disjunction, up to the end of the text or an unmatched closing
    parenthesis.  [n] counts the capturing groups opened so far, [cur] holds
    the terms of the current alternative and [alts] the finished
    alternatives.  Every step consumes a character, so [S (length s)] is
    fuel enough. *)
Fixpoint parse_disjunction (fuel : nat) (s : list ascii) (n : nat)
    (cur alts : list pat) : Completion (pat * list ascii * nat) :=
  match fuel with
  | O => Beyond
  | S fuel' =>
    let continue (q : Completion (pat * list ascii)) (n' : nat) :=
      match q with
      | Normal (t, r) => parse_disjunction fuel' r n' (cur ++ [t]) alts
      | Throw e => Throw e
      | Beyond => Beyond
      end in
    match s with
    | [] => Normal (alt_of alts (seq_of cur), [], n)
    | ")"%char :: _ => Normal (alt_of alts (seq_of cur), s, n)
    | "|"%char :: r => parse_disjunction fuel' r n [] (alts ++ [seq_of cur])
    | "^"%char :: r => parse_disjunction fuel' r n (cur ++ [RBol]) alts
    | "$"%char :: r => parse_disjunction fuel' r n (cur ++ [REol]) alts
    | "*"%char :: _ => Throw (SyntaxError "Nothing to repeat")
    | "+"%char :: _ => Throw (SyntaxError "Nothing to repeat")
    | "?"%char :: _ => Throw (SyntaxError "Nothing to repeat")
    | "{"%char :: _ => Beyond
    | "("%char :: "?"%char :: _ => Beyond
    | "("%char :: r =>
      match parse_disjunction fuel' r (S n) [] [] with
      | Normal (body, ")"%char :: r', n') =>
          continue (parse_quantifier (RGroup (S n) body) r') n'
      | Normal (_, _, _) => Throw (SyntaxError "Unterminated group")
      | Throw e => Throw e
      | Beyond => Beyond
      end
    | "["%char :: r =>
      match parse_class r with
      | Normal (cls, r') => continue (parse_quantifier cls r') n
      | Throw e => Throw e
      | Beyond => Beyond
      end
    | "\"%char :: [] => Throw (SyntaxError "\ at end of pattern")
    | "\"%char :: c :: r =>
        if identity_escape c
        then continue (parse_quantifier (RChar c) r) n
        else Beyond
    | "."%char :: r => continue (parse_quantifier RAny r) n
    | c :: r => continue (parse_quantifier (RChar c) r) n
    end
  end.

(** A compiled regular expression: the pattern source, its syntax tree and
    the number of capturing groups. *)
Record RegExp := {
  source : string;
  pattern : pat;
  ncaptures : nat
}.

(** [new RegExp(source)]. *)
Definition RegExp_new (src : string) : Completion RegExp :=
  let s := chars src in
  match parse_disjunction (S (length s)) s 0 [] [] with
  | Normal (r, [], n) =>
      Normal {| source := src; pattern := r; ncaptures := n |}
  | Normal (_, _ :: _, _) => Throw (SyntaxError "Unmatched ')'")
  | Throw e => Throw e
  | Beyond => Beyond
  end.

(** *** Matching

    The backtracking matcher of the language specification, in its
    continuation-passing form: a matcher takes the state reached so far and
    the continuation that must accept what follows. *)

Record MState := {
  ms_rest : list ascii;                      (* input not yet consumed *)
  ms_pos : nat;                      (* index of [ms_rest] in the input *)
  ms_caps : list (option (list ascii))       (* captures 1, 2, ... *)
}.

Definition advance (x : MState) (rest : list ascii) : MState :=
  {| ms_rest := rest; ms_pos := S (ms_pos x); ms_caps := ms_caps x |}.

Definition set_capture (i : nat) (v : option (list ascii)) (x : MState)
    : MState :=
  {| ms_rest := ms_rest x; ms_pos := ms_pos x;
     ms_caps := <[pred i := v]> (ms_caps x) |}.

Fixpoint groups_of (r : pat) : list nat :=
  match r with
  | RSeq a b | RAlt a b => groups_of a ++ groups_of b
  | RQuant _ _ _ a => groups_of a
  | RGroup i a => i :: groups_of a
  | _ => []
  end.

Definition clear_captures (gs : list nat) (x : MState) : MState :=
  fold_right (fun i y => set_capture i None y) x gs.

Definition line_terminator (c : ascii) : bool :=
  (code c =? 10)%nat || (code c =? 13)%nat.

Definition class_matches (neg : bool) (ranges : list (ascii * ascii))
    (c : ascii) : bool :=
  xorb neg (existsb (fun '(lo, hi) => in_range (code lo) (code hi) c) ranges).

Definition one_char (p : ascii -> bool) (x : MState)
    (k : MState -> option MState) : option MState :=
  match ms_rest x with
  | c :: rest => if p c then k (advance x rest) else None
  | [] => None
  end.

Fixpoint matcher (r : pat) (x : MState) (k : MState -> option MState)
    {struct r} : option MState :=
  match r with
  | REmpty => k x
  | RChar c => one_char (Ascii.eqb c) x k
  | RAny => one_char (fun c => negb (line_terminator c)) x k
  | RClass neg ranges => one_char (class_matches neg ranges) x k
  | RSeq r1 r2 => matcher r1 x (fun y => matcher r2 y k)
  | RAlt r1 r2 =>
      match matcher r1 x k with
      | Some y => Some y
      | None => matcher r2 x k
      end
  | RGroup i r1 =>
      matcher r1 x (fun y =>
        k (set_capture i
             (Some (firstn (ms_pos y - ms_pos x) (ms_rest x))) y))
  | RBol => if (ms_pos x =? 0)%nat then k x else None
  | REol => match ms_rest x with [] => k x | _ => None end
  | RQuant min max greedy r1 =>
      (* every iteration that is not forced by [min] consumes input, so
         [min + length rest + 1] rounds are enough *)
      (fix repeat (fuel min : nat) (max : option nat) (x : MState)
           {struct fuel} : option MState :=
         match fuel with
         | O => None
         | S fuel' =>
           match max with
           | Some O => k x
           | _ =>
             let d (y : MState) : option MState :=
               if (min =? 0)%nat && (ms_pos y =? ms_pos x)%nat then None
               else repeat fuel' (pred min) (pred <$> max) y in
             let xr := clear_captures (groups_of r1) x in
             if negb (min =? 0)%nat then matcher r1 xr d
             else if greedy then
               match matcher r1 xr d with
               | Some z => Some z
               | None => k x
               end
             else
               match k x with
               | Some z => Some z
               | None => matcher r1 xr d
               end
           end
         end) (min + length (ms_rest x) + 1)%nat min max x
  end.

(** [RegExp.prototype.exec] for an expression without flags: the leftmost
    start index at which the pattern matches; the result array holds the
    matched text and then one entry per capturing group ([None] is
    [undefined]). *)
Fixpoint exec_from (re : RegExp) (rest : list ascii) (pos : nat)
    : option (list (option (list ascii))) :=
  let x := {| ms_rest := rest; ms_pos := pos;
              ms_caps := replicate (ncaptures re) None |} in
  match matcher (pattern re) x Some with
  | Some y => Some (Some (firstn (ms_pos y - pos) rest) :: ms_caps y)
  | None =>
    match rest with
    | [] => None
    | _ :: rest' => exec_from re rest' (S pos)
    end
  end.

(** [str.match(re)], as a list of texts. *)
Definition String_match (s : string) (re : RegExp)
    : option (list (option string)) :=
  fmap (M := list) (fmap (M := option) text) <$> exec_from re (chars s) 0.

(** ** [decodeURIComponent]

    Percent-decoding as the language specifies it: an escape is a percent
    sign and two hexadecimal digits; an escape with the high bit set starts a
    UTF-8 sequence whose remaining bytes must follow as escapes, and the
    whole sequence must encode a code point.  Every other input raises
    [URIError]. *)

Definition hex_value (c : ascii) : option nat :=
  if is_digit c then Some (code c - 48)
  else if in_range 65 70 c then Some (code c - 55)
  else if in_range 97 102 c then Some (code c - 87)
  else None.

Definition between (lo hi b : nat) : bool := (lo <=? b) && (b <=? hi).

(** Well-formed UTF-8 byte sequences (the Unicode Standard, table 3-7). *)
Definition utf8_well_formed (bs : list nat) : bool :=
  match bs with
  | [a] => between 0 127 a
  | [a; b] => between 194 223 a && between 128 191 b
  | [a; b; c] =>
      (   (a =? 224)%nat && between 160 191 b
       || between 225 236 a && between 128 191 b
       || (a =? 237)%nat && between 128 159 b
       || between 238 239 a && between 128 191 b)
      && between 128 191 c
  | [a; b; c; d] =>
      (   (a =? 240)%nat && between 144 191 b
       || between 241 243 a && between 128 191 b
       || (a =? 244)%nat && between 128 143 b)
      && between 128 191 c && between 128 191 d
  | _ => false
  end.

(** The number of bytes announced by a leading byte: its leading one bits. *)
Definition utf8_length (b : nat) : nat :=
  if (b <? 128)%nat then 0
  else if (b <? 192)%nat then 1
  else if (b <? 224)%nat then 2
  else if (b <? 240)%nat then 3
  else if (b <? 248)%nat then 4
  else 5.

(** The decoding loop.  [pending] holds the bytes of a UTF-8 sequence read
    so far and [need] the number of escapes that must still follow; outside
    a sequence both are empty. *)
Fixpoint decode (s : list ascii) (pending : list nat) (need : nat)
    : option (list ascii) :=
  match s with
  | [] => if (need =? 0) then Some [] else None
  | "%"%char :: h :: l :: rest =>
      match hex_value h, hex_value l with
      | Some a, Some b =>
          let byte := 16 * a + b in
          match need with
          | O =>
              match utf8_length byte with
              | 0 => cons (ascii_of_nat byte) <$> decode rest [] 0
              | 1 => None
              | S n => if (4 <? S n) then None else decode rest [byte] n
              end
          | S O =>
              let bytes := pending ++ [byte] in
              if utf8_well_formed bytes
              then app (ascii_of_nat <$> bytes) <$> decode rest [] 0
              else None
          | S need' => decode rest (pending ++ [byte]) need'
          end
      | _, _ => None
      end
  | c :: rest =>
      (* a percent sign without two characters after it, or a character
         where an escape must follow *)
      if Ascii.eqb c "%" || negb (need =? 0) then None
      else cons c <$> decode rest [] 0
  end.

(** [None] is the [URIError]. *)
Definition decodeURIComponent (s : string) : option string :=
  text <$> decode (chars s) [] 0.

(** ** The document tree

    Nodes as the reconciler sees them.  [tag] is [tagName] (upper case in an
    HTML document), [attrs] the attribute list in document order.  An
    element also carries the state that lives in properties rather than in
    attributes: what [_copyInputState] copies, and whether the [onload]
    handler installed by [_runScripts] is present.  The fields [checked],
    [value] and [selectedIndex] are what these properties hold when
    [_copyInputState] reads them; how the browser changes them when an
    attribute or an option of the element changes is not followed, so
    nothing is stated about the state of an element that is patched in
    place. *)

Record ElState := {
  checked : bool;
  value : string;
  selectedIndex : Z;
  onload_marks : bool      (* [onload] will set [dataset.routerExecuted] *)
}.

#[warnings="-register-all"]
Inductive node :=
| Element (tag : string) (attrs : list (string * string)) (st : ElState)
          (children : list node)
| Text (data : string)
| Comment (data : string).

Definition plain : ElState :=
  {| checked := false; value := ""; selectedIndex := (-1)%Z;
     onload_marks := false |}.

(** ** The host

    What the browser provides and the router calls.  Each field is the
    observable result of one host operation. *)

Inductive Response :=
| NetworkError (e : JSError)               (* the [fetch] promise rejects *)
| Reply (ok : bool) (statusText body : string).

(** A document parsed by [DOMParser]: the [innerHTML] of the first element a
    selector finds, of the body, and the [innerText] of the title. *)
Record Document := {
  doc_querySelector : string -> option string;
  doc_body : string;
  doc_title : option string
}.

Record Host := {
  (* [new URL(href, base).href]; [None] is the [TypeError] *)
  URL_href : string -> string -> option string;
  (* [new URL(full)]: its [pathname] and [search] *)
  URL_parts : string -> option (string * string);
  (* [new URL(full).origin] *)
  URL_origin : string -> string;
  (* [new URLSearchParams(search).entries()] *)
  URLSearchParams_entries : string -> list (string * string);
  (* [wrapper.innerHTML = html; wrapper.childNodes] *)
  parseHTML : string -> list node;
  (* [el.innerHTML] *)
  innerHTML : list node -> string;
  (* [new DOMParser().parseFromString(text, "text/html")] *)
  parseDocument : string -> Document;
  (* [fetch(url, ...)] *)
  fetch : string -> Response;
  (* [script.src] of a script whose [src] attribute holds the given text *)
  script_src : string -> string
}.

(** ** Router data *)

Record Config := {
  container : string;
  linkSelector : string;
  linkAttrName : string;
  cache : bool;
  prefetchOnHover : bool
}.

Definition DEFAULTS : Config :=
  {| container := "#app"; linkSelector := "[data-router]";
     linkAttrName := "data-router"; cache := true; prefetchOnHover := true |}.

(** The option bag of a route (always an object, so [match.route.options]
    is truthy).  A loader and a renderer are asynchronous callbacks; the
    model records what awaiting them gives. *)
Record RouteOptions := {
  loader : option (gmap string string -> gmap string string -> Outcome JSValue);
  render : option (JSValue -> gmap string string -> gmap string string
                   -> Outcome JSValue);
  template : option string
}.

Definition no_options : RouteOptions :=
  {| loader := None; render := None; template := None |}.

Record RouteEntry := {
  path : string;
  regex : RegExp;
  keys : list string;
  options : RouteOptions
}.

Record Ctx := {
  ctx_path : string;
  ctx_query : gmap string string;
  ctx_full : string
}.

(** The second argument of an [onError] hook. *)
Inductive ErrorInfo :=
| InfoNavigate (href : string)             (* [{ href: full }] *)
| InfoCtx (ctx : Ctx)
| InfoAfter (to : Ctx).                    (* [{ to: ctx, from: null }] *)

Record Hooks := {
  hooks_beforeEach : list (Ctx -> Outcome JSValue);
  hooks_afterEach : list (Ctx -> Outcome unit);
  hooks_onError : list (JSError -> ErrorInfo -> Outcome unit)
}.

Record Router := {
  config : Config;
  routes : list RouteEntry;
  loaderCache : gmap string JSValue;
  hooks : Hooks
}.

Record MatchResult := {
  mr_route : RouteEntry;
  mr_params : gmap string string;
  mr_query : gmap string string;
  mr_pathname : string
}.

(** ** Route matcher *)

(** First replacement of [_pathToRegex]: every character of the class
    gets a backslash in front. *)
Definition special (c : ascii) : bool := one_of ".+?^=!:${}()|\" c.

Definition escape_specials (s : list ascii) : list ascii :=
  flat_map (fun c => if special c then ["\"%char; c] else [c]) s.

(** Second replacement: a backslash followed by a star becomes the
    wildcard capture. *)
Fixpoint replace_escaped_star (s : list ascii) : list ascii :=
  match s with
  | "\"%char :: "*"%char :: rest => chars "(.*)" ++ replace_escaped_star rest
  | c :: rest => c :: replace_escaped_star rest
  | [] => []
  end.

Definition key_char (c : ascii) : bool :=
  is_letter c || is_digit c || Ascii.eqb c "_".

Fixpoint take_while (p : ascii -> bool) (s : list ascii) : list ascii :=
  match s with
  | c :: rest => if p c then c :: take_while p rest else []
  | [] => []
  end.

(** Third replacement: a colon followed by a name becomes the parameter
    capture and the name is pushed on [keys].  [skip] counts the characters
    of a name just replaced that are still to be passed over. *)
Fixpoint replace_params (skip : nat) (s : list ascii)
    : list ascii * list string :=
  match s with
  | [] => ([], [])
  | c :: rest =>
    match skip with
    | S skip' => replace_params skip' rest
    | O =>
      let name := take_while key_char rest in
      if Ascii.eqb c ":" && negb (length name =? 0)
      then let '(out, keys) := replace_params (length name) rest in
           (chars "([^/]+)" ++ out, text name :: keys)
      else let '(out, keys) := replace_params 0 rest in
           (c :: out, keys)
    end
  end.

(** The pattern source [_pathToRegex] gives to [new RegExp], and the keys. *)
Definition regex_source (path : string) : string * list string :=
  let escaped := escape_specials (chars path) in
  let starred := replace_escaped_star escaped in
  let '(pattern, keys) := replace_params 0 starred in
  (text ("^"%char :: pattern ++ ["$"%char]), keys).

Definition _pathToRegex (path : string) : Completion (RegExp * list string) :=
  let '(src, keys) := regex_source path in
  match RegExp_new src with
  | Normal re => Normal (re, keys)
  | Throw e => Throw e
  | Beyond => Beyond
  end.

Definition route (path : string) (options : RouteOptions) (R : Router)
    : Completion Router :=
  match _pathToRegex path with
  | Normal (re, keys) =>
      Normal {| config := config R;
                routes := routes R ++
                  [{| path := path; regex := re; keys := keys;
                      options := options |}];
                loaderCache := loaderCache R;
                hooks := hooks R |}
  | Throw e => Throw e
  | Beyond => Beyond
  end.

(** [params[k] = v] for a string [v] on an object that was created by
    [{}].  A finite map holds the own properties of such an object.  Every
    key becomes an own property but [__proto__]: this one names the
    accessor of [Object.prototype], whose setter does nothing when it is
    given a string. *)
Definition set_property (k v : string) (params : gmap string string)
    : gmap string string :=
  if String.eqb k "__proto__" then params else <[k := v]> params.


Definition _parseQuery (h : Host) (search : string) : gmap string string :=
  fold_left (fun params '(k, v) => set_property k v params)
            (URLSearchParams_entries h search) ∅.

(** [m[i] || ""] *)
Definition captured (m : list (option string)) (i : nat) : string :=
  match m !! i with
  | Some (Some s) => s
  | _ => ""
  end.

(** [r.keys.forEach((k, i) => params[k] = decodeURIComponent(m[i + 1] || ""))];
    [None] when a [decodeURIComponent] throws. *)
Fixpoint collect_params (i : nat) (ks : list string)
    (m : list (option string)) (params : gmap string string)
    : option (gmap string string) :=
  match ks with
  | [] => Some params
  | k :: ks' =>
      v ← decodeURIComponent (captured m (i + 1));
      collect_params (S i) ks' m (set_property k v params)
  end.

Fixpoint match_routes (h : Host) (rs : list RouteEntry)
    (pathname search : string) : option MatchResult :=
  match rs with
  | [] => None
  | r :: rest =>
    match String_match pathname (regex r) with
    | Some m =>
      (* an exception here leaves through the [catch] of [_matchRoute] *)
      params ← collect_params 0 (keys r) m ∅;
      Some {| mr_route := r; mr_params := params;
              mr_query := _parseQuery h search; mr_pathname := pathname |}
    | None => match_routes h rest pathname search
    end
  end.

(** [null] is [None]: no route matches, or the [try] caught an exception. *)
Definition _matchRoute (h : Host) (R : Router) (fullUrl : string)
    : option MatchResult :=
  '(pathname, search) ← URL_parts h fullUrl;
  match_routes h (routes R) pathname search.

Definition _buildCtx (h : Host) (full : string) : Completion Ctx :=
  match URL_parts h full with
  | Some (pathname, search) =>
      Normal {| ctx_path := pathname; ctx_query := _parseQuery h search;
                ctx_full := full |}
  | None => Throw (TypeError "Invalid URL")
  end.

(** ** Tree reconciler *)

(** *** Attributes *)

Definition getAttribute (name : string) (attrs : list (string * string))
    : option string :=
  snd <$> find (fun '(n, _) => String.eqb n name) attrs.

Definition hasAttribute (name : string) (attrs : list (string * string))
    : bool :=
  bool_decide (is_Some (getAttribute name attrs)).

Definition removeAttribute (name : string) (attrs : list (string * string))
    : list (string * string) :=
  List.filter (fun '(n, _) => negb (String.eqb n name)) attrs.

(** [el.setAttribute(name, v)], for a name the browser accepts. *)
Definition setAttribute (name v : string) (attrs : list (string * string))
    : list (string * string) :=
  if hasAttribute name attrs
  then List.map (fun '(n, w) => if String.eqb n name then (n, v) else (n, w))
                attrs
  else attrs ++ [(name, v)].

(** A string or [null] used as a condition. *)
Definition truthy_text (o : option string) : bool :=
  match o with
  | Some s => negb (String.eqb s "")
  | None => false
  end.

Definition attrs_of (n : node) : list (string * string) :=
  match n with
  | Element _ attrs _ _ => attrs
  | _ => []
  end.

Definition is_element (n : node) : bool :=
  match n with Element _ _ _ _ => true | _ => false end.

(** [n.getAttribute && n.getAttribute("data-router-key")] *)
Definition router_key (n : node) : option string :=
  getAttribute "data-router-key" (attrs_of n).

(** [el.hasAttribute("data-preserve")] *)
Definition preserved (n : node) : bool :=
  hasAttribute "data-preserve" (attrs_of n).

(** [el.dataset.routerExecuted], as a condition. *)
Definition routerExecuted (attrs : list (string * string)) : bool :=
  truthy_text (getAttribute "data-router-executed" attrs).

Definition _isSameNode (oldNode newNode : node) : bool :=
  match oldNode, newNode with
  | Text _, Text _ => true
  | Element otag _ _ _, Element ntag _ _ _ =>
      if negb (String.eqb otag ntag) then false
      else
        let oldKey := router_key oldNode in
        let newKey := router_key newNode in
        if truthy_text oldKey || truthy_text newKey
        then truthy_text oldKey && truthy_text newKey
             && bool_decide (oldKey = newKey)
        else true
  | _, _ => false
  end.

Definition _updateAttributes (oldAttrs newAttrs : list (string * string))
    : list (string * string) :=
  (* remove attributes not present *)
  let kept :=
    List.filter (fun '(n, _) => hasAttribute n newAttrs) oldAttrs in
  (* set or update new attributes *)
  fold_left
    (fun acc '(n, v) =>
       if bool_decide (getAttribute n acc = Some v) then acc
       else setAttribute n v acc)
    newAttrs kept.

(** *** Element state *)

Definition lower (c : ascii) : ascii :=
  if is_upper c then ascii_of_nat (code c + 32) else c.

(** [el.type] of an input is its [type] attribute in lower case. *)
Definition type_is (kind : string) (attrs : list (string * string)) : bool :=
  match getAttribute "type" attrs with
  | Some t => String.eqb (text (lower <$> chars t)) kind
  | None => false
  end.

(** The assignments of [_copyInputState] change the state of [newEl]. *)
Definition _copyInputState (oldEl newEl : node) : node :=
  match oldEl, newEl with
  | Element tag oattrs ost _, Element ntag nattrs nst nkids =>
      let set (st : ElState) := Element ntag nattrs st nkids in
      if String.eqb tag "INPUT" then
        if type_is "checkbox" oattrs || type_is "radio" oattrs
        then set {| checked := checked ost; value := value nst;
                    selectedIndex := selectedIndex nst;
                    onload_marks := onload_marks nst |}
        else set {| checked := checked nst; value := value ost;
                    selectedIndex := selectedIndex nst;
                    onload_marks := onload_marks nst |}
      else if String.eqb tag "TEXTAREA" then
        set {| checked := checked nst; value := value ost;
               selectedIndex := selectedIndex nst;
               onload_marks := onload_marks nst |}
      else if String.eqb tag "SELECT" then
        set {| checked := checked nst; value := value nst;
               selectedIndex := selectedIndex ost;
               onload_marks := onload_marks nst |}
      else newEl
  | _, _ => newEl
  end.

(** [node.cloneNode(true)]: a deep copy; handlers set through properties
    are not copied. *)
Fixpoint cloneNode (n : node) : node :=
  match n with
  | Element tag attrs st kids =>
      Element tag attrs
        {| checked := checked st; value := value st;
           selectedIndex := selectedIndex st; onload_marks := false |}
        (List.map cloneNode kids)
  | other => other
  end.

Fixpoint textContent (n : node) : string :=
  match n with
  | Element _ _ _ kids =>
      fold_right (fun k acc => textContent k ++ acc)%string "" kids
  | Text data => data
  | Comment _ => ""
  end.

(** *** Script fragments

    A script element built by [document.createElement] and put into the
    document is activated by the host: an inline one runs at once, one with
    a source starts loading.  The reconciler's observable effect is the list
    of these activations, in order. *)

Inductive Activation :=
| ActInline (code : string)
| ActSrc (src : string).

Definition is_script (tag : string) : bool := String.eqb tag "SCRIPT".

(** The element the loop body of [_runScripts] and [_execScriptsInNode]
    creates for the script [old], and its activation. *)
Definition recreate_script (h : Host) (attrs : list (string * string))
    (kids : list node) : node * Activation :=
  let src := match getAttribute "src" attrs with
             | Some a => script_src h a
             | None => ""
             end in
  if negb (String.eqb src "") then
    (Element "SCRIPT" (removeAttribute "async" (setAttribute "src" src attrs))
       {| checked := false; value := ""; selectedIndex := (-1)%Z;
          onload_marks := true |} [],
     ActSrc src)
  else
    let code := textContent (Element "SCRIPT" attrs plain kids) in
    (Element "SCRIPT" (setAttribute "data-router-executed" "1" attrs) plain
       (if String.eqb code "" then [] else [Text code]),
     ActInline code).

(** One node of the list [querySelectorAll("script")] returns, and the
    nodes below it.  A script without the marker is replaced by the
    recreated element; the scripts below a replaced script go with it and
    are no longer part of the document. *)
Fixpoint run_scripts (h : Host) (n : node) : node * list Activation :=
  match n with
  | Element tag attrs st kids =>
      if is_script tag && negb (routerExecuted attrs)
      then let '(fresh, act) := recreate_script h attrs kids in (fresh, [act])
      else
        let '(kids', acts) :=
          (fix each (ks : list node) : list node * list Activation :=
             match ks with
             | [] => ([], [])
             | k :: rest =>
                 let '(k', a) := run_scripts h k in
                 let '(rest', b) := each rest in
                 (k' :: rest', a ++ b)
             end) kids in
        (Element tag attrs st kids', acts)
  | other => (other, [])
  end.

Fixpoint run_scripts_list (h : Host) (ks : list node)
    : list node * list Activation :=
  match ks with
  | [] => ([], [])
  | k :: rest =>
      let '(k', a) := run_scripts h k in
      let '(rest', b) := run_scripts_list h rest in
      (k' :: rest', a ++ b)
  end.

(** [_runScripts(container)], on the children of the container. *)
Definition _runScripts (h : Host) (kids : list node)
    : list node * list Activation :=
  run_scripts_list h kids.

(** [_execScriptsInNode(node)]: the scripts below [node]; [node] itself is
    not among them, and a node that is not an element has none. *)
Definition _execScriptsInNode (h : Host) (n : node)
    : node * list Activation :=
  match n with
  | Element tag attrs st kids =>
      let '(kids', acts) := run_scripts_list h kids in
      (Element tag attrs st kids', acts)
  | other => (other, [])
  end.

(** The [load] event of a script: the handler installed by
    [recreate_script] sets the marker. *)
Definition load_event (n : node) : node :=
  match n with
  | Element tag attrs st kids =>
      if onload_marks st
      then Element tag (setAttribute "data-router-executed" "1" attrs) st kids
      else n
  | other => other
  end.

(** *** Patching

    [_patchNode] either updates [oldNode] where it stands or puts a clone of
    [newNode] in its place. *)
Inductive Patched :=
| Kept (n : node)
| Replaced (clone : node).

Definition cbind {A B : Type} (m : Completion A) (k : A -> Completion B)
    : Completion B :=
  match m with
  | Normal a => k a
  | Throw e => Throw e
  | Beyond => Beyond
  end.

Notation "'do' x <- m ; k" := (cbind m (fun x => k))
  (at level 10, x pattern, m at level 100, k at level 200).

(** The state of one run of [_updateChildren].  The child nodes carry a tag
    that stands for their identity as objects: the children present at the
    start are numbered by position, nodes created later get fresh numbers.
    [uc_detached] holds children that were replaced and are only reachable
    through [keyedOld]. *)
Record UC := {
  uc_children : list (nat * node);
  uc_detached : list (nat * node);
  uc_next : nat;
  uc_oldIndex : nat;
  uc_acts : list Activation
}.

Definition lookup_id (id : nat) (l : list (nat * node)) : option node :=
  snd <$> find (fun '(i, _) => i =? id) l.

Definition remove_id (id : nat) (l : list (nat * node)) : list (nat * node) :=
  List.filter (fun '(i, _) => negb (i =? id)) l.

(** [parent.insertBefore(x, ref)] on a list that does not hold [x]. *)
Fixpoint insert_before (ref : option nat) (x : nat * node)
    (l : list (nat * node)) : list (nat * node) :=
  match l with
  | [] => [x]
  | (i, n) :: rest =>
      if bool_decide (ref = Some i) then x :: (i, n) :: rest
      else (i, n) :: insert_before ref x rest
  end.

(** [oldParent.insertBefore(node, ref)]: the node leaves the place it has. *)
Definition insertBefore (id : nat) (n : node) (ref : option nat) (uc : UC)
    : UC :=
  {| uc_children := insert_before ref (id, n) (remove_id id (uc_children uc));
     uc_detached := remove_id id (uc_detached uc);
     uc_next := uc_next uc;
     uc_oldIndex := uc_oldIndex uc;
     uc_acts := uc_acts uc |}.

(** The effect of [_patchNode] on the child with tag [id]. *)
Definition apply_patch (id : nat) (old : node)
    (res : Patched * list Activation) (uc : UC) : UC :=
  match res with
  | (Kept n', acts) =>
      {| uc_children :=
           List.map (fun '(i, n) => if i =? id then (i, n') else (i, n))
                    (uc_children uc);
         uc_detached := uc_detached uc;
         uc_next := uc_next uc;
         uc_oldIndex := uc_oldIndex uc;
         uc_acts := uc_acts uc ++ acts |}
  | (Replaced clone, acts) =>
      {| uc_children :=
           List.map (fun '(i, n) =>
                       if i =? id then (uc_next uc, clone) else (i, n))
                    (uc_children uc);
         uc_detached := (id, old) :: uc_detached uc;
         uc_next := S (uc_next uc);
         uc_oldIndex := uc_oldIndex uc;
         uc_acts := uc_acts uc ++ acts |}
  end.

Definition next_index (uc : UC) : UC :=
  {| uc_children := uc_children uc; uc_detached := uc_detached uc;
     uc_next := uc_next uc; uc_oldIndex := S (uc_oldIndex uc);
     uc_acts := uc_acts uc |}.

(** The clone that takes the place of [oldChild], with the input state
    carried over and its scripts run. *)
Definition replacement (h : Host) (oldNode newNode : node)
    : node * list Activation :=
  let clone := cloneNode newNode in
  let clone :=
    if is_element oldNode && is_element clone
    then _copyInputState oldNode clone else clone in
  _execScriptsInNode h clone.

Section Children.

Variable h : Host.
(** The recursive call of [_updateChildren] into [_patchNode]. *)
Variable patchNode : node -> node -> Completion (Patched * list Activation).

(** The body of [newChildren.forEach]. *)
Definition update_child (keyedOld : gmap string nat) (newChild : node)
    (uc : UC) : Completion UC :=
  let oldChild := uc_children uc !! uc_oldIndex uc in
  let keyed :=
    if is_element newChild then
      let key := router_key newChild in
      if truthy_text key then keyedOld !! default "" key else None
    else None in
  match keyed with
  | Some mid =>
    match lookup_id mid (uc_children uc ++ uc_detached uc) with
    | None => Beyond
    | Some mnode =>
      let uc1 :=
        if bool_decide (fst <$> oldChild = Some mid) then uc
        else insertBefore mid mnode (fst <$> oldChild) uc in
      do res <- patchNode mnode newChild;
      let uc2 := apply_patch mid mnode res uc1 in
      (* if we inserted, ensure subsequent positions align *)
      if bool_decide (fst <$> uc_children uc2 !! uc_oldIndex uc2 = Some mid)
      then Normal (next_index uc2) else Normal uc2
    end
  | None =>
    match oldChild with
    | None =>
      (* append new node *)
      let '(clone, acts) := _execScriptsInNode h (cloneNode newChild) in
      Normal (next_index
        {| uc_children := uc_children uc ++ [(uc_next uc, clone)];
           uc_detached := uc_detached uc;
           uc_next := S (uc_next uc);
           uc_oldIndex := uc_oldIndex uc;
           uc_acts := uc_acts uc ++ acts |})
    | Some (oid, onode) =>
      if _isSameNode onode newChild then
        do res <- patchNode onode newChild;
        Normal (next_index (apply_patch oid onode res uc))
      else
        (* try lookahead for a same node within the remaining old children *)
        match find (fun '(_, n) => _isSameNode n newChild)
                   (drop (S (uc_oldIndex uc)) (uc_children uc)) with
        | Some (jid, nodeToMove) =>
          let uc1 := insertBefore jid nodeToMove (Some oid) uc in
          do res <- patchNode nodeToMove newChild;
          Normal (next_index (apply_patch jid nodeToMove res uc1))
        | None =>
          (* otherwise, replace the oldChild with newChild clone *)
          Normal (next_index
            (apply_patch oid onode
               (let '(clone, acts) := replacement h onode newChild in
                (Replaced clone, acts)) uc))
        end
    end
  end.

Fixpoint forEach_newChild (keyedOld : gmap string nat)
    (newChildren : list node) (uc : UC) : Completion UC :=
  match newChildren with
  | [] => Normal uc
  | newChild :: rest =>
      do uc' <- update_child keyedOld newChild uc;
      forEach_newChild keyedOld rest uc'
  end.

(** map keyed old children for quick lookup *)
Definition keyed_children (tagged : list (nat * node)) : gmap string nat :=
  fold_left
    (fun m '(i, c) =>
       if is_element c && truthy_text (router_key c)
       then <[default "" (router_key c) := i]> m else m)
    tagged ∅.

Definition updateChildren (oldChildren newChildren : list node)
    : Completion (list node * list Activation) :=
  let tagged := imap (fun i c => (i, c)) oldChildren in
  do uc <- forEach_newChild (keyed_children tagged) newChildren
             {| uc_children := tagged; uc_detached := [];
                uc_next := length oldChildren; uc_oldIndex := 0;
                uc_acts := [] |};
  (* remove any extra old children *)
  Normal (snd <$> take (length newChildren) (uc_children uc), uc_acts uc).

End Children.

Fixpoint _patchNode (h : Host) (oldNode newNode : node) {struct newNode}
    : Completion (Patched * list Activation) :=
  let replace (_ : unit) : Completion (Patched * list Activation) :=
    let '(clone, acts) := replacement h oldNode newNode in
    Normal (Replaced clone, acts) in
  let differs : bool :=
    negb (_isSameNode oldNode newNode)
    || (truthy_text (router_key oldNode) && truthy_text (router_key newNode)
        && negb (bool_decide (router_key oldNode = router_key newNode))) in
  match oldNode, newNode with
  | Element otag oattrs ost okids, Element ntag nattrs nst nkids =>
      (* preserve nodes explicitly marked *)
      if preserved oldNode || preserved newNode then Normal (Kept oldNode, [])
      else if differs then replace ()
      else
        (* same tag/element: update attributes and children *)
        do r <- updateChildren h (_patchNode h) okids nkids;
        Normal (Kept (Element otag (_updateAttributes oattrs nattrs) ost
                        (fst r)), snd r)
  | Element _ _ _ _, _ =>
      if preserved oldNode then Normal (Kept oldNode, [])
      else Throw (TypeError "newNode.hasAttribute is not a function")
  | Text odata, Text ndata => Normal (Kept (Text ndata), [])
  | _, _ => if differs then replace () else Normal (Kept oldNode, [])
  end.

Definition _updateChildren (h : Host) (oldChildren newChildren : list node)
    : Completion (list node * list Activation) :=
  updateChildren h (_patchNode h) oldChildren newChildren.

(** [_patch(container, html)], on the children of the container. *)
Definition _patch (h : Host) (kids : list node) (html : string)
    : Completion (list node * list Activation) :=
  _updateChildren h kids (parseHTML h html).

(** ** Navigation controller *)

(** The render root [document.querySelector(config.container)] finds: its
    child nodes as [_patch] and [_runScripts] leave them, and whether it
    carries the class [router-loading].  A call of [_updateActiveLinks] is
    recorded in the log as [EvUpdateActiveLinks]; the class [active] it then
    toggles on the links of the document is not written into these child
    nodes, so nothing is stated about the child nodes after such a call. *)
Record Surface := {
  sf_children : list node;
  sf_loading : bool
}.

Record CacheEntry := {
  html : string;
  title : string
}.

Record HistoryState := {
  hs_html : string;
  hs_title : string;
  hs_url : string
}.

(** What the controller does to its collaborators, in order. *)
Inductive Event :=
| EvBeforeEach (i : nat) (ctx : Ctx)   (* i-th [beforeEach] hook called *)
| EvAfterEach (i : nat) (to : Ctx)
| EvOnError (i : nat) (e : JSError) (info : ErrorInfo)
| EvLoader (route_path : string)
| EvRender (route_path : string)
| EvFetch (url : string)
| EvPatch (markup : string)
| EvActivate (a : Activation)
| EvPushState (st : HistoryState) (url : string)
| EvReplaceState (st : HistoryState) (url : string)
| EvAssignLocation (href : string)         (* [window.location.href = href] *)
| EvUpdateActiveLinks
| EvScrollTo (top : Z)
| EvWarn (msg : string)
| EvPreventDefault
| EvUnhandledRejection (e : JSError).

Inductive Listener := OnClick | OnSubmit | OnMouseover | OnPopstate.

Record World := {
  location_href : string;
  document_title : string;
  body_innerHTML : string;
  elements : gmap string Surface;            (* [document.querySelector] *)
  stateCache : gmap string CacheEntry;       (* url -> {html, title} *)
  router : Router;
  listeners : list Listener;
  log : list Event
}.

(** A computation over the world that ends as a call ends. *)
Definition M (A : Type) : Type := World -> Completion A * World.

Definition ret {A : Type} (a : A) : M A := fun w => (Normal a, w).

Definition bind {A B : Type} (m : M A) (k : A -> M B) : M B :=
  fun w =>
    match m w with
    | (Normal a, w') => k a w'
    | (Throw e, w') => (Throw e, w')
    | (Beyond, w') => (Beyond, w')
    end.

Notation "x <~ m ; k" := (bind m (fun x => k))
  (at level 20, m at level 100, k at level 200, only parsing).

Definition throw {A : Type} (e : JSError) : M A := fun w => (Throw e, w).

Definition try_catch {A : Type} (m : M A) (handler : JSError -> M A) : M A :=
  fun w =>
    match m w with
    | (Throw e, w') => handler e w'
    | other => other
    end.

Definition try_finally {A : Type} (m : M A) (final : M unit) : M A :=
  fun w =>
    match m w with
    | (Beyond, w') => (Beyond, w')
    | (c, w') =>
        match final w' with
        | (Normal _, w'') => (c, w'')
        | (Throw e, w'') => (Throw e, w'')
        | (Beyond, w'') => (Beyond, w'')
        end
    end.

Definition get : M World := fun w => (Normal w, w).

Definition modify (f : World -> World) : M unit := fun w => (Normal tt, f w).

Definition add_log (evs : list Event) (w : World) : World :=
  {| location_href := location_href w; document_title := document_title w;
     body_innerHTML := body_innerHTML w; elements := elements w;
     stateCache := stateCache w; router := router w;
     listeners := listeners w; log := log w ++ evs |}.

Definition emit (e : Event) : M unit := modify (add_log [e]).

(** The world after the browser moved to [url]. *)
Definition moved_to (url : string) (w : World) : World :=
  {| location_href := url; document_title := document_title w;
     body_innerHTML := body_innerHTML w; elements := elements w;
     stateCache := stateCache w; router := router w;
     listeners := listeners w; log := log w |}.

Definition with_title (t : string) (w : World) : World :=
  {| location_href := location_href w; document_title := t;
     body_innerHTML := body_innerHTML w; elements := elements w;
     stateCache := stateCache w; router := router w;
     listeners := listeners w; log := log w |}.

Definition with_surface (sel : string) (sf : Surface) (w : World) : World :=
  {| location_href := location_href w; document_title := document_title w;
     body_innerHTML := body_innerHTML w;
     elements := <[sel := sf]> (elements w);
     stateCache := stateCache w; router := router w;
     listeners := listeners w; log := log w |}.

Definition with_cached (url : string) (entry : CacheEntry) (w : World)
    : World :=
  {| location_href := location_href w; document_title := document_title w;
     body_innerHTML := body_innerHTML w; elements := elements w;
     stateCache := <[url := entry]> (stateCache w); router := router w;
     listeners := listeners w; log := log w |}.

Definition with_router (R : Router) (w : World) : World :=
  {| location_href := location_href w; document_title := document_title w;
     body_innerHTML := body_innerHTML w; elements := elements w;
     stateCache := stateCache w; router := R;
     listeners := listeners w; log := log w |}.

Definition set_location (url : string) : M unit := modify (moved_to url).

Definition set_title (t : string) : M unit := modify (with_title t).

Definition set_surface (sel : string) (sf : Surface) : M unit :=
  modify (with_surface sel sf).

Definition stateCache_set (url : string) (entry : CacheEntry) : M unit :=
  modify (with_cached url entry).

Definition set_router (R : Router) : M unit := modify (with_router R).

Definition loaderCache_set (url : string) (data : JSValue) : M unit :=
  w <~ get ;
  let R := router w in
  set_router {| config := config R; routes := routes R;
                loaderCache := <[url := data]> (loaderCache R);
                hooks := hooks R |}.

Definition addEventListener (l : Listener) : M unit :=
  modify (fun w =>
    {| location_href := location_href w; document_title := document_title w;
       body_innerHTML := body_innerHTML w; elements := elements w;
       stateCache := stateCache w; router := router w;
       listeners := listeners w ++ [l]; log := log w |}).

(** [a || b] on texts. *)
Definition or_else (a b : string) : string :=
  if String.eqb a "" then b else a.

(** *** Hooks *)

Fixpoint callErrorHooks_from (i : nat)
    (fns : list (JSError -> ErrorInfo -> Outcome unit))
    (err : JSError) (info : ErrorInfo) : M unit :=
  match fns with
  | [] => ret tt
  | fn :: rest =>
      _ <~ emit (EvOnError i err info) ;
      (* [try { fn(err, ctx) } catch (e) {}] *)
      match fn err info with
      | Returns _ | Throws _ => callErrorHooks_from (S i) rest err info
      end
  end.

Definition _callErrorHooks (err : JSError) (info : ErrorInfo) : M unit :=
  w <~ get ;
  callErrorHooks_from 0 (hooks_onError (hooks (router w))) err info.

Fixpoint runBeforeHooks_from (i : nat) (fns : list (Ctx -> Outcome JSValue))
    (ctx : Ctx) : M JSValue :=
  match fns with
  | [] => ret (VBool true)
  | fn :: rest =>
      _ <~ emit (EvBeforeEach i ctx) ;
      match fn ctx with
      | Returns (VBool false) => ret (VBool false)
      | Returns (VString res) => ret (VString res)
      | Returns _ => runBeforeHooks_from (S i) rest ctx
      | Throws err =>
          _ <~ _callErrorHooks err (InfoCtx ctx) ;
          ret (VBool false)
      end
  end.

Definition _runBeforeHooks (ctx : Ctx) : M JSValue :=
  w <~ get ;
  runBeforeHooks_from 0 (hooks_beforeEach (hooks (router w))) ctx.

Fixpoint runAfterHooks_from (i : nat) (fns : list (Ctx -> Outcome unit))
    (to : Ctx) : M unit :=
  match fns with
  | [] => ret tt
  | fn :: rest =>
      _ <~ emit (EvAfterEach i to) ;
      _ <~ match fn to with
           | Returns _ => ret tt
           | Throws err => _callErrorHooks err (InfoAfter to)
           end ;
      runAfterHooks_from (S i) rest to
  end.

Definition _runAfterHooks (to : Ctx) : M unit :=
  w <~ get ;
  runAfterHooks_from 0 (hooks_afterEach (hooks (router w))) to.

(** *** The render surface *)

(** [this._patch(container, html)] on the element found for [sel]. *)
Definition patch_surface (h : Host) (sel : string) (markup : string)
    : M unit :=
  w <~ get ;
  match elements w !! sel with
  | None => throw (TypeError "container is null")
  | Some sf =>
      _ <~ emit (EvPatch markup) ;
      match _patch h (sf_children sf) markup with
      | Normal (kids, acts) =>
          _ <~ set_surface sel {| sf_children := kids;
                                  sf_loading := sf_loading sf |} ;
          modify (add_log (EvActivate <$> acts))
      | Throw e => throw e
      | Beyond => fun w => (Beyond, w)
      end
  end.

(** [this._runScripts(container)] *)
Definition runScripts_surface (h : Host) (sel : string) : M unit :=
  w <~ get ;
  match elements w !! sel with
  | None => throw (TypeError "container is null")
  | Some sf =>
      let '(kids, acts) := _runScripts h (sf_children sf) in
      _ <~ set_surface sel {| sf_children := kids;
                              sf_loading := sf_loading sf |} ;
      modify (add_log (EvActivate <$> acts))
  end.

(** [container.classList.add / remove("router-loading")] *)
Definition set_loading (sel : string) (b : bool) : M unit :=
  w <~ get ;
  match elements w !! sel with
  | None => throw (TypeError "container is null")
  | Some sf => set_surface sel {| sf_children := sf_children sf;
                                  sf_loading := b |}
  end.

(** [history.pushState] or [history.replaceState]; both make [url] the
    current location. *)
Definition history_write (replace : bool) (st : HistoryState) (url : string)
    : M unit :=
  _ <~ emit (if replace then EvReplaceState st url else EvPushState st url) ;
  set_location url.

(** [fetch(full)] followed by the extraction of content and title; the
    title falls back to [fallback]. *)
Definition fetch_page (h : Host) (sel full fallback : string)
    : M CacheEntry :=
  _ <~ emit (EvFetch full) ;
  match fetch h full with
  | NetworkError e => throw e
  | Reply false _ _ => throw (Error "Network response not ok")
  | Reply true _ body =>
      let doc := parseDocument h body in
      ret {| html := default (doc_body doc) (doc_querySelector doc sel);
             title := or_else (default "" (doc_title doc)) fallback |}
  end.

(** *** [navigate] *)

Record NavOptions := {
  replace : bool;
  scrollTop : option Z          (* [None] is [scrollTop: false] *)
}.

Definition nav_defaults : NavOptions :=
  {| replace := false; scrollTop := Some 0%Z |}.

Definition beyond {A : Type} : M A := fun w => (Beyond, w).

(** [if (scrollTop !== false) window.scrollTo(0, scrollTop)] *)
Definition scroll (o : NavOptions) : M unit :=
  match scrollTop o with
  | Some top => emit (EvScrollTo top)
  | None => ret tt
  end.

(** The current child nodes of the container, serialised. *)
Definition container_innerHTML (h : Host) (sel : string) : M string :=
  w <~ get ;
  match elements w !! sel with
  | Some sf => ret (innerHTML h (sf_children sf))
  | None => throw (TypeError "container is null")
  end.

(** [navigate], route pipeline: the data of the route, from the loader
    cache or from the loader. *)
Definition load_data (full : string) (m : MatchResult) : M JSValue :=
  let r := mr_route m in
  w <~ get ;
  (* try loader cache first *)
  let cached_data := default VUndefined (loaderCache (router w) !! full) in
  match loader (options r) with
  | Some load =>
      if negb (truthy cached_data) then
        _ <~ emit (EvLoader (path r)) ;
        match load (mr_params m) (mr_query m) with
        | Returns d => _ <~ loaderCache_set full d ; ret d
        | Throws e => throw e
        end
      else ret cached_data
  | None => ret cached_data
  end.

(** The fetch of the underlying page inside the route pipeline. *)
Definition fetch_underlying (h : Host) (sel full : string) : M unit :=
  w <~ get ;
  match stateCache w !! full with
  | Some cached =>
      _ <~ patch_surface h sel (html cached) ;
      set_title (or_else (title cached) (document_title w))
  | None =>
      entry <~ fetch_page h sel full (document_title w) ;
      _ <~ (if cache (config (router w))
            then stateCache_set full entry else ret tt) ;
      _ <~ patch_surface h sel (html entry) ;
      set_title (title entry)
  end.

(** [navigate], route pipeline: the content comes from the renderer, from
    the template or from the underlying page. *)
Definition render_content (h : Host) (sel full : string) (m : MatchResult)
    (data : JSValue) : M unit :=
  let r := mr_route m in
  match render (options r) with
  | Some rend =>
      _ <~ emit (EvRender (path r)) ;
      match rend data (mr_params m) (mr_query m) with
      | Returns v => patch_surface h sel (ToString v)
      | Throws e => throw e
      end
  | None =>
    if truthy_text (template (options r))
    then patch_surface h sel (default "" (template (options r)))
    else
      (* fallback to fetch the underlying HTML page *)
      fetch_underlying h sel full
  end.

(** [navigate], route pipeline: after the content is in place. *)
Definition finish_route (h : Host) (sel full : string) (ctx : Ctx)
    (o : NavOptions) : M unit :=
  _ <~ runScripts_surface h sel ;
  (* push/replace history *)
  snapshot <~ container_innerHTML h sel ;
  w <~ get ;
  _ <~ history_write (replace o)
         {| hs_html := snapshot; hs_title := document_title w;
            hs_url := full |} full ;
  _ <~ emit EvUpdateActiveLinks ;
  _ <~ scroll o ;
  _runAfterHooks ctx.

(** The route pipeline of [navigate]: what runs between
    [classList.add("router-loading")] and the [finally]. *)
Definition route_pipeline (h : Host) (sel full : string) (ctx : Ctx)
    (o : NavOptions) (m : MatchResult) : M unit :=
  data <~ load_data full m ;
  _ <~ render_content h sel full m data ;
  finish_route h sel full ctx o.

(** The part of [navigate] after the hooks, when no route matched. *)
Definition fetch_fallback (h : Host) (sel full : string) (o : NavOptions)
    : M unit :=
  w <~ get ;
  cached <~ match stateCache w !! full with
            | Some c => ret c
            | None =>
                entry <~ fetch_page h sel full (document_title w) ;
                _ <~ (if cache (config (router w))
                      then stateCache_set full entry else ret tt) ;
                ret entry
            end ;
  (* patch content (minimal DOM updates) *)
  _ <~ patch_surface h sel (html cached) ;
  (* run any new scripts (only once) *)
  _ <~ runScripts_surface h sel ;
  w <~ get ;
  _ <~ set_title (or_else (title cached) (document_title w)) ;
  (* push state *)
  _ <~ history_write (replace o)
         {| hs_html := html cached; hs_title := title cached;
            hs_url := full |} full ;
  _ <~ emit EvUpdateActiveLinks ;
  scroll o.

(** The body of the [try] of [navigate] after the [beforeEach] hooks. *)
Definition navigate_render (h : Host) (sel full : string) (ctx : Ctx)
    (o : NavOptions) : M unit :=
  w <~ get ;
  match _matchRoute h (router w) full with
  | Some m =>
      _ <~ set_loading sel true ;
      try_finally (route_pipeline h sel full ctx o m) (set_loading sel false)
  | None => fetch_fallback h sel full o
  end.

(** The [catch] of [navigate]. *)
Definition navigate_failed (href full : string) (err : JSError) : M unit :=
  _ <~ _callErrorHooks err (InfoNavigate full) ;
  _ <~ emit (EvWarn "Router: fetch failed, falling back to full navigation") ;
  emit (EvAssignLocation href).

(** [navigate(href, { replace, scrollTop })].  A [beforeEach] hook may
    answer with another target, and [navigate] then calls itself; [fuel]
    bounds the number of such redirections. *)
Fixpoint navigate (h : Host) (fuel : nat) (href : string) (o : NavOptions)
    {struct fuel} : M unit :=
  match fuel with
  | O => beyond
  | S fuel' =>
    w <~ get ;
    match URL_href h href (location_href w) with
    | None => throw (TypeError "Invalid URL")
    | Some full =>
      if String.eqb full (location_href w) then ret tt
      else
        let sel := container (config (router w)) in
        match elements w !! sel with
        | None => emit (EvAssignLocation href)
        | Some _ =>
          (* build context *)
          match _buildCtx h full with
          | Throw e => throw e
          | Beyond => beyond
          | Normal ctx =>
            (* run beforeEach hooks *)
            before <~ _runBeforeHooks ctx ;
            match before with
            | VBool false => ret tt
            | VString target => navigate h fuel' target nav_defaults
            | _ =>
              try_catch (navigate_render h sel full ctx o)
                        (navigate_failed href full)
            end
          end
        end
    end
  end.

(** A promise nobody awaits: a rejection is reported by the host and the
    caller goes on. *)
Definition not_awaited (m : M unit) : M unit :=
  try_catch m (fun e => emit (EvUnhandledRejection e)).

(** *** History pop *)

Definition _onPopState (h : Host) (fuel : nat) (state : option HistoryState)
    : M unit :=
  w <~ get ;
  let sel := container (config (router w)) in
  match elements w !! sel with
  | None => ret tt
  | Some _ =>
    if truthy_text (hs_html <$> state) then
      _ <~ patch_surface h sel (default "" (hs_html <$> state)) ;
      _ <~ set_title (or_else (default "" (hs_title <$> state))
                              (document_title w)) ;
      _ <~ runScripts_surface h sel ;
      emit EvUpdateActiveLinks
    else
      (* try to navigate and replace state *)
      not_awaited
        (navigate h fuel (location_href w)
           {| replace := true; scrollTop := Some 0%Z |})
  end.

(** The browser moves to the history entry for [url] and delivers
    [popstate] with the state stored there. *)
Definition history_pop (h : Host) (fuel : nat) (url : string)
    (state : option HistoryState) : M unit :=
  _ <~ set_location url ;
  _onPopState h fuel state.

(** *** Gestures *)

Record MouseEvent := {
  defaultPrevented : bool;
  (* [e.target.closest(selector)]: the attributes of the element found *)
  closest : string -> option (list (string * string));
  button : Z;
  metaKey : bool;
  ctrlKey : bool;
  shiftKey : bool;
  altKey : bool
}.

(** [el.getAttribute("href") || el.getAttribute("data-href") ||
    el.getAttribute("data-route")]; [None] when the result is falsy. *)
Definition link_href (attrs : list (string * string)) : option string :=
  if truthy_text (getAttribute "href" attrs) then getAttribute "href" attrs
  else if truthy_text (getAttribute "data-href" attrs)
  then getAttribute "data-href" attrs
  else if truthy_text (getAttribute "data-route" attrs)
  then getAttribute "data-route" attrs
  else None.

Definition _matchesLocal (h : Host) (w : World) (href : string) : bool :=
  match URL_href h href (location_href w) with
  | Some u => String.eqb (URL_origin h u) (URL_origin h (location_href w))
  | None => false
  end.

(** The click listener of [_bindClicks]. *)
Definition onClick (h : Host) (fuel : nat) (e : MouseEvent) : M unit :=
  if defaultPrevented e then ret tt
  else
    w <~ get ;
    let el :=
      match closest e (linkSelector (config (router w))) with
      | Some el => Some el
      | None => closest e "[data-route],[data-href]"
      end in
    match el with
    | None => ret tt
    | Some attrs =>
      (* allow modifier keys and non-left clicks to open normally *)
      if negb (button e =? 0)%Z || metaKey e || ctrlKey e || shiftKey e
         || altKey e
      then ret tt
      else
        match link_href attrs with
        | None => ret tt
        | Some href =>
          if negb (_matchesLocal h w href) then ret tt
          else
            _ <~ emit EvPreventDefault ;
            (* run beforeEach hooks *)
            match URL_href h href (location_href w) with
            | None => throw (TypeError "Invalid URL")
            | Some full =>
              match _buildCtx h full with
              | Throw e => throw e
              | Beyond => beyond
              | Normal ctx =>
                proceed <~ _runBeforeHooks ctx ;
                match proceed with
                | VBool false => ret tt
                | VString target =>
                    not_awaited (navigate h fuel target nav_defaults)
                | _ => not_awaited (navigate h fuel href nav_defaults)
                end
              end
            end
        end
    end.

(** The [mouseover] listener of [_bindPrefetch]. *)
Definition hoverHandler (h : Host) (e : MouseEvent) : M unit :=
  w <~ get ;
  let cfg := config (router w) in
  match closest e (linkSelector cfg) with
  | None => ret tt
  | Some attrs =>
    (* only prefetch if data-prefetch present or global prefetch enabled *)
    if negb (prefetchOnHover cfg) && negb (hasAttribute "data-prefetch" attrs)
    then ret tt
    else
      match link_href attrs with
      | None => ret tt
      | Some href =>
        match URL_href h href (location_href w) with
        | None => throw (TypeError "Invalid URL")
        | Some full =>
          if bool_decide (is_Some (stateCache w !! full))
             || bool_decide (is_Some (loaderCache (router w) !! full))
          then ret tt
          else
            let fetch_html : M unit :=
              (* otherwise fetch HTML (non-blocking) *)
              _ <~ emit (EvFetch full) ;
              match fetch h full with
              | Reply true _ body =>
                  let doc := parseDocument h body in
                  stateCache_set full
                    {| html := default (doc_body doc)
                                 (doc_querySelector doc (container cfg));
                       title := default "" (doc_title doc) |}
              | _ => ret tt
              end in
            (* if a route is registered, pre-run its loader *)
            match _matchRoute h (router w) full with
            | Some m =>
              match loader (options (mr_route m)) with
              | Some load =>
                  _ <~ emit (EvLoader (path (mr_route m))) ;
                  match load (mr_params m) (mr_query m) with
                  | Returns data => loaderCache_set full data
                  | Throws _ => ret tt
                  end
              | None => fetch_html
              end
            | None => fetch_html
            end
        end
      end
  end.

(** *** [init] *)

Record InitOptions := {
  opt_container : option string;
  opt_linkSelector : option string;
  opt_linkAttrName : option string;
  opt_cache : option bool;
  opt_prefetchOnHover : option bool
}.

(** [{ ...this.config, ...opts }] *)
Definition merge_config (c : Config) (opts : InitOptions) : Config :=
  {| container := default (container c) (opt_container opts);
     linkSelector := default (linkSelector c) (opt_linkSelector opts);
     linkAttrName := default (linkAttrName c) (opt_linkAttrName opts);
     cache := default (cache c) (opt_cache opts);
     prefetchOnHover := default (prefetchOnHover c)
                          (opt_prefetchOnHover opts) |}.

Definition init (h : Host) (opts : InitOptions) : M unit :=
  w <~ get ;
  let R := router w in
  let cfg := merge_config (config R) opts in
  _ <~ set_router {| config := cfg; routes := routes R;
                     loaderCache := loaderCache R; hooks := hooks R |} ;
  _ <~ addEventListener OnClick ;
  _ <~ addEventListener OnSubmit ;
  _ <~ (if prefetchOnHover cfg then addEventListener OnMouseover
        else ret tt) ;
  _ <~ addEventListener OnPopstate ;
  (* Save current content as initial state *)
  let markup := match elements w !! container cfg with
                | Some sf => innerHTML h (sf_children sf)
                | None => body_innerHTML w
                end in
  let here := location_href w in
  _ <~ history_write true
         {| hs_html := markup; hs_title := document_title w;
            hs_url := here |} here ;
  _ <~ stateCache_set here {| html := markup; title := document_title w |} ;
  emit EvUpdateActiveLinks.

(** [Router.beforeEach(fn)], [Router.afterEach(fn)], [Router.onError(fn)] *)
Definition beforeEach (fn : Ctx -> Outcome JSValue) (R : Router) : Router :=
  {| config := config R; routes := routes R; loaderCache := loaderCache R;
     hooks := {| hooks_beforeEach := hooks_beforeEach (hooks R) ++ [fn];
                 hooks_afterEach := hooks_afterEach (hooks R);
                 hooks_onError := hooks_onError (hooks R) |} |}.

Definition afterEach (fn : Ctx -> Outcome unit) (R : Router) : Router :=
  {| config := config R; routes := routes R; loaderCache := loaderCache R;
     hooks := {| hooks_beforeEach := hooks_beforeEach (hooks R);
                 hooks_afterEach := hooks_afterEach (hooks R) ++ [fn];
                 hooks_onError := hooks_onError (hooks R) |} |}.

Definition onError (fn : JSError -> ErrorInfo -> Outcome unit) (R : Router)
    : Router :=
  {| config := config R; routes := routes R; loaderCache := loaderCache R;
     hooks := {| hooks_beforeEach := hooks_beforeEach (hooks R);
                 hooks_afterEach := hooks_afterEach (hooks R);
                 hooks_onError := hooks_onError (hooks R) ++ [fn] |} |}.

(** The router object as the script creates it. *)
Definition Router0 : Router :=
  {| config := DEFAULTS; routes := []; loaderCache := ∅;
     hooks := {| hooks_beforeEach := []; hooks_afterEach := [];
                 hooks_onError := [] |} |}.

(** ** A host for the examples

    The examples below run the router on a small site.  Every address is
    an absolute URL of the form [http://host/path] or a path from the root;
    no address carries a query string.  Markup is one of a few fixed
    strings, so parsing is a table. *)

Fixpoint split_at (c : ascii) (s : list ascii) : list ascii * list ascii :=
  match s with
  | [] => ([], [])
  | a :: rest =>
      if Ascii.eqb a c then ([], s)
      else let '(l, r) := split_at c rest in (a :: l, r)
  end.

(** Scheme and authority of an absolute URL, and what follows them. *)
Definition split_origin (full : string) : option (string * string) :=
  let '(scheme, rest) := split_at ":" (chars full) in
  match rest with
  | ":"%char :: "/"%char :: "/"%char :: rest' =>
      let '(authority, tail) := split_at "/" rest' in
      Some (text (scheme ++ chars "://" ++ authority), text tail)
  | _ => None
  end.

Definition example_URL_href (href base : string) : option string :=
  match split_origin href with
  | Some _ => Some href
  | None =>
      match chars href, split_origin base with
      | "/"%char :: _, Some (origin, _) => Some (origin ++ href)%string
      | _, _ => None
      end
  end.

Definition example_URL_parts (full : string) : option (string * string) :=
  '(_, tail) ← split_origin full;
  let '(pathname, search) := split_at "?" (chars tail) in
  Some (if (length pathname =? 0) then "/" else text pathname, text search).

Definition example_URL_origin (full : string) : string :=
  match split_origin full with
  | Some (origin, _) => origin
  | None => "null"
  end.

Definition el (tag : string) (attrs : list (string * string))
    (kids : list node) : node :=
  Element tag attrs plain kids.

Definition example_parseHTML (markup : string) : list node :=
  if String.eqb markup "" then []
  else if String.eqb markup "<script>track()</script>"
  then [el "SCRIPT" [] [Text "track()"]]
  else if String.eqb markup "<p>About</p>"
  then [el "P" [] [Text "About"]]
  else if String.eqb markup "<span>new</span>"
  then [el "SPAN" [] [Text "new"]]
  else if String.eqb markup "<p>new</p><div class='map'></div>"
  then [el "P" [] [Text "new"]; el "DIV" [("class", "map")] []]
  else if String.eqb markup "<div><script src='/a.js'></script></div>"
  then [el "DIV" [] [el "SCRIPT" [("src", "/a.js")] []]]
  else [Text markup].

Fixpoint serialize (n : node) : string :=
  match n with
  | Element tag attrs _ kids =>
      let name := text (lower <$> chars tag) in
      ("<" ++ name
       ++ fold_right (fun '(k, v) acc => " " ++ k ++ "='" ++ v ++ "'" ++ acc)
                     "" attrs
       ++ ">" ++ fold_right (fun k acc => serialize k ++ acc) "" kids
       ++ "</" ++ name ++ ">")%string
  | Text data => data
  | Comment data => ("<!--" ++ data ++ "-->")%string
  end.

Definition example_innerHTML (kids : list node) : string :=
  fold_right (fun k acc => serialize k ++ acc)%string "" kids.

(** A fetched page is a bare fragment: no element matches the container
    selector and there is no title. *)
Definition example_parseDocument (body : string) : Document :=
  {| doc_querySelector := fun _ => None; doc_body := body;
     doc_title := None |}.

Definition example_host (pages : string -> Response) : Host :=
  {| URL_href := example_URL_href;
     URL_parts := example_URL_parts;
     URL_origin := example_URL_origin;
     URLSearchParams_entries := fun _ => [];
     parseHTML := example_parseHTML;
     innerHTML := example_innerHTML;
     parseDocument := example_parseDocument;
     fetch := pages;
     script_src := fun a => default a (example_URL_href a "http://example.com/")
  |}.

(** A site whose server is down, and one that serves the page [/about]. *)
Definition offline : Host :=
  example_host (fun _ => NetworkError (TypeError "Failed to fetch")).

Definition online : Host :=
  example_host (fun url =>
    if String.eqb url "http://example.com/about"
    then Reply true "OK" "<p>About</p>"
    else Reply false "Not Found" "").

(** The page at [http://example.com/] with an empty container [#app]. *)
Definition home (R : Router) : World :=
  {| location_href := "http://example.com/";
     document_title := "Home";
     body_innerHTML := "<div id='app'></div>";
     elements := {[ "#app" := {| sf_children := []; sf_loading := false |} ]};
     stateCache := ∅;
     router := R;
     listeners := [];
     log := [] |}.

(** A mouse event (a primary-button click, a hover) on a link with the
    given [href]. *)
Definition click_on (href : string) : MouseEvent :=
  {| defaultPrevented := false;
     closest := fun sel =>
       if String.eqb sel "[data-router]"
       then Some [("href", href); ("data-router", "")] else None;
     button := 0%Z; metaKey := false; ctrlKey := false; shiftKey := false;
     altKey := false |}.

(** *** Scenarios *)

(** The navigation context of [http://example.com/about]. *)
Definition ctx_about : Ctx :=
  {| ctx_path := "/about"; ctx_query := ∅;
     ctx_full := "http://example.com/about" |}.

(** Three [beforeEach] hooks: one lets every navigation pass, one vetoes
    every navigation, one sends every navigation to [/login]. *)
Definition hook_pass : Ctx -> Outcome JSValue := fun _ => Returns VUndefined.
Definition hook_veto : Ctx -> Outcome JSValue := fun _ => Returns (VBool false).
Definition hook_login : Ctx -> Outcome JSValue :=
  fun _ => Returns (VString "/login").

(** A router with the hooks [hook_pass], [hook_veto], [hook_login], in this
    order of registration, and one with [hook_pass] alone. *)
Definition guarded : Router :=
  beforeEach hook_login (beforeEach hook_veto (beforeEach hook_pass Router0)).

Definition observed : Router := beforeEach hook_pass Router0.


Definition tracked : node :=
  el "SCRIPT" [("data-router-executed", "1")] [Text "track()"].

(** The snapshot of a page that consists of the tracking script. *)
Definition tracking_page (url : string) : HistoryState :=
  {| hs_html := "<script>track()</script>"; hs_title := "Tracked";
     hs_url := url |}.

(** The expression a source compiles to (the empty pattern when it does
    not compile). *)
Definition compiled (src : string) : RegExp :=
  match RegExp_new src with
  | Normal re => re
  | _ => {| source := src; pattern := REmpty; ncaptures := 0 |}
  end.

(** The home page after [Router.init({ cache: false })], and after the
    pointer then moved over a link to [/about]. *)
Definition cache_off : InitOptions :=
  {| opt_container := None; opt_linkSelector := None;
     opt_linkAttrName := None; opt_cache := Some false;
     opt_prefetchOnHover := None |}.

Definition started : World := snd (init online cache_off (home Router0)).

Definition hovered : World :=
  snd (hoverHandler online (click_on "/about") started).

Definition hook_throws : JSError -> ErrorInfo -> Outcome unit :=
  fun _ _ => Throws (Error "hook failed").
Definition hook_reports : JSError -> ErrorInfo -> Outcome unit :=
  fun _ _ => Returns tt.

(** A router with two [onError] hooks, the first of which throws. *)
Definition reporting : Router :=
  onError hook_reports (onError hook_throws Router0).

(** ** Vocabulary of the properties *)

(** The events of the calls of [n] hooks, numbered from [i]. *)
Definition before_events (i n : nat) (ctx : Ctx) : list Event :=
  (fun j => EvBeforeEach j ctx) <$> seq i n.

Definition error_events (i n : nat) (err : JSError) (info : ErrorInfo)
    : list Event :=
  (fun j => EvOnError j err info) <$> seq i n.

(** A [beforeEach] hook lets the navigation go on: it returns something
    that is neither [false] nor a string. *)
Definition proceeds (r : Outcome JSValue) : bool :=
  match r with
  | Returns (VBool false) | Returns (VString _) | Throws _ => false
  | Returns _ => true
  end.

(** What [navigate] does with the answer of the [beforeEach] hooks. *)
Definition after_hooks (h : Host) (fuel : nat) (href full : string)
    (sel : string) (ctx : Ctx) (o : NavOptions) (before : JSValue) : M unit :=
  match before with
  | VBool false => ret tt
  | VString target => navigate h fuel target nav_defaults
  | _ => try_catch (navigate_render h sel full ctx o)
                   (navigate_failed href full)
  end.


(** The children and the detached nodes of a run of [_updateChildren]. *)
Definition entries (uc : UC) : list (nat * node) :=
  uc_children uc ++ uc_detached uc.

(** What [_updateChildren] maintains about [keyedOld]: every node the map
    refers to is an element that is still attached or was detached by this
    run, and its tag is older than the fresh ones. *)
Definition keyed_ok (keyedOld : gmap string nat) (uc : UC) : Prop :=
  forall k id, keyedOld !! k = Some id ->
    id < uc_next uc
    /\ (exists n, In (id, n) (entries uc))
    /\ (forall n, In (id, n) (entries uc) -> is_element n = true).

(** [_patchNode] is called on a pair of nodes of the same kind. *)
Definition patch_total (h : Host) (newNode : node) : Prop :=
  forall oldNode,
    (is_element oldNode = true -> is_element newNode = true) ->
    exists res, _patchNode h oldNode newNode = Normal res
      /\ (forall n', fst res = Kept n' -> is_element n' = is_element oldNode).

Definition scroll_events (o : NavOptions) : list Event :=
  match scrollTop o with
  | Some top => [EvScrollTo top]
  | None => []
  end.

Definition history_event (o : NavOptions) (st : HistoryState) (url : string)
    : Event :=
  if replace o then EvReplaceState st url else EvPushState st url.

Definition is_fetch (e : Event) : bool :=
  match e with EvFetch _ => true | _ => false end.

Definition is_onError (e : Event) : bool :=
  match e with EvOnError _ _ _ => true | _ => false end.

(** The events that change the page or the history. *)
Definition is_mutation (e : Event) : bool :=
  match e with
  | EvPatch _ | EvActivate _ | EvPushState _ _ | EvReplaceState _ _ => true
  | _ => false
  end.

(** The events since the world [w] was logged. *)
Definition events_since (w w' : World) : list Event :=
  drop (length (log w)) (log w').

(** The error a failing transport raises in [navigate]. *)
Definition transport_failure (h : Host) (url : string) : option JSError :=
  match fetch h url with
  | NetworkError e => Some e
  | Reply false _ _ => Some (Error "Network response not ok")
  | Reply true _ _ => None
  end.

(** The route found for a target takes its content from the underlying
    page: it has no renderer and no template, and its loader, if it has one
    and the loader cache holds nothing for the target, returns. *)
Definition page_backed (w : World) (full : string) (m : MatchResult) : Prop :=
  render (options (mr_route m)) = None
  /\ truthy_text (template (options (mr_route m))) = false
  /\ match loader (options (mr_route m)) with
     | Some load =>
         truthy (default VUndefined (loaderCache (router w) !! full)) = true
         \/ exists d, load (mr_params m) (mr_query m) = Returns d
     | None => True
     end.

(** The target is fetched by [navigate]: no route matches it, or the route
    is backed by the underlying page. *)
Definition uses_page (h : Host) (w : World) (full : string) : Prop :=
  match _matchRoute h (router w) full with
  | Some m => page_backed w full m
  | None => True
  end.

(** The page [navigate] shows for a target that is not rendered by a
    route: the entry of the content cache, or else what the transport
    delivers ([None] when the transport fails). *)
Definition page_for (h : Host) (w : World) (full : string)
    : option CacheEntry :=
  match stateCache w !! full with
  | Some cached => Some cached
  | None =>
      match fetch h full with
      | Reply true _ body =>
          let doc := parseDocument h body in
          Some {| html := default (doc_body doc)
                            (doc_querySelector doc
                               (container (config (router w))));
                  title := or_else (default "" (doc_title doc))
                                   (document_title w) |}
      | _ => None
      end
  end.

(** The requests [navigate] sends to get that page. *)
Definition page_requests (w : World) (full : string) : list Event :=
  match stateCache w !! full with
  | Some _ => []
  | None => [EvFetch full]
  end.

(** The content cache after [navigate] got that page. *)
Definition cache_after (w : World) (full : string) (entry : CacheEntry)
    : gmap string CacheEntry :=
  match stateCache w !! full with
  | Some _ => stateCache w
  | None =>
      if cache (config (router w)) then <[full := entry]> (stateCache w)
      else stateCache w
  end.

(** The markup [init] saves as the initial state. *)
Definition initial_markup (h : Host) (cfg : Config) (w : World) : string :=
  match elements w !! container cfg with
  | Some sf => innerHTML h (sf_children sf)
  | None => body_innerHTML w
  end.

(** A hover the prefetch listener answers with a request for the page: the
    pointer is over a link, prefetching is enabled or asked for by the
    link, the link resolves to [full], neither cache knows [full], and no
    route with a loader matches it. *)
Definition prefetches_page (h : Host) (e : MouseEvent) (w : World)
    (full : string) : Prop :=
  exists attrs href,
    closest e (linkSelector (config (router w))) = Some attrs
    /\ (prefetchOnHover (config (router w)) = true
        \/ hasAttribute "data-prefetch" attrs = true)
    /\ link_href attrs = Some href
    /\ URL_href h href (location_href w) = Some full
    /\ stateCache w !! full = None
    /\ loaderCache (router w) !! full = None
    /\ match _matchRoute h (router w) full with
       | Some m => loader (options (mr_route m)) = None
       | None => True
       end.

(** A character of a literal path segment that none of the replacements
    of [_pathToRegex] touches and that the pattern grammar reads as
    itself. *)
Definition plain_char (c : ascii) : bool :=
  key_char c || Ascii.eqb c "/" || Ascii.eqb c "-".

(** One rendering of markup into the container, as [navigate] and
    [_onPopState] do it: [_patch] followed by [_runScripts].  The result is
    the new child nodes and the scripts activated on the way. *)
Definition render_markup (h : Host) (kids : list node) (markup : string)
    : Completion (list node * list Activation) :=
  do r <- _patch h kids markup;
  Normal (fst (_runScripts h (fst r)), snd r ++ snd (_runScripts h (fst r))).

(** The old and the new children pair up position by position. *)
Definition aligned (olds news : list node) : Prop :=
  length olds = length news
  /\ (forall j o n, olds !! j = Some o -> news !! j = Some n ->
        _isSameNode o n = true)
  /\ (forall o, o ∈ olds -> truthy_text (router_key o) = false).

(** ** Vocabulary of the further properties *)

(** A byte written as a percent escape, with upper-case digits. *)
Definition hex_digit (n : nat) : ascii :=
  ascii_of_nat (if n <? 10 then 48 + n else 55 + n).

Definition escape (c : ascii) : list ascii :=
  ["%"%char; hex_digit (code c / 16); hex_digit (code c mod 16)].

(** The attribute names of an element, in document order. *)
Definition names (attrs : list (string * string)) : list string :=
  fst <$> attrs.

(** The router after [Router.route(path)]; the router as it was when the
    pattern does not compile and [route] throws. *)
Definition routed (path : string) (R : Router) : Router :=
  match route path no_options R with
  | Normal R' => R'
  | _ => R
  end.

Definition is_inline (a : Activation) : bool :=
  match a with ActInline _ => true | ActSrc _ => false end.

Definition is_afterEach (e : Event) : bool :=
  match e with EvAfterEach _ _ => true | _ => false end.

(** The events of the calls of [n] [afterEach] hooks, numbered from [i]. *)
Definition after_events (i n : nat) (to : Ctx) : list Event :=
  (fun j => EvAfterEach j to) <$> seq i n.

(** What the [onError] hooks are told when the hooks [fns] are called with
    [arg]: every hook that throws is reported to each of the [n] [onError]
    hooks. *)
Definition reported {A B : Type} (fns : list (A -> Outcome B)) (arg : A)
    (n : nat) (info : ErrorInfo) : list Event :=
  flat_map (fun fn => match fn arg with
                      | Throws err => error_events 0 n err info
                      | Returns _ => []
                      end) fns.

(** *** More scenarios *)

(** A [beforeEach] hook that throws, one that sends [/about] to [/login]
    and lets every other navigation pass, and an [afterEach] hook that
    throws. *)
Definition hook_fails : Ctx -> Outcome JSValue :=
  fun _ => Throws (Error "denied").

Definition hook_auth : Ctx -> Outcome JSValue :=
  fun ctx => if String.eqb (ctx_path ctx) "/about"
             then Returns (VString "/login") else Returns VUndefined.

Definition hook_after_fails : Ctx -> Outcome unit :=
  fun _ => Throws (Error "after failed").

Definition hook_after : Ctx -> Outcome unit := fun _ => Returns tt.

(** [reporting] with the [beforeEach] hooks [hook_pass], [hook_fails],
    [hook_veto]; a router with [hook_pass], [hook_auth], [hook_veto]; and
    [reporting] with the [afterEach] hooks [hook_after_fails],
    [hook_after]. *)
Definition failing : Router :=
  beforeEach hook_veto (beforeEach hook_fails (beforeEach hook_pass reporting)).

Definition authenticated : Router :=
  beforeEach hook_veto (beforeEach hook_auth (beforeEach hook_pass Router0)).

Definition notified : Router :=
  afterEach hook_after (afterEach hook_after_fails reporting).

(** The link a click is on:
    [e.target.closest(linkSelector) || e.target.closest("[data-route],[data-href]")]. *)
Definition clicked_link (e : MouseEvent) (w : World)
    : option (list (string * string)) :=
  match closest e (linkSelector (config (router w))) with
  | Some el => Some el
  | None => closest e "[data-route],[data-href]"
  end.

(** A click with another button than the primary one or with a modifier
    key held down. *)
Definition modified (e : MouseEvent) : bool :=
  negb (button e =? 0)%Z || metaKey e || ctrlKey e || shiftKey e || altKey e.

(** A click on the link to [/about] with the control key held down. *)
Definition ctrl_click : MouseEvent :=
  {| defaultPrevented := false; closest := closest (click_on "/about");
     button := 0%Z; metaKey := false; ctrlKey := true; shiftKey := false;
     altKey := false |}.

(** The home page without the container [#app]. *)
Definition bare (R : Router) : World :=
  {| location_href := "http://example.com/";
     document_title := "Home";
     body_innerHTML := "<p>Home</p>";
     elements := ∅;
     stateCache := ∅;
     router := R;
     listeners := [];
     log := [] |}.

(** A character of a route pattern that reaches the expression as itself,
    escaped or not: every character but the star, the opening bracket and
    the colon. *)
Definition literal (c : ascii) : bool := negb (one_of "*[:" c).

(** *** The shape of a pattern source *)

(** What the first two replacements of [_pathToRegex] leave: characters
    outside the escaped class as they are, a backslash in front of every
    character of the class, and the wildcard capture behind a backslash
    (where the pattern had a backslash followed by a star). *)
Inductive escaped : list ascii -> Prop :=
| escaped_nil : escaped []
| escaped_plain c r : special c = false -> escaped r -> escaped (c :: r)
| escaped_special c r :
    special c = true -> escaped r -> escaped ("\"%char :: c :: r)
| escaped_star r : escaped r -> escaped ("\"%char :: chars "(.*)" ++ r).

(** A scan of a pattern source for a closing parenthesis outside a
    character class that comes before any opening one: the parenthesis
    [new RegExp] reports as unmatched. *)
Fixpoint unmatched (in_class : bool) (s : list ascii) : bool :=
  match s with
  | [] => false
  | "\"%char :: _ :: r => unmatched in_class r
  | "["%char :: r => unmatched true r
  | "]"%char :: r => unmatched false r
  | ")"%char :: r => if in_class then unmatched true r else true
  | "("%char :: r => if in_class then unmatched true r else false
  | _ :: r => unmatched in_class r
  end.

(** The local function [atom] of [parse_class_atoms]. *)
Definition class_atom (s : list ascii) : Completion (ascii * list ascii) :=
  match s with
  | [] => Throw (SyntaxError "Unterminated character class")
  | "\"%char :: [] => Throw (SyntaxError "\ at end of pattern")
  | "\"%char :: c :: r =>
      if identity_escape c then Normal (c, r) else Beyond
  | c :: r => Normal (c, r)
  end.

(** *** Markup the reconciler reproduces *)

(** Markup without scripts, preserved elements and keyed elements, in
    which every element has distinct attribute names (as every element of
    a document has). *)
Fixpoint clean (n : node) : bool :=
  match n with
  | Element tag attrs _ kids =>
      negb (is_script tag)
      && negb (hasAttribute "data-preserve" attrs)
      && negb (truthy_text (getAttribute "data-router-key" attrs))
      && bool_decide (NoDup (names attrs))
      && forallb clean kids
  | _ => true
  end.

(** A tree without preserved elements. *)
Fixpoint unpreserved (n : node) : bool :=
  match n with
  | Element _ attrs _ kids =>
      negb (hasAttribute "data-preserve" attrs) && forallb unpreserved kids
  | _ => true
  end.

(** Two trees are the same markup: the same tags, the same value for every
    attribute name, the same text and comments, child by child.  The order
    of the attributes and the state of the elements are left open. *)
#[warnings="-register-all"]
Inductive same_markup : node -> node -> Prop :=
| same_element tag a1 a2 s1 s2 k1 k2 :
    (forall n, getAttribute n a1 = getAttribute n a2) ->
    Forall2 same_markup k1 k2 ->
    same_markup (Element tag a1 s1 k1) (Element tag a2 s2 k2)
| same_text d : same_markup (Text d) (Text d)
| same_comment d : same_markup (Comment d) (Comment d).

(** [_patchNode] patches a pair of the same node in place and reproduces
    the new markup. *)
Definition patch_ok (h : Host) (newNode : node) : Prop :=
  clean newNode = true ->
  forall oldNode,
    unpreserved oldNode = true ->
    _isSameNode oldNode newNode = true ->
    exists n', _patchNode h oldNode newNode = Normal (Kept n', [])
               /\ same_markup n' newNode.

(** The example site with a search form: the host also parses the markup of
    a search field; [typed] is the field after the user typed into it. *)
Definition search_site : Host :=
  {| URL_href := URL_href online;
     URL_parts := URL_parts online;
     URL_origin := URL_origin online;
     URLSearchParams_entries := URLSearchParams_entries online;
     parseHTML := fun markup =>
       if String.eqb markup "<input name='q' class='wide'>"
       then [el "INPUT" [("name", "q"); ("class", "wide")] []]
       else parseHTML online markup;
     innerHTML := innerHTML online;
     parseDocument := parseDocument online;
     fetch := fetch online;
     script_src := script_src online |}.

Definition typed : node :=
  Element "INPUT" [("name", "q")]
    {| checked := false; value := "rocq"; selectedIndex := (-1)%Z;
       onload_marks := false |} [].

(** What stands for [null] where an answer of [_matchRoute] is named. *)
Definition no_match : MatchResult :=
  {| mr_route := {| path := ""; regex := compiled ""; keys := [];
                    options := no_options |};
     mr_params := ∅; mr_query := ∅; mr_pathname := "" |}.

(** A route for [/about] whose loader returns the markup and whose
    renderer hands it on; a router with this route and the [afterEach]
    hooks [hook_after_fails] and [hook_after]; and what [_matchRoute]
    answers for the route. *)
Definition load_about : gmap string string -> gmap string string
                        -> Outcome JSValue :=
  fun _ _ => Returns (VString "<p>About</p>").

Definition render_data : JSValue -> gmap string string -> gmap string string
                         -> Outcome JSValue :=
  fun data _ _ => Returns data.

Definition rendering : Router :=
  match route "/about"
          {| loader := Some load_about; render := Some render_data;
             template := None |} notified with
  | Normal R => R
  | _ => notified
  end.

Definition about_match : MatchResult :=
  default no_match (_matchRoute online rendering "http://example.com/about").

(** ** Active links

    [_updateActiveLinks] works on the elements the link selector finds; of
    such an element it reads the attributes [href], [data-href] and
    [data-route] and writes the class list.  A link is kept as its attributes
    other than [class] and the tokens of its [classList], which are distinct
    in the browser.  The controller's calls of the function are the
    [EvUpdateActiveLinks] entries of the log. *)

Record Link := {
  link_attrs : list (string * string);   (* attributes other than [class] *)
  classList : list string                (* [a.classList], in order *)
}.

(** [classList.toggle(token, force)] *)
Definition classList_toggle (token : string) (force : bool)
    (tokens : list string) : list string :=
  if force
  then if bool_decide (token ∈ tokens) then tokens else tokens ++ [token]
  else List.filter (fun t => negb (String.eqb t token)) tokens.

(** [_updateActiveLinks()], on [querySelectorAll(config.linkSelector)] and
    with [here] for [location.href]. *)
Definition _updateActiveLinks (h : Host) (here : string) (links : list Link)
    : list Link :=
  (fun a =>
     match link_href (link_attrs a) with
     | None => a
     | Some href =>
       match URL_href h href here with
       | Some full =>
           {| link_attrs := link_attrs a;
              classList := classList_toggle "active" (String.eqb full here)
                             (classList a) |}
       | None => a                                 (* [catch (e) {}] *)
       end
     end) <$> links.

(** The address a link resolves to, when it has one that parses. *)
Definition link_target (h : Host) (here : string) (a : Link) : option string :=
  href ← link_href (link_attrs a); URL_href h href here.

(** ** Keyed children

    The key under which [_updateChildren] looks a child up: the value of
    [data-router-key] of an element, when it is not empty. *)
Definition key_of (n : node) : option string :=
  if is_element n && truthy_text (router_key n) then router_key n else None.

(** A list of keyed check boxes: the rows in the document, the first one
    ticked by the user, and the rows of the new markup, which come in
    another order and without the last one. *)
Definition ticked : ElState :=
  {| checked := true; value := ""; selectedIndex := (-1)%Z;
     onload_marks := false |}.

Definition row (key : string) (st : ElState) : node :=
  Element "INPUT" [("type", "checkbox"); ("data-router-key", key)] st [].

Definition rows_before : list node :=
  [row "a" ticked; row "b" plain; Text " "; row "c" plain].

Definition rows_after : list node := [row "b" plain; row "a" plain].

(** The route for [/about] with a loader that fails, and what [_matchRoute]
    answers for it. *)
Definition load_fails : gmap string string -> gmap string string
                        -> Outcome JSValue :=
  fun _ _ => Throws (Error "backend down").

Definition unavailable : Router :=
  match route "/about"
          {| loader := Some load_fails; render := Some render_data;
             template := None |} reporting with
  | Normal R => R
  | _ => reporting
  end.

Definition down_match : MatchResult :=
  default no_match
    (_matchRoute online unavailable "http://example.com/about").



(** * Properties *)

(** ** The log and the world *)

Lemma add_log_nil w : add_log [] w = w.
Proof. destruct w; unfold add_log; simpl. by rewrite app_nil_r. Qed.

Lemma add_log_app a b w : add_log b (add_log a w) = add_log (a ++ b) w.
Proof. unfold add_log; simpl. by rewrite app_assoc. Qed.

Lemma emit_run e w : emit e w = (Normal tt, add_log [e] w).
Proof. reflexivity. Qed.

Lemma bind_run {A B} (m : M A) (k : A -> M B) w :
  bind m k w =
  match m w with
  | (Normal a, w') => k a w'
  | (Throw e, w') => (Throw e, w')
  | (Beyond, w') => (Beyond, w')
  end.
Proof. reflexivity. Qed.

(** ** Hooks *)

Lemma callErrorHooks_from_run fns : forall i err info w,
  callErrorHooks_from i fns err info w =
  (Normal tt, add_log (error_events i (length fns) err info) w).
Proof.
  induction fns as [|fn rest IH]; intros i err info w.
  - simpl. by rewrite add_log_nil.
  - cbn [callErrorHooks_from]. rewrite bind_run, emit_run.
    assert (Hstep : forall o : Outcome unit,
      match o with
      | Returns _ | Throws _ => callErrorHooks_from (S i) rest err info
      end = callErrorHooks_from (S i) rest err info) by (by intros []).
    rewrite Hstep, IH, add_log_app. reflexivity.
Qed.

Lemma callErrorHooks_run err info w :
  _callErrorHooks err info w =
  (Normal tt,
   add_log (error_events 0 (length (hooks_onError (hooks (router w))))
              err info) w).
Proof.
  unfold _callErrorHooks. rewrite bind_run. apply callErrorHooks_from_run.
Qed.

Lemma runBeforeHooks_from_proceed fns : forall i ctx w,
  Forall (fun fn => proceeds (fn ctx) = true) fns ->
  runBeforeHooks_from i fns ctx w =
  (Normal (VBool true), add_log (before_events i (length fns) ctx) w).
Proof.
  induction fns as [|fn rest IH]; intros i ctx w Hall.
  - simpl. by rewrite add_log_nil.
  - apply Forall_cons in Hall as [Hfn Hrest].
    cbn [runBeforeHooks_from]. rewrite bind_run, emit_run.
    destruct (fn ctx) as [[| |[]| |]|]; try discriminate;
      rewrite (IH _ _ _ Hrest), add_log_app; reflexivity.
Qed.

Lemma runBeforeHooks_from_false pre : forall i fn post ctx w,
  Forall (fun g => proceeds (g ctx) = true) pre ->
  fn ctx = Returns (VBool false) ->
  runBeforeHooks_from i (pre ++ fn :: post) ctx w =
  (Normal (VBool false), add_log (before_events i (S (length pre)) ctx) w).
Proof.
  induction pre as [|g pre IH]; intros i fn post ctx w Hall Hfn.
  - cbn [app runBeforeHooks_from]. rewrite bind_run, emit_run, Hfn.
    reflexivity.
  - apply Forall_cons in Hall as [Hg Hpre].
    cbn [app runBeforeHooks_from]. rewrite bind_run, emit_run.
    destruct (g ctx) as [[| |[]| |]|]; try discriminate;
      rewrite (IH _ _ _ _ _ Hpre Hfn), add_log_app; reflexivity.
Qed.

Lemma runBeforeHooks_proceed ctx w :
  Forall (fun fn => proceeds (fn ctx) = true)
         (hooks_beforeEach (hooks (router w))) ->
  _runBeforeHooks ctx w =
  (Normal (VBool true),
   add_log (before_events 0 (length (hooks_beforeEach (hooks (router w))))
              ctx) w).
Proof.
  intros H. unfold _runBeforeHooks. rewrite bind_run.
  by apply runBeforeHooks_from_proceed.
Qed.

(** ** [navigate] on the current location (C7) *)

Lemma navigate_same_location h fuel href o w :
  URL_href h href (location_href w) = Some (location_href w) ->
  navigate h (S fuel) href o w = (Normal tt, w).
Proof.
  intros Hsame. cbn [navigate]. rewrite bind_run. cbn [get].
  rewrite Hsame, String.eqb_refl. reflexivity.
Qed.

(** C7: calling [navigate] with a target that resolves to the current
    location returns at once and leaves the world as it is: nothing is
    fetched, the history and the caches are not written, the surface is not
    touched and no hook is called (the log of events does not grow). *)
Theorem navigate_current_location_is_noop
    (h : Host) (fuel : nat) (href : string) (o : NavOptions) (w : World) :
  URL_href h href (location_href w) = Some (location_href w) ->
  navigate h (S fuel) href o w = (Normal tt, w).
Proof. apply navigate_same_location. Qed.

Lemma navigate_current_location_is_noop_witness :
  navigate online 1 "http://example.com/" nav_defaults (home Router0)
  = (Normal tt, home Router0).
Proof.
  apply (navigate_current_location_is_noop online 0 "http://example.com/").
  reflexivity.
Defined.

(** ** [navigate] up to the hooks *)

Lemma navigate_start h fuel href o w full ctx :
  URL_href h href (location_href w) = Some full ->
  full <> location_href w ->
  is_Some (elements w !! container (config (router w))) ->
  _buildCtx h full = Normal ctx ->
  navigate h (S fuel) href o w =
  bind (_runBeforeHooks ctx)
       (after_hooks h fuel href full (container (config (router w))) ctx o) w.
Proof.
  intros Hfull Hne [sf Hsf] Hctx.
  cbn [navigate]. rewrite bind_run. cbn [get].
  rewrite Hfull. apply String.eqb_neq in Hne. rewrite Hne, Hsf, Hctx.
  reflexivity.
Qed.

(** ** A hook that returns [false] (C6) *)

(** C6: when a [beforeEach] hook returns [false] during [navigate] (the
    hooks registered before it let the navigation go on), [navigate]
    returns normally and the only thing that happened is the calls of the
    hooks up to and including that one: the world differs from the initial
    one by these log entries alone.  So nothing is fetched, the surface is
    not patched, no history entry is pushed or replaced, no [onError] hook
    runs and the hooks registered after it are not called. *)
Theorem beforeEach_false_aborts_silently
    (h : Host) (fuel : nat) (href : string) (o : NavOptions) (w : World)
    (full : string) (ctx : Ctx)
    (pre post : list (Ctx -> Outcome JSValue)) (fn : Ctx -> Outcome JSValue) :
  URL_href h href (location_href w) = Some full ->
  full <> location_href w ->
  is_Some (elements w !! container (config (router w))) ->
  _buildCtx h full = Normal ctx ->
  hooks_beforeEach (hooks (router w)) = pre ++ fn :: post ->
  Forall (fun g => proceeds (g ctx) = true) pre ->
  fn ctx = Returns (VBool false) ->
  navigate h (S fuel) href o w =
  (Normal tt, add_log (before_events 0 (S (length pre)) ctx) w).
Proof.
  intros Hfull Hne Hsf Hctx Hhooks Hpre Hfn.
  rewrite (navigate_start _ _ _ _ _ _ _ Hfull Hne Hsf Hctx).
  rewrite bind_run. unfold _runBeforeHooks. rewrite bind_run. cbn [get].
  rewrite Hhooks, (runBeforeHooks_from_false _ _ _ _ _ _ Hpre Hfn).
  reflexivity.
Qed.

(** ** History pop without a snapshot (C3) *)

Lemma onPopState_without_snapshot h fuel w state :
  truthy_text (hs_html <$> state) = false ->
  URL_href h (location_href w) (location_href w) = Some (location_href w) ->
  _onPopState h (S fuel) state w = (Normal tt, w).
Proof.
  intros Hstate Hself. unfold _onPopState. rewrite bind_run. cbn [get].
  destruct (elements w !! container (config (router w))); [|reflexivity].
  rewrite Hstate. unfold not_awaited, try_catch.
  by rewrite navigate_same_location.
Qed.

(** The pop of a history entry that carries no snapshot changes nothing
    but the location the browser already moved to. *)
Lemma history_pop_without_snapshot h fuel w url state :
  truthy_text (hs_html <$> state) = false ->
  URL_href h url url = Some url ->
  history_pop h (S fuel) url state w = (Normal tt, moved_to url w).
Proof.
  intros Hstate Hself. unfold history_pop. rewrite bind_run.
  change (set_location url w) with (Normal tt, moved_to url w).
  by apply onPopState_without_snapshot.
Qed.

Lemma beforeEach_false_aborts_silently_witness :
  navigate online 1 "/about" nav_defaults (home guarded)
  = (Normal tt, add_log (before_events 0 2 ctx_about) (home guarded)).
Proof.
  apply (beforeEach_false_aborts_silently online 0 "/about" nav_defaults
           (home guarded) "http://example.com/about" ctx_about
           [hook_pass] [hook_login] hook_veto).
  - reflexivity.
  - discriminate.
  - eexists. reflexivity.
  - reflexivity.
  - reflexivity.
  - repeat constructor.
  - reflexivity.
Defined.

(** C3 (the code departs from the claim): the browser goes back to
    [http://example.com/about], an entry without a snapshot, on a site that
    serves this page.  [_onPopState] calls [navigate(location.href)], which
    returns at its first test because the target is the current location:
    nothing is fetched, the surface keeps its content and the history state
    is not replaced.  The world is the initial one at the new location, with
    an empty log. *)
Theorem popstate_without_snapshot_does_nothing :
  fetch online "http://example.com/about" = Reply true "OK" "<p>About</p>"
  /\ history_pop online 1 "http://example.com/about" None (home Router0)
     = (Normal tt, moved_to "http://example.com/about" (home Router0)).
Proof.
  split; [reflexivity|].
  apply history_pop_without_snapshot; reflexivity.
Qed.

(** ** The click listener (C8) *)

(** A click the listener intercepts: after [preventDefault] the
    [beforeEach] hooks run in the listener, and when they let the
    navigation go on, [navigate] runs all of them again before it resolves
    the route. *)
Lemma onClick_runs_hooks_twice h fuel e w attrs href full ctx :
  defaultPrevented e = false ->
  closest e (linkSelector (config (router w))) = Some attrs ->
  button e = 0%Z -> metaKey e = false -> ctrlKey e = false ->
  shiftKey e = false -> altKey e = false ->
  link_href attrs = Some href ->
  URL_href h href (location_href w) = Some full ->
  URL_origin h full = URL_origin h (location_href w) ->
  full <> location_href w ->
  is_Some (elements w !! container (config (router w))) ->
  _buildCtx h full = Normal ctx ->
  Forall (fun fn => proceeds (fn ctx) = true)
         (hooks_beforeEach (hooks (router w))) ->
  let n := length (hooks_beforeEach (hooks (router w))) in
  onClick h (S fuel) e w =
  not_awaited
    (try_catch (navigate_render h (container (config (router w))) full ctx
                  nav_defaults)
               (navigate_failed href full))
    (add_log (EvPreventDefault :: before_events 0 n ctx
              ++ before_events 0 n ctx) w).
Proof.
  intros Hdp Hel Hb Hm Hc Hs Ha Hhref Hfull Horigin Hne Hsf Hctx Hall n.
  unfold onClick. rewrite Hdp, bind_run. cbn [get].
  rewrite Hel, Hb, Hm, Hc, Hs, Ha, Hhref. cbn [Z.eqb negb orb].
  unfold _matchesLocal. rewrite Hfull, Horigin, String.eqb_refl.
  cbn [negb]. rewrite bind_run, emit_run.
  rewrite Hctx, bind_run.
  set (w1 := add_log [EvPreventDefault] w).
  assert (Hall1 : Forall (fun fn => proceeds (fn ctx) = true)
                    (hooks_beforeEach (hooks (router w1)))) by exact Hall.
  rewrite (runBeforeHooks_proceed ctx w1 Hall1).
  set (w2 := add_log _ w1).
  unfold not_awaited at 1. unfold try_catch at 1.
  rewrite (navigate_start h fuel href nav_defaults w2 full ctx);
    [|exact Hfull|exact Hne|exact Hsf|exact Hctx].
  rewrite bind_run.
  assert (Hall2 : Forall (fun fn => proceeds (fn ctx) = true)
                    (hooks_beforeEach (hooks (router w2)))) by exact Hall.
  rewrite (runBeforeHooks_proceed ctx w2 Hall2).
  subst w2 w1. rewrite !add_log_app.
  reflexivity.
Qed.

(** C8 (the code departs from the claim): one [beforeEach] hook is
    registered and a link to [/about] is clicked.  The log shows the hook
    called twice for this one navigation, once by the click listener and
    once by [navigate], before the page is fetched. *)
Theorem click_runs_beforeEach_hook_twice :
  log (snd (onClick online 2 (click_on "/about") (home observed)))
  = [ EvPreventDefault;
      EvBeforeEach 0 ctx_about;
      EvBeforeEach 0 ctx_about;
      EvFetch "http://example.com/about";
      EvPatch "<p>About</p>";
      EvPushState {| hs_html := "<p>About</p>"; hs_title := "Home";
                     hs_url := "http://example.com/about" |}
                  "http://example.com/about";
      EvUpdateActiveLinks;
      EvScrollTo 0 ].
Proof. vm_compute. reflexivity. Qed.

(** ** The reconciler always completes *)

Lemma node_ind' (P : node -> Prop) :
  (forall tag attrs st kids, Forall P kids -> P (Element tag attrs st kids)) ->
  (forall data, P (Text data)) ->
  (forall data, P (Comment data)) ->
  forall n, P n.
Proof.
  intros HE HT HC. fix IH 1. intros [tag attrs st kids|d|d].
  - apply HE.
    induction kids as [|k kids IHk]; constructor; [apply IH|exact IHk].
  - apply HT.
  - apply HC.
Qed.

Lemma lookup_id_In id l n : lookup_id id l = Some n -> In (id, n) l.
Proof.
  unfold lookup_id. intros H.
  destruct (find _ l) as [[i m]|] eqn:Hf; [|discriminate].
  apply find_some in Hf as [Hin Heq]. simpl in H. injection H as ->.
  apply Nat.eqb_eq in Heq as ->. exact Hin.
Qed.

Lemma lookup_id_is_Some id l n : In (id, n) l -> is_Some (lookup_id id l).
Proof.
  unfold lookup_id. intros Hin.
  destruct (find _ l) as [[i m]|] eqn:Hf; [by eexists|].
  apply (find_none _ _ Hf) in Hin. simpl in Hin.
  by rewrite Nat.eqb_refl in Hin.
Qed.

Lemma In_remove_id id l i n :
  In (i, n) (remove_id id l) <-> i <> id /\ In (i, n) l.
Proof.
  unfold remove_id. rewrite filter_In. simpl.
  rewrite negb_true_iff, Nat.eqb_neq. tauto.
Qed.

Lemma In_insert_before ref x l y :
  In y (insert_before ref x l) <-> y = x \/ In y l.
Proof.
  induction l as [|[i n] l IH]; simpl.
  - intuition congruence.
  - case_bool_decide; simpl; rewrite ?IH; intuition congruence.
Qed.

Lemma In_entries_insertBefore mid mnode ref uc i n :
  In (mid, mnode) (entries uc) ->
  In (i, n) (entries (insertBefore mid mnode ref uc)) <->
  (i = mid /\ n = mnode) \/ (i <> mid /\ In (i, n) (entries uc)).
Proof.
  intros _. unfold entries, insertBefore; simpl.
  rewrite !in_app_iff, In_insert_before, !In_remove_id.
  split.
  - intros [[Heq|H]|H]; [left; by injection Heq|right|right]; tauto.
  - intros [[-> ->]|[Hne [H|H]]]; tauto.
Qed.

Lemma keyed_ok_insertBefore K mid mnode ref uc :
  In (mid, mnode) (entries uc) ->
  keyed_ok K uc -> keyed_ok K (insertBefore mid mnode ref uc).
Proof.
  intros Hin Hok k id Hk. destruct (Hok k id Hk) as (Hlt & [n Hn] & Hel).
  split; [exact Hlt|]. split.
  - destruct (decide (id = mid)) as [->|Hne].
    + exists mnode. apply In_entries_insertBefore; auto.
    + exists n. apply In_entries_insertBefore; auto.
  - intros m Hm. apply In_entries_insertBefore in Hm; [|exact Hin].
    destruct Hm as [[-> ->]|[_ Hm]]; apply Hel; assumption.
Qed.

Lemma keyed_ok_next_index K uc : keyed_ok K uc -> keyed_ok K (next_index uc).
Proof. exact id. Qed.

Lemma In_children_kept id n' (l : list (nat * node)) i n :
  In (i, n) (List.map (fun '(j, m) => if j =? id then (j, n') else (j, m)) l)
  <-> (i <> id /\ In (i, n) l) \/ (i = id /\ n = n' /\ exists m, In (id, m) l).
Proof.
  rewrite in_map_iff. split.
  - intros [[j m] [Heq Hin]]. destruct (Nat.eqb_spec j id) as [->|Hne].
    + injection Heq as <- <-. right; eauto.
    + injection Heq as <- <-. left; auto.
  - intros [[Hne Hin]|(-> & -> & m & Hin)].
    + exists (i, n). split; [|exact Hin].
      by apply Nat.eqb_neq in Hne as ->.
    + exists (id, m). by rewrite Nat.eqb_refl.
Qed.

Lemma In_children_replaced id fresh clone (l : list (nat * node)) i n :
  In (i, n)
     (List.map (fun '(j, m) => if j =? id then (fresh, clone) else (j, m)) l)
  <-> (i <> id /\ In (i, n) l)
      \/ (i = fresh /\ n = clone /\ exists m, In (id, m) l).
Proof.
  rewrite in_map_iff. split.
  - intros [[j m] [Heq Hin]]. destruct (Nat.eqb_spec j id) as [->|Hne].
    + injection Heq as <- <-. right; eauto.
    + injection Heq as <- <-. left; auto.
  - intros [[Hne Hin]|(-> & -> & m & Hin)].
    + exists (i, n). split; [|exact Hin].
      by apply Nat.eqb_neq in Hne as ->.
    + exists (id, m). by rewrite Nat.eqb_refl.
Qed.

Lemma keyed_ok_apply_patch K id old res uc :
  In (id, old) (entries uc) ->
  (forall n', fst res = Kept n' -> is_element n' = is_element old) ->
  keyed_ok K uc -> keyed_ok K (apply_patch id old res uc).
Proof.
  intros Hin Hkind Hok k i Hk. destruct (Hok k i Hk) as (Hlt & [n Hn] & Hel).
  destruct res as [[n'|clone] acts]; unfold apply_patch, entries in *; simpl.
  - split; [exact Hlt|]. split.
    + apply in_app_iff in Hn as [Hn|Hn].
      * destruct (decide (i = id)) as [->|Hne].
        -- exists n'. apply in_app_iff. left.
           apply In_children_kept. right; eauto.
        -- exists n. apply in_app_iff. left.
           apply In_children_kept. left; auto.
      * exists n. apply in_app_iff. by right.
    + intros m Hm. apply in_app_iff in Hm as [Hm|Hm].
      * apply In_children_kept in Hm as [[_ Hm]|(-> & -> & _)].
        -- apply Hel, in_app_iff. by left.
        -- rewrite (Hkind n' eq_refl). by apply Hel.
      * apply Hel, in_app_iff. by right.
  - split; [lia|]. split.
    + destruct (decide (i = id)) as [->|Hne].
      * exists old. apply in_app_iff. right. by left.
      * exists n. apply in_app_iff in Hn as [Hn|Hn]; apply in_app_iff.
        -- left. apply In_children_replaced. left; auto.
        -- right. by right.
    + intros m Hm. apply in_app_iff in Hm as [Hm|[Hm|Hm]].
      * apply In_children_replaced in Hm as [[_ Hm]|(-> & _)].
        -- apply Hel, in_app_iff. by left.
        -- lia.
      * injection Hm as -> ->. by apply Hel.
      * apply Hel, in_app_iff. by right.
Qed.

Lemma keyed_ok_append K uc clone acts :
  keyed_ok K uc ->
  keyed_ok K {| uc_children := uc_children uc ++ [(uc_next uc, clone)];
                uc_detached := uc_detached uc;
                uc_next := S (uc_next uc);
                uc_oldIndex := uc_oldIndex uc;
                uc_acts := uc_acts uc ++ acts |}.
Proof.
  intros Hok k i Hk. destruct (Hok k i Hk) as (Hlt & [n Hn] & Hel).
  unfold entries in *; simpl. split; [lia|]. split.
  - exists n. rewrite !in_app_iff in *. tauto.
  - intros m Hm. rewrite !in_app_iff in Hm. simpl in Hm.
    destruct Hm as [[Hm|[Hm|[]]]|Hm].
    + apply Hel, in_app_iff. by left.
    + injection Hm as <- <-. lia.
    + apply Hel, in_app_iff. by right.
Qed.

Lemma isSameNode_kind o n :
  _isSameNode o n = true -> is_element o = is_element n.
Proof. destruct o, n; simpl; congruence. Qed.

Lemma In_drop {A} (x : A) k l : In x (drop k l) -> In x l.
Proof.
  intros H. rewrite <- (take_drop k l). apply in_or_app. by right.
Qed.

Lemma lookup_In {A} (l : list A) i x : l !! i = Some x -> In x l.
Proof. intros H. apply list_elem_of_In. by eapply list_elem_of_lookup_2. Qed.

Lemma update_child_total h K newChild uc :
  patch_total h newChild ->
  keyed_ok K uc ->
  exists uc', update_child h (_patchNode h) K newChild uc = Normal uc'
              /\ keyed_ok K uc'.
Proof.
  intros Htot Hok. unfold update_child.
  match goal with
  | |- context [match ?k with Some _ => _ | None => _ end] =>
      match type of k with
      | option nat => destruct k as [mid|] eqn:Hkeyed
      end
  end.
  - (* the new child carries the key of an old child *)
    assert (Hnew : is_element newChild = true)
      by (destruct (is_element newChild); [done|discriminate]).
    assert (Hk : exists k, K !! k = Some mid).
    { rewrite Hnew in Hkeyed.
      destruct (truthy_text (router_key newChild)); [eauto|discriminate]. }
    destruct Hk as [k Hk]. destruct (Hok k mid Hk) as (_ & [n Hn] & Hel).
    destruct (lookup_id_is_Some _ _ _ Hn) as [mnode Hm].
    unfold entries in Hm. rewrite Hm.
    apply lookup_id_In in Hm. fold (entries uc) in Hm.
    destruct (Htot mnode (fun _ => Hnew)) as (res & Hres & Hkind).
    rewrite Hres. cbn [cbind].
    set (uc1 := if bool_decide _ then uc else _).
    assert (Hin1 : In (mid, mnode) (entries uc1)).
    { subst uc1. case_bool_decide; [exact Hm|].
      apply In_entries_insertBefore; auto. }
    assert (Hok1 : keyed_ok K uc1).
    { subst uc1. case_bool_decide; [exact Hok|].
      by apply keyed_ok_insertBefore. }
    pose proof (keyed_ok_apply_patch K mid mnode res uc1 Hin1 Hkind Hok1).
    case_bool_decide; eauto.
  - destruct (uc_children uc !! uc_oldIndex uc) as [[oid onode]|] eqn:Hold.
    + assert (Hin : In (oid, onode) (entries uc)).
      { apply in_app_iff. left. by eapply lookup_In. }
      destruct (_isSameNode onode newChild) eqn:Hsame.
      * (* patched in place *)
        destruct (Htot onode) as (res & Hres & Hkind).
        { rewrite (isSameNode_kind _ _ Hsame). auto. }
        rewrite Hres. cbn [cbind]. eexists. split; [reflexivity|].
        by apply keyed_ok_apply_patch.
      * destruct (find _ (drop _ _)) as [[jid nodeToMove]|] eqn:Hfind.
        -- (* an old child further on is moved here *)
           apply find_some in Hfind as [Hj Hsame'].
           apply In_drop in Hj.
           assert (Hinj : In (jid, nodeToMove) (entries uc))
             by (apply in_app_iff; by left).
           destruct (Htot nodeToMove) as (res & Hres & Hkind).
           { rewrite (isSameNode_kind _ _ Hsame'). auto. }
           rewrite Hres. cbn [cbind]. eexists. split; [reflexivity|].
           apply keyed_ok_apply_patch; [|exact Hkind|].
           ++ apply In_entries_insertBefore; auto.
           ++ by apply keyed_ok_insertBefore.
        -- (* replaced by a clone *)
           eexists. split; [reflexivity|].
           apply keyed_ok_apply_patch; [exact Hin| |exact Hok].
           destruct (replacement h onode newChild). discriminate.
    + (* appended *)
      destruct (_execScriptsInNode h (cloneNode newChild)) as [clone acts].
      eexists. split; [reflexivity|].
      by apply keyed_ok_append.
Qed.

Lemma forEach_newChild_total h K news : forall uc,
  Forall (patch_total h) news ->
  keyed_ok K uc ->
  exists uc', forEach_newChild h (_patchNode h) K news uc = Normal uc'.
Proof.
  induction news as [|newChild rest IH]; intros uc Hall Hok.
  - by eexists.
  - apply Forall_cons in Hall as [Hnew Hrest].
    destruct (update_child_total h K newChild uc Hnew Hok)
      as (uc' & Hstep & Hok').
    cbn [forEach_newChild]. rewrite Hstep. cbn [cbind]. by apply IH.
Qed.

Lemma In_tagged (l : list node) i c :
  In (i, c) (imap (fun i c => (i, c)) l) <-> l !! i = Some c.
Proof.
  rewrite <- list_elem_of_In, elem_of_lookup_imap. split.
  - intros (j & y & Heq & Hl). by injection Heq as -> ->.
  - intros Hl. by exists i, c.
Qed.

Lemma keyed_children_spec tagged k id :
  keyed_children tagged !! k = Some id ->
  exists c, In (id, c) tagged /\ is_element c = true.
Proof.
  unfold keyed_children.
  assert (Hgen : forall acc : gmap string nat,
    fold_left
      (fun m '(i, c) =>
         if is_element c && truthy_text (router_key c)
         then <[default "" (router_key c) := i]> m else m)
      tagged acc !! k = Some id ->
    acc !! k = Some id
    \/ exists c, In (id, c) tagged /\ is_element c = true).
  { induction tagged as [|[i c] tagged IH]; intros acc H; [by left|].
    cbn [fold_left] in H. apply IH in H as [H|(c' & Hin & Hel)].
    - destruct (is_element c) eqn:Hc; cbn [andb] in H; [|by left].
      destruct (truthy_text (router_key c)); [|by left].
      destruct (decide (default "" (router_key c) = k)) as [<-|Hne].
      + rewrite lookup_insert_eq in H. injection H as ->.
        right. exists c. split; [by left|done].
      + rewrite lookup_insert_ne in H by done. by left.
    - right. exists c'. split; [by right|done]. }
  intros H. apply Hgen in H as [H|H]; [|exact H].
  by rewrite lookup_empty in H.
Qed.

Lemma keyed_ok_initial (oldChildren : list node) :
  let tagged := imap (fun i c => (i, c)) oldChildren in
  keyed_ok (keyed_children tagged)
    {| uc_children := tagged; uc_detached := [];
       uc_next := length oldChildren; uc_oldIndex := 0; uc_acts := [] |}.
Proof.
  intros tagged k id Hk.
  apply keyed_children_spec in Hk as (c & Hin & Hel).
  unfold entries; cbn [uc_children uc_detached uc_next].
  rewrite app_nil_r. split; [|split].
  - apply In_tagged in Hin. by eapply lookup_lt_Some.
  - by exists c.
  - intros n Hn. apply In_tagged in Hin, Hn. congruence.
Qed.

Lemma updateChildren_total h oldChildren newChildren :
  Forall (patch_total h) newChildren ->
  exists res, updateChildren h (_patchNode h) oldChildren newChildren
              = Normal res.
Proof.
  intros Hall. unfold updateChildren.
  destruct (forEach_newChild_total h _ newChildren _ Hall
              (keyed_ok_initial oldChildren)) as [uc Huc].
  rewrite Huc. by eexists.
Qed.

(** Closes a case of [_patchNode] that returns without recursion. *)
Ltac patch_returns :=
  try match goal with
      | |- context [replacement ?h ?o ?n] => destruct (replacement h o n)
      end;
  eexists; split; [reflexivity|];
  first [discriminate | by intros ? [= <-]].

Lemma patchNode_total h newNode : patch_total h newNode.
Proof.
  induction newNode as [ntag nattrs nst nkids IH|ndata|ndata] using node_ind';
    intros oldNode Hkind;
    destruct oldNode as [otag oattrs ost okids|odata|odata];
    cbn [_patchNode];
    try (specialize (Hkind eq_refl); discriminate);
    try patch_returns.
  destruct (preserved _ || preserved _); [patch_returns|].
  match goal with |- context [if ?b then _ else _] => destruct b end;
    [patch_returns|].
  destruct (updateChildren_total h okids nkids IH) as [res Hres].
  rewrite Hres. cbn [cbind]. patch_returns.
Qed.

(** [_updateChildren] returns for every pair of child lists: it throws
    nothing and every node [keyedOld] refers to is found. *)
Lemma _updateChildren_total h oldChildren newChildren :
  exists kids acts,
    _updateChildren h oldChildren newChildren = Normal (kids, acts).
Proof.
  destruct (updateChildren_total h oldChildren newChildren) as [[kids acts] H].
  - apply Forall_forall. intros n _. apply patchNode_total.
  - by exists kids, acts.
Qed.

Lemma _patch_total h kids markup :
  exists kids' acts, _patch h kids markup = Normal (kids', acts).
Proof. apply _updateChildren_total. Qed.

(** ** The render surface *)

Lemma patch_surface_run h sel markup w sf kids acts :
  elements w !! sel = Some sf ->
  _patch h (sf_children sf) markup = Normal (kids, acts) ->
  patch_surface h sel markup w =
  (Normal tt,
   add_log (EvActivate <$> acts)
     (with_surface sel {| sf_children := kids; sf_loading := sf_loading sf |}
        (add_log [EvPatch markup] w))).
Proof.
  intros Hsf Hpatch. unfold patch_surface. rewrite bind_run. cbn [get].
  rewrite Hsf, bind_run, emit_run, Hpatch. reflexivity.
Qed.

Lemma runScripts_surface_run h sel w sf :
  elements w !! sel = Some sf ->
  runScripts_surface h sel w =
  (Normal tt,
   add_log (EvActivate <$> snd (_runScripts h (sf_children sf)))
     (with_surface sel
        {| sf_children := fst (_runScripts h (sf_children sf));
           sf_loading := sf_loading sf |} w)).
Proof.
  intros Hsf. unfold runScripts_surface. rewrite bind_run. cbn [get].
  rewrite Hsf. by destruct (_runScripts h (sf_children sf)).
Qed.

Lemma scroll_run o w : scroll o w = (Normal tt, add_log (scroll_events o) w).
Proof.
  unfold scroll, scroll_events. destruct (scrollTop o); [reflexivity|].
  by rewrite add_log_nil.
Qed.

Lemma history_write_run o st url w :
  history_write (replace o) st url w =
  (Normal tt, moved_to url (add_log [history_event o st url] w)).
Proof. reflexivity. Qed.

Lemma set_loading_run sel b w sf :
  elements w !! sel = Some sf ->
  set_loading sel b w =
  (Normal tt,
   with_surface sel {| sf_children := sf_children sf; sf_loading := b |} w).
Proof.
  intros Hsf. unfold set_loading. rewrite bind_run. cbn [get].
  by rewrite Hsf.
Qed.

(** Runs the sequencing of a computation whose steps are known. *)
Ltac run :=
  repeat first
    [ rewrite bind_run
    | rewrite emit_run
    | rewrite history_write_run
    | rewrite scroll_run
    | progress cbn [get ret modify throw set_title set_location
                    stateCache_set set_surface set_router]
    | progress cbv beta iota ].

Lemma events_since_add_log evs w : events_since w (add_log evs w) = evs.
Proof. unfold events_since, add_log; simpl. by rewrite drop_app_length. Qed.

(** ** Transport failure (C5) *)

Lemma fetch_page_fails h sel full fallback w err :
  transport_failure h full = Some err ->
  fetch_page h sel full fallback w = (Throw err, add_log [EvFetch full] w).
Proof.
  unfold transport_failure, fetch_page. intros Hfail. run.
  destruct (fetch h full) as [e|[] st body]; [|discriminate|];
    by injection Hfail as ->.
Qed.

Lemma navigate_failed_run href full err w :
  navigate_failed href full err w =
  (Normal tt,
   add_log (error_events 0 (length (hooks_onError (hooks (router w)))) err
              (InfoNavigate full)
            ++ [EvWarn "Router: fetch failed, falling back to full navigation";
                EvAssignLocation href]) w).
Proof.
  unfold navigate_failed. rewrite bind_run, callErrorHooks_run. run.
  rewrite !add_log_app. reflexivity.
Qed.

(** The loader stage of a page-backed route returns and leaves the page,
    the content cache and the hooks as they are. *)
Lemma load_data_run full m w :
  page_backed w full m ->
  exists d w' evs,
    load_data full m w = (Normal d, w')
    /\ log w' = log w ++ evs
    /\ (evs = [] \/ evs = [EvLoader (path (mr_route m))])
    /\ elements w' = elements w
    /\ stateCache w' = stateCache w
    /\ location_href w' = location_href w
    /\ document_title w' = document_title w
    /\ hooks (router w') = hooks (router w)
    /\ config (router w') = config (router w).
Proof.
  intros (_ & _ & Hload). unfold load_data. run.
  destruct (loader (options (mr_route m))) as [load|].
  - destruct (truthy (default VUndefined (loaderCache (router w) !! full)))
      eqn:Hcached; cbn [negb].
    + exists (default VUndefined (loaderCache (router w) !! full)), w, [].
      rewrite app_nil_r. tauto.
    + destruct Hload as [?|[d Hd]]; [discriminate|].
      run. rewrite Hd. unfold loaderCache_set. run.
      eexists d, _, [EvLoader (path (mr_route m))].
      split; [reflexivity|]. cbn. tauto.
  - exists (default VUndefined (loaderCache (router w) !! full)), w, [].
    rewrite app_nil_r. tauto.
Qed.

(** A page-backed route whose page is not cached and cannot be fetched:
    the pipeline throws the transport's error, and the [finally] has
    removed the loading mark. *)
Lemma route_pipeline_fetch_fails h sel full ctx o m w sf err :
  elements w !! sel = Some sf ->
  stateCache w !! full = None ->
  page_backed w full m ->
  transport_failure h full = Some err ->
  exists w' evs,
    try_finally (route_pipeline h sel full ctx o m) (set_loading sel false) w
    = (Throw err, w')
    /\ log w' = log w ++ evs ++ [EvFetch full]
    /\ (evs = [] \/ evs = [EvLoader (path (mr_route m))])
    /\ elements w'
       = <[sel := {| sf_children := sf_children sf; sf_loading := false |}]>
           (elements w)
    /\ stateCache w' = stateCache w
    /\ location_href w' = location_href w
    /\ hooks (router w') = hooks (router w).
Proof.
  intros Hsf Hmiss Hpage Hfail.
  destruct (load_data_run full m w Hpage)
    as (d & w1 & evs & Hrun & Hlog & Hevs & Hel & Hsc & Hloc & _ & Hhk & _).
  destruct Hpage as (Hrender & Htemplate & _).
  exists (with_surface sel
            {| sf_children := sf_children sf; sf_loading := false |}
            (add_log [EvFetch full] w1)), evs.
  split.
  - unfold try_finally, route_pipeline. rewrite bind_run, Hrun. run.
    unfold render_content. rewrite Hrender, Htemplate.
    unfold fetch_underlying. run. rewrite Hsc, Hmiss. run.
    rewrite (fetch_page_fails _ _ _ _ _ _ Hfail).
    erewrite set_loading_run
      by (cbn [elements add_log]; rewrite Hel; exact Hsf).
    reflexivity.
  - cbn [log elements stateCache location_href router with_surface add_log].
    rewrite Hlog, Hel, <- app_assoc. tauto.
Qed.

Lemma events_since_app w w' evs :
  log w' = log w ++ evs -> events_since w w' = evs.
Proof. unfold events_since. intros ->. by rewrite drop_app_length. Qed.

Lemma filter_before_events (p : Event -> bool) i n ctx :
  (forall j, p (EvBeforeEach j ctx) = false) ->
  List.filter p (before_events i n ctx) = [].
Proof.
  intros Hp. unfold before_events.
  induction (seq i n) as [|j l IH]; [reflexivity|].
  cbn. by rewrite Hp.
Qed.

Lemma filter_error_events (p : Event -> bool) i n err info :
  (forall j, p (EvOnError j err info) = true) ->
  List.filter p (error_events i n err info) = error_events i n err info.
Proof.
  intros Hp. unfold error_events.
  induction (seq i n) as [|j l IH]; [reflexivity|].
  cbn. by rewrite Hp, IH.
Qed.

Lemma filter_error_events_none (p : Event -> bool) i n err info :
  (forall j, p (EvOnError j err info) = false) ->
  List.filter p (error_events i n err info) = [].
Proof.
  intros Hp. unfold error_events.
  induction (seq i n) as [|j l IH]; [reflexivity|].
  cbn. by rewrite Hp.
Qed.

(** The outcome of a navigation whose transport fails, in both places where
    [navigate] uses the transport. *)
Lemma navigate_transport_failure h fuel href o w full ctx sf err :
  URL_href h href (location_href w) = Some full ->
  full <> location_href w ->
  elements w !! container (config (router w)) = Some sf ->
  _buildCtx h full = Normal ctx ->
  Forall (fun fn => proceeds (fn ctx) = true)
         (hooks_beforeEach (hooks (router w))) ->
  uses_page h w full ->
  stateCache w !! full = None ->
  transport_failure h full = Some err ->
  exists w' evs,
    navigate h (S fuel) href o w = (Normal tt, w')
    /\ log w' = log w
         ++ before_events 0 (length (hooks_beforeEach (hooks (router w)))) ctx
         ++ evs ++ EvFetch full
         :: error_events 0 (length (hooks_onError (hooks (router w)))) err
              (InfoNavigate full)
         ++ [EvWarn "Router: fetch failed, falling back to full navigation";
             EvAssignLocation href]
    /\ (evs = [] \/ exists p, evs = [EvLoader p])
    /\ location_href w' = location_href w
    /\ stateCache w' = stateCache w
    /\ sf_children <$> elements w' !! container (config (router w))
       = Some (sf_children sf).
Proof.
  intros Hfull Hne Hsf Hctx Hall Huses Hmiss Hfail.
  rewrite (navigate_start h fuel href o w full ctx Hfull Hne
             (ex_intro _ sf Hsf) Hctx).
  rewrite bind_run, (runBeforeHooks_proceed ctx w Hall).
  cbn [after_hooks]. unfold try_catch, navigate_render. run.
  set (sel := container (config (router w))) in *.
  set (w1 := add_log _ w).
  change (router w1) with (router w).
  unfold uses_page in Huses.
  destruct (_matchRoute h (router w) full) as [m|] eqn:Hm.
  - (* a page-backed route *)
    run. rewrite (set_loading_run sel true w1 sf Hsf).
    set (sf1 := {| sf_children := sf_children sf; sf_loading := true |}).
    destruct (route_pipeline_fetch_fails h sel full ctx o m
                (with_surface sel sf1 w1) sf1 err)
      as (w3 & evs & Hrun & Hlog & Hevs & Hel & Hsc & Hloc & Hhk);
      [apply lookup_insert_eq|exact Hmiss|exact Huses|exact Hfail|].
    rewrite Hrun, navigate_failed_run.
    eexists _, evs. split; [reflexivity|].
    cbn [log elements stateCache location_href add_log].
    rewrite Hhk, Hlog, Hel, Hsc, Hloc. cbn [log hooks router with_surface
      add_log elements stateCache location_href w1].
    rewrite lookup_insert_eq, <- !app_assoc. cbn [app sf_children fmap
      option_fmap option_map].
    split; [reflexivity|]. split; [|done].
    destruct Hevs as [->| ->]; eauto.
  - (* no route *)
    unfold fetch_fallback. run. change (stateCache w1) with (stateCache w).
    rewrite Hmiss. run.
    rewrite (fetch_page_fails _ _ _ _ _ _ Hfail), navigate_failed_run.
    eexists _, []. split; [reflexivity|].
    cbn [log elements stateCache location_href router hooks add_log w1].
    rewrite Hsf, <- !app_assoc. cbn [app]. auto.
Qed.

(** C5: a navigation whose transport fails (the request is rejected or the
    response is not a success) ends normally; every registered [onError]
    hook was called exactly once, in registration order, with the
    transport's error, whether or not some of these hooks throw; the last
    thing [navigate] did is the full navigation [window.location.href =
    href] to the target it was called with; and the page is not taken over:
    no patch, no script activation, no history entry, same location, same
    child nodes of the container. *)
Theorem transport_failure_calls_onError_once_and_falls_back
    (h : Host) (fuel : nat) (href : string) (o : NavOptions) (w : World)
    (full : string) (ctx : Ctx) (sf : Surface) (err : JSError) :
  URL_href h href (location_href w) = Some full ->
  full <> location_href w ->
  elements w !! container (config (router w)) = Some sf ->
  _buildCtx h full = Normal ctx ->
  Forall (fun fn => proceeds (fn ctx) = true)
         (hooks_beforeEach (hooks (router w))) ->
  uses_page h w full ->
  stateCache w !! full = None ->
  transport_failure h full = Some err ->
  exists w',
    navigate h (S fuel) href o w = (Normal tt, w')
    /\ List.filter is_onError (events_since w w')
       = error_events 0 (length (hooks_onError (hooks (router w)))) err
           (InfoNavigate full)
    /\ last (log w') = Some (EvAssignLocation href)
    /\ List.filter is_mutation (events_since w w') = []
    /\ location_href w' = location_href w
    /\ sf_children <$> elements w' !! container (config (router w))
       = Some (sf_children sf).
Proof.
  intros Hfull Hne Hsf Hctx Hall Huses Hmiss Hfail.
  destruct (navigate_transport_failure h fuel href o w full ctx sf err)
    as (w' & evs & Hrun & Hlog & Hevs & Hloc & _ & Hkids); try assumption.
  exists w'. split; [exact Hrun|].
  rewrite (events_since_app _ _ _ Hlog), Hlog.
  assert (Hevs1 : List.filter is_onError evs = []
                  /\ List.filter is_mutation evs = [])
    by (destruct Hevs as [->|[p ->]]; by split).
  destruct Hevs1 as [He1 He2].
  repeat split.
  - rewrite !List.filter_app, filter_before_events, He1 by done.
    cbn [List.filter is_onError app].
    rewrite List.filter_app, filter_error_events by done.
    cbn. by rewrite app_nil_r.
  - rewrite !app_assoc.
    change [EvWarn "Router: fetch failed, falling back to full navigation";
            EvAssignLocation href]
      with ([EvWarn "Router: fetch failed, falling back to full navigation"]
            ++ [EvAssignLocation href]).
    rewrite !app_comm_cons, !app_assoc. apply last_snoc.
  - rewrite !List.filter_app, filter_before_events, He2 by done.
    cbn [List.filter is_mutation app].
    rewrite List.filter_app, filter_error_events_none by done.
    reflexivity.
  - exact Hloc.
  - exact Hkids.
Qed.

Lemma transport_failure_calls_onError_once_and_falls_back_witness :
  exists w',
    navigate offline 1 "/about" nav_defaults (home reporting) = (Normal tt, w')
    /\ List.filter is_onError (events_since (home reporting) w')
       = error_events 0 2 (TypeError "Failed to fetch")
           (InfoNavigate "http://example.com/about")
    /\ last (log w') = Some (EvAssignLocation "/about")
    /\ List.filter is_mutation (events_since (home reporting) w') = []
    /\ location_href w' = "http://example.com/"
    /\ sf_children <$> elements w' !! "#app" = Some [].
Proof.
  apply (transport_failure_calls_onError_once_and_falls_back offline 0
           "/about" nav_defaults (home reporting) "http://example.com/about"
           ctx_about {| sf_children := []; sf_loading := false |}
           (TypeError "Failed to fetch")).
  - reflexivity.
  - discriminate.
  - reflexivity.
  - reflexivity.
  - constructor.
  - exact I.
  - reflexivity.
  - reflexivity.
Defined.

(** ** The content cache (C10) *)

Lemma runAfterHooks_from_run fns : forall i to w,
  exists evs,
    runAfterHooks_from i fns to w = (Normal tt, add_log evs w)
    /\ List.filter is_fetch evs = [].
Proof.
  induction fns as [|fn rest IH]; intros i to w.
  - exists []. by rewrite add_log_nil.
  - cbn [runAfterHooks_from]. run.
    destruct (fn to) as [[]|err].
    + run. destruct (IH (S i) to (add_log [EvAfterEach i to] w))
        as (evs & -> & Hevs).
      exists (EvAfterEach i to :: evs). by rewrite add_log_app.
    + rewrite callErrorHooks_run. run.
      set (errs := error_events _ _ _ _).
      destruct (IH (S i) to (add_log errs (add_log [EvAfterEach i to] w)))
        as (evs & -> & Hevs).
      exists (EvAfterEach i to :: errs ++ evs).
      rewrite !add_log_app. split; [reflexivity|].
      cbn [List.filter is_fetch]. rewrite List.filter_app, Hevs.
      subst errs. by rewrite filter_error_events_none.
Qed.

Lemma runAfterHooks_run to w :
  exists evs,
    _runAfterHooks to w = (Normal tt, add_log evs w)
    /\ List.filter is_fetch evs = [].
Proof. unfold _runAfterHooks. run. apply runAfterHooks_from_run. Qed.

Lemma finish_route_run h sel full ctx o w sf :
  elements w !! sel = Some sf ->
  exists w' evs sf',
    finish_route h sel full ctx o w = (Normal tt, w')
    /\ log w' = log w ++ evs
    /\ List.filter is_fetch evs = []
    /\ stateCache w' = stateCache w
    /\ location_href w' = full
    /\ elements w' = <[sel := sf']> (elements w).
Proof.
  intros Hsf. unfold finish_route. run.
  rewrite (runScripts_surface_run _ _ _ _ Hsf). run.
  unfold container_innerHTML. run.
  cbn [elements add_log with_surface]. rewrite lookup_insert_eq. run.
  match goal with
  | |- context [_runAfterHooks ctx ?w0] =>
      destruct (runAfterHooks_run ctx w0) as (evs & -> & Hevs)
  end.
  eexists _, _, _. split; [reflexivity|].
  cbn [log stateCache location_href elements add_log moved_to with_surface].
  rewrite <- !app_assoc. split; [reflexivity|]. split; [|done].
  rewrite !List.filter_app, Hevs.
  set (acts := snd (_runScripts h (sf_children sf))).
  assert (Hacts : List.filter is_fetch (EvActivate <$> acts) = [])
    by (induction acts; [reflexivity|assumption]).
  rewrite Hacts. cbn. unfold history_event, scroll_events.
  by destruct (replace o), (scrollTop o).
Qed.

Lemma filter_fetch_activations acts :
  List.filter is_fetch (EvActivate <$> acts) = [].
Proof. induction acts; [reflexivity|assumption]. Qed.

Lemma fetch_page_ok h sel full fallback w st body :
  fetch h full = Reply true st body ->
  fetch_page h sel full fallback w =
  (Normal {| html := default (doc_body (parseDocument h body))
                       (doc_querySelector (parseDocument h body) sel);
             title := or_else (default "" (doc_title (parseDocument h body)))
                              fallback |},
   add_log [EvFetch full] w).
Proof. intros Hok. unfold fetch_page. run. by rewrite Hok. Qed.

(** No route matches: the page is taken from the content cache when it is
    there, whatever [config.cache] says, and fetched otherwise; a fetched
    page is stored only when [config.cache] is set. *)
Lemma fetch_fallback_run h full o w sf entry :
  let sel := container (config (router w)) in
  elements w !! sel = Some sf ->
  page_for h w full = Some entry ->
  exists w' evs,
    fetch_fallback h sel full o w = (Normal tt, w')
    /\ log w' = log w ++ page_requests w full ++ EvPatch (html entry) :: evs
    /\ List.filter is_fetch evs = []
    /\ stateCache w' = cache_after w full entry
    /\ location_href w' = full.
Proof.
  intros sel Hsf Hpage. unfold page_for, page_requests, cache_after in *.
  unfold fetch_fallback. run.
  destruct (stateCache w !! full) as [cached|] eqn:Hc.
  - injection Hpage as ->. run.
    destruct (_patch_total h (sf_children sf) (html entry))
      as (kids & acts & Hpatch).
    rewrite (patch_surface_run _ _ _ _ _ _ _ Hsf Hpatch). run.
    erewrite runScripts_surface_run
      by (cbn [elements add_log with_surface]; apply lookup_insert_eq).
    run. eexists _, _. split; [reflexivity|].
    cbn [log stateCache location_href add_log with_surface with_title
         moved_to app].
    rewrite <- !app_assoc. split; [reflexivity|]. split; [|done].
    rewrite !List.filter_app, !filter_fetch_activations.
    cbn. unfold history_event, scroll_events.
    by destruct (replace o), (scrollTop o).
  - destruct (fetch h full) as [e|[] st body] eqn:Hf; try discriminate.
    injection Hpage as <-. run.
    rewrite (fetch_page_ok _ _ _ _ _ _ _ Hf). run.
    set (entry := {| html := _; title := _ |}).
    set (w1 := add_log [EvFetch full] w).
    assert (Hstore : exists w2,
      (if cache (config (router w)) then stateCache_set full entry
       else ret tt) w1 = (Normal tt, w2)
      /\ log w2 = log w1 /\ elements w2 = elements w
      /\ stateCache w2
         = (if cache (config (router w)) then <[full := entry]> (stateCache w)
            else stateCache w)).
    { destruct (cache (config (router w))); eexists; eauto. }
    destruct Hstore as (w2 & -> & Hlog2 & Hel2 & Hsc2). run.
    destruct (_patch_total h (sf_children sf) (html entry))
      as (kids & acts & Hpatch).
    assert (Hsf2 : elements w2 !! sel = Some sf) by (by rewrite Hel2).
    rewrite (patch_surface_run _ _ _ _ _ _ _ Hsf2 Hpatch). run.
    erewrite runScripts_surface_run
      by (cbn [elements add_log with_surface]; apply lookup_insert_eq).
    run. eexists _, _. split; [reflexivity|].
    cbn [log stateCache location_href add_log with_surface with_title
         moved_to app].
    rewrite Hlog2, Hsc2. cbn [log add_log w1].
    rewrite <- !app_assoc. split; [reflexivity|]. split; [|done].
    rewrite !List.filter_app, !filter_fetch_activations.
    cbn. unfold history_event, scroll_events.
    by destruct (replace o), (scrollTop o).
Qed.

(** The same choice inside the route pipeline. *)
Lemma fetch_underlying_run h full w sf entry :
  let sel := container (config (router w)) in
  elements w !! sel = Some sf ->
  page_for h w full = Some entry ->
  exists w' evs sf',
    fetch_underlying h sel full w = (Normal tt, w')
    /\ log w' = log w ++ page_requests w full ++ EvPatch (html entry) :: evs
    /\ List.filter is_fetch evs = []
    /\ stateCache w' = cache_after w full entry
    /\ location_href w' = location_href w
    /\ elements w' = <[sel := sf']> (elements w)
    /\ router w' = router w.
Proof.
  intros sel Hsf Hpage. unfold page_for, page_requests, cache_after in *.
  unfold fetch_underlying. run.
  destruct (stateCache w !! full) as [cached|] eqn:Hc.
  - injection Hpage as ->. run.
    destruct (_patch_total h (sf_children sf) (html entry))
      as (kids & acts & Hpatch).
    rewrite (patch_surface_run _ _ _ _ _ _ _ Hsf Hpatch). run.
    eexists _, _, _. split; [reflexivity|].
    cbn [log stateCache location_href elements router add_log with_surface
         with_title app].
    rewrite <- !app_assoc. split; [reflexivity|].
    split; [apply filter_fetch_activations|done].
  - destruct (fetch h full) as [e|[] st body] eqn:Hf; try discriminate.
    injection Hpage as <-. run.
    rewrite (fetch_page_ok _ _ _ _ _ _ _ Hf). run.
    set (entry := {| html := _; title := _ |}).
    set (w1 := add_log [EvFetch full] w).
    assert (Hstore : exists w2,
      (if cache (config (router w)) then stateCache_set full entry
       else ret tt) w1 = (Normal tt, w2)
      /\ log w2 = log w1 /\ elements w2 = elements w
      /\ location_href w2 = location_href w /\ router w2 = router w
      /\ stateCache w2
         = (if cache (config (router w)) then <[full := entry]> (stateCache w)
            else stateCache w)).
    { destruct (cache (config (router w))); eexists; repeat split; eauto. }
    destruct Hstore as (w2 & -> & Hlog2 & Hel2 & Hloc2 & Hr2 & Hsc2). run.
    destruct (_patch_total h (sf_children sf) (html entry))
      as (kids & acts & Hpatch).
    assert (Hsf2 : elements w2 !! sel = Some sf) by (by rewrite Hel2).
    rewrite (patch_surface_run _ _ _ _ _ _ _ Hsf2 Hpatch). run.
    eexists _, _, _. split; [reflexivity|].
    cbn [log stateCache location_href elements router add_log with_surface
         with_title app].
    rewrite Hlog2, Hsc2, Hel2, Hloc2, Hr2. cbn [log add_log w1].
    rewrite <- !app_assoc. split; [reflexivity|].
    split; [apply filter_fetch_activations|done].
Qed.

Lemma filter_fetch_loader evs p :
  evs = [] \/ evs = [EvLoader p] -> List.filter is_fetch evs = [].
Proof. by intros [->| ->]. Qed.

Lemma route_pipeline_run h full ctx o m w sf entry :
  let sel := container (config (router w)) in
  elements w !! sel = Some sf ->
  page_backed w full m ->
  page_for h w full = Some entry ->
  exists w' evs,
    try_finally (route_pipeline h sel full ctx o m) (set_loading sel false) w
    = (Normal tt, w')
    /\ log w' = log w ++ evs
    /\ List.filter is_fetch evs = page_requests w full
    /\ In (EvPatch (html entry)) evs
    /\ stateCache w' = cache_after w full entry
    /\ location_href w' = full.
Proof.
  intros sel Hsf Hbacked Hpage.
  destruct (load_data_run full m w Hbacked)
    as (d & w1 & evs0 & Hrun & Hlog1 & Hevs0 & Hel1 & Hsc1 & Hloc1 & Ht1
        & Hhk1 & Hcfg1).
  destruct Hbacked as (Hrender & Htemplate & _).
  assert (Hpage1 : page_for h w1 full = Some entry)
    by (unfold page_for in *; by rewrite Hsc1, Hcfg1, Ht1).
  assert (Hsf1 : elements w1 !! container (config (router w1)) = Some sf)
    by (by rewrite Hcfg1, Hel1).
  destruct (fetch_underlying_run h full w1 sf entry Hsf1 Hpage1)
    as (w2 & evs1 & sf2 & Hrun2 & Hlog2 & Hevs1 & Hsc2 & Hloc2 & Hel2 & Hr2).
  rewrite Hcfg1 in Hrun2, Hel2. fold sel in Hrun2, Hel2.
  assert (Hsf2 : elements w2 !! sel = Some sf2)
    by (rewrite Hel2; apply lookup_insert_eq).
  destruct (finish_route_run h sel full ctx o w2 sf2 Hsf2)
    as (w3 & evs2 & sf3 & Hrun3 & Hlog3 & Hevs2 & Hsc3 & Hloc3 & Hel3).
  eexists _, (evs0 ++ page_requests w full ++ EvPatch (html entry)
              :: evs1 ++ evs2).
  split.
  - unfold try_finally, route_pipeline. rewrite bind_run, Hrun. run.
    unfold render_content. rewrite Hrender, Htemplate, Hrun2. run.
    rewrite Hrun3.
    erewrite set_loading_run by (rewrite Hel3; apply lookup_insert_eq).
    reflexivity.
  - cbn [log stateCache location_href with_surface].
    rewrite Hlog3, Hlog2, Hlog1, Hsc3, Hsc2, Hloc3.
    assert (Hreq : page_requests w1 full = page_requests w full)
      by (unfold page_requests; by rewrite Hsc1).
    assert (Hafter : cache_after w1 full entry = cache_after w full entry)
      by (unfold cache_after; by rewrite Hsc1, Hcfg1).
    rewrite Hreq, Hafter, <- !app_assoc. split; [reflexivity|].
    split; [|split; [|done]].
    + rewrite !List.filter_app, (filter_fetch_loader _ _ Hevs0).
      cbn [List.filter is_fetch]. rewrite List.filter_app, Hevs1, Hevs2.
      unfold page_requests. destruct (stateCache w !! full); reflexivity.
    + apply in_or_app. right. apply in_or_app. right. by left.
Qed.

(** A navigation to a target whose content comes from the underlying
    page. *)
Lemma navigate_shows_page h fuel href o w full ctx sf entry :
  URL_href h href (location_href w) = Some full ->
  full <> location_href w ->
  elements w !! container (config (router w)) = Some sf ->
  _buildCtx h full = Normal ctx ->
  Forall (fun fn => proceeds (fn ctx) = true)
         (hooks_beforeEach (hooks (router w))) ->
  uses_page h w full ->
  page_for h w full = Some entry ->
  exists w',
    navigate h (S fuel) href o w = (Normal tt, w')
    /\ List.filter is_fetch (events_since w w') = page_requests w full
    /\ In (EvPatch (html entry)) (events_since w w')
    /\ stateCache w' = cache_after w full entry
    /\ location_href w' = full.
Proof.
  intros Hfull Hne Hsf Hctx Hall Huses Hpage.
  rewrite (navigate_start h fuel href o w full ctx Hfull Hne
             (ex_intro _ sf Hsf) Hctx).
  rewrite bind_run, (runBeforeHooks_proceed ctx w Hall).
  cbn [after_hooks]. unfold try_catch, navigate_render. run.
  set (before := before_events _ _ _).
  set (w1 := add_log before w).
  assert (Hbefore : List.filter is_fetch before = [])
    by (by apply filter_before_events).
  change (router w1) with (router w).
  unfold uses_page in Huses.
  destruct (_matchRoute h (router w) full) as [m|] eqn:Hm.
  - run. rewrite (set_loading_run _ true w1 sf Hsf).
    set (sf1 := {| sf_children := sf_children sf; sf_loading := true |}).
    set (w2 := with_surface _ sf1 w1).
    destruct (route_pipeline_run h full ctx o m w2 sf1 entry)
      as (w3 & evs & Hrun & Hlog & Hevs & Hin & Hsc & Hloc);
      [apply lookup_insert_eq|exact Huses|exact Hpage|].
    change (container (config (router w2)))
      with (container (config (router w))) in Hrun.
    rewrite Hrun. exists w3. split; [reflexivity|].
    erewrite events_since_app
      by (rewrite Hlog; cbn [log w2 w1 with_surface add_log];
          by rewrite <- app_assoc).
    rewrite List.filter_app, Hbefore, Hevs.
    repeat split; [|exact Hsc|exact Hloc].
    apply in_or_app. by right.
  - destruct (fetch_fallback_run h full o w1 sf entry Hsf Hpage)
      as (w3 & evs & Hrun & Hlog & Hevs & Hsc & Hloc).
    change (container (config (router w1)))
      with (container (config (router w))) in Hrun.
    rewrite Hrun. exists w3. split; [reflexivity|].
    erewrite events_since_app
      by (rewrite Hlog; cbn [log w1 add_log]; by rewrite <- app_assoc).
    change (page_requests w1 full) with (page_requests w full).
    rewrite !List.filter_app, Hbefore. cbn [List.filter is_fetch app].
    rewrite Hevs, app_nil_r.
    repeat split; [| |exact Hsc|exact Hloc].
    + unfold page_requests. destruct (stateCache w !! full); reflexivity.
    + apply in_or_app. right. apply in_or_app. right. by left.
Qed.

(** [init] stores the current content under the current location without
    looking at [config.cache]. *)
Lemma init_run h opts w :
  let cfg := merge_config (config (router w)) opts in
  exists w',
    init h opts w = (Normal tt, w')
    /\ stateCache w'
       = <[location_href w := {| html := initial_markup h cfg w;
                                 title := document_title w |}]> (stateCache w)
    /\ config (router w') = cfg.
Proof.
  intros cfg. unfold init. run. fold cfg.
  unfold addEventListener. run.
  destruct (prefetchOnHover cfg); run; eexists; split; try reflexivity; done.
Qed.

(** The prefetch listener stores the page it fetched without looking at
    [config.cache]. *)
Lemma hoverHandler_prefetch h e w full st body :
  prefetches_page h e w full ->
  fetch h full = Reply true st body ->
  hoverHandler h e w =
  (Normal tt,
   with_cached full
     {| html := default (doc_body (parseDocument h body))
                  (doc_querySelector (parseDocument h body)
                     (container (config (router w))));
        title := default "" (doc_title (parseDocument h body)) |}
     (add_log [EvFetch full] w)).
Proof.
  intros (attrs & href & Hel & Hon & Hhref & Hfull & Hsc & Hlc & Hroute) Hok.
  unfold hoverHandler. run. rewrite Hel.
  assert (Hgate : negb (prefetchOnHover (config (router w)))
                  && negb (hasAttribute "data-prefetch" attrs) = false)
    by (destruct Hon as [-> | ->]; [reflexivity|apply andb_false_r]).
  rewrite Hgate, Hhref, Hfull, Hsc, Hlc.
  rewrite !bool_decide_eq_false_2 by (by intros [? ?]).
  cbn [orb].
  destruct (_matchRoute h (router w) full) as [m|].
  - rewrite Hroute. run. by rewrite Hok.
  - run. by rewrite Hok.
Qed.

(** C10: with the rendered-content cache disabled ([config.cache] is
    [false]), a navigation that takes its content from the underlying page
    (no route matches, or the route has neither renderer nor template)
    still reads the content cache: an entry stored for the target is
    patched in and no request is sent, and the cache is left as it is;
    without an entry the page is fetched and the cache is also left as it
    is, since the flag only guards the write.  [init] and the prefetch
    listener do not look at the flag: after [init] there is an entry for
    the current location, and after a hover that fetches a page there is an
    entry for that page. *)
Theorem disabled_cache_is_still_read
    (h : Host) (fuel : nat) (href : string) (o : NavOptions) (w : World)
    (full : string) (ctx : Ctx) (sf : Surface) :
  URL_href h href (location_href w) = Some full ->
  full <> location_href w ->
  elements w !! container (config (router w)) = Some sf ->
  _buildCtx h full = Normal ctx ->
  Forall (fun fn => proceeds (fn ctx) = true)
         (hooks_beforeEach (hooks (router w))) ->
  uses_page h w full ->
  cache (config (router w)) = false ->
  (forall entry, stateCache w !! full = Some entry ->
     exists w',
       navigate h (S fuel) href o w = (Normal tt, w')
       /\ List.filter is_fetch (events_since w w') = []
       /\ In (EvPatch (html entry)) (events_since w w')
       /\ stateCache w' = stateCache w)
  /\ (forall entry, stateCache w !! full = None ->
        page_for h w full = Some entry ->
        exists w',
          navigate h (S fuel) href o w = (Normal tt, w')
          /\ List.filter is_fetch (events_since w w') = [EvFetch full]
          /\ In (EvPatch (html entry)) (events_since w w')
          /\ stateCache w' = stateCache w)
  /\ (forall opts w0, exists w1,
        init h opts w0 = (Normal tt, w1)
        /\ is_Some (stateCache w1 !! location_href w0))
  /\ (forall e w0 url st body,
        prefetches_page h e w0 url ->
        fetch h url = Reply true st body ->
        exists w1,
          hoverHandler h e w0 = (Normal tt, w1)
          /\ is_Some (stateCache w1 !! url)).
Proof.
  intros Hfull Hne Hsf Hctx Hall Huses Hoff.
  split; [|split; [|split]].
  - intros entry Hhit.
    destruct (navigate_shows_page h fuel href o w full ctx sf entry)
      as (w' & Hrun & Hfetch & Hpatch & Hsc & _); try assumption.
    { unfold page_for. by rewrite Hhit. }
    exists w'. unfold page_requests, cache_after in *.
    rewrite Hhit in Hfetch, Hsc. auto.
  - intros entry Hmiss Hpage.
    destruct (navigate_shows_page h fuel href o w full ctx sf entry)
      as (w' & Hrun & Hfetch & Hpatch & Hsc & _); try assumption.
    exists w'. unfold page_requests, cache_after in *.
    rewrite Hmiss in Hfetch, Hsc. rewrite Hoff in Hsc. auto.
  - intros opts w0. destruct (init_run h opts w0) as (w1 & Hrun & Hsc & _).
    exists w1. split; [exact Hrun|]. rewrite Hsc, lookup_insert_eq. by eexists.
  - intros e w0 url st body Hpre Hok. eexists. split.
    + by eapply hoverHandler_prefetch.
    + cbn [stateCache with_cached]. rewrite lookup_insert_eq. by eexists.
Qed.

Lemma disabled_cache_is_still_read_witness :
  cache (config (router hovered)) = false
  /\ exists w',
       navigate online 1 "/about" nav_defaults hovered = (Normal tt, w')
       /\ List.filter is_fetch (events_since hovered w') = []
       /\ In (EvPatch "<p>About</p>") (events_since hovered w')
       /\ stateCache w' = stateCache hovered.
Proof.
  split; [reflexivity|].
  assert (Hne : "http://example.com/about" <> location_href hovered)
    by (intros H; vm_compute in H; discriminate H).
  assert (Hsf : elements hovered !! container (config (router hovered))
                = Some {| sf_children := []; sf_loading := false |})
    by (vm_compute; reflexivity).
  destruct (disabled_cache_is_still_read online 0 "/about" nav_defaults
              hovered "http://example.com/about" ctx_about
              {| sf_children := []; sf_loading := false |}
              eq_refl Hne Hsf eq_refl (List.Forall_nil _) I eq_refl)
    as [Hhit _].
  exact (Hhit {| html := "<p>About</p>"; title := "" |} eq_refl).
Defined.

(** ** The first route that matches *)

Lemma match_routes_first h pre r post pathname search m :
  Forall (fun r' => String_match pathname (regex r') = None) pre ->
  String_match pathname (regex r) = Some m ->
  match_routes h (pre ++ r :: post) pathname search =
  (params ← collect_params 0 (keys r) m ∅;
   Some {| mr_route := r; mr_params := params;
           mr_query := _parseQuery h search; mr_pathname := pathname |}).
Proof.
  intros Hpre Hm. induction Hpre as [|r' pre Hr' _ IH]; cbn [app match_routes].
  - by rewrite Hm.
  - by rewrite Hr'.
Qed.

(** ** Compiling route patterns (C1) *)

(** C1 (the code departs from the claim): the first replacement of
    [_pathToRegex] puts a backslash before every colon, so the capture
    written for [:id] follows a backslash, its opening parenthesis is read
    as a literal and the closing one is unmatched: [route("/user/:id")]
    throws a [SyntaxError] and the pattern is never registered.  The star
    of a wildcard is not escaped by the first replacement, so the second
    one, which looks for an escaped star, leaves it alone: [/files/*]
    compiles to an expression without capture in which the star repeats the
    slash; it matches [/files//] and does not match [/files/a/b].  With the
    expressions the comments describe the same paths would match and yield
    the substituted tokens. *)
Theorem route_patterns_do_not_round_trip :
  regex_source "/user/:id" = ("^/user/\([^/]+)$", ["id"])
  /\ route "/user/:id" no_options Router0
     = Throw (SyntaxError "Unmatched ')'")
  /\ String_match "/user/42" (compiled "^/user/([^/]+)$")
     = Some [Some "/user/42"; Some "42"]
  /\ regex_source "/files/*" = ("^/files/*$", [])
  /\ (exists R,
        route "/files/*" no_options Router0 = Normal R
        /\ _matchRoute online R "http://example.com/files/a/b" = None
        /\ is_Some (_matchRoute online R "http://example.com/files//"))
  /\ String_match "/files/a/b" (compiled "^/files/(.*)$")
     = Some [Some "/files/a/b"; Some "a/b"].
Proof.
  repeat split; try (vm_compute; reflexivity).
  eexists. split; [vm_compute; reflexivity|].
  split; [vm_compute; reflexivity|]. vm_compute. by eexists.
Qed.

(** *** Every pattern with a leading literal segment and a parameter *)

Lemma plain_not_special c : plain_char c = true -> special c = false.
Proof.
  destruct c as [[] [] [] [] [] [] [] []]; vm_compute; congruence.
Qed.

Lemma key_char_plain c : key_char c = true -> plain_char c = true.
Proof. unfold plain_char. by intros ->. Qed.

Lemma escape_specials_plain p s :
  Forall (fun c => plain_char c = true) p ->
  escape_specials (p ++ s) = p ++ escape_specials s.
Proof.
  intros Hp. induction Hp as [|c p Hc _ IH]; [reflexivity|].
  unfold escape_specials in *. cbn [app flat_map].
  by rewrite (plain_not_special c Hc), IH.
Qed.

Lemma replace_escaped_star_plain p s :
  Forall (fun c => plain_char c = true) p ->
  replace_escaped_star (p ++ s) = p ++ replace_escaped_star s.
Proof.
  intros Hp. induction Hp as [|c p Hc _ IH]; [reflexivity|].
  cbn [app]. rewrite <- IH.
  destruct c as [[] [] [] [] [] [] [] []]; try discriminate Hc; reflexivity.
Qed.

Lemma replace_params_plain p s :
  Forall (fun c => plain_char c = true) p ->
  replace_params 0 (p ++ s)
  = (p ++ fst (replace_params 0 s), snd (replace_params 0 s)).
Proof.
  intros Hp. induction Hp as [|c p Hc _ IH].
  - cbn [app]. by destruct (replace_params 0 s).
  - cbn [app replace_params].
    assert (Hcolon : Ascii.eqb c ":" = false)
      by (destruct c as [[] [] [] [] [] [] [] []];
          try discriminate Hc; reflexivity).
    rewrite Hcolon, IH. reflexivity.
Qed.

(** The source of a pattern that starts with plain characters followed by
    a colon and a name character: the capture follows a backslash. *)
Lemma regex_source_parameter p c rest :
  Forall (fun c => plain_char c = true) p ->
  key_char c = true ->
  exists tail keys,
    regex_source (text (p ++ ":"%char :: c :: rest))
    = (text ("^"%char :: p ++ chars "\([^/]+)" ++ tail), keys)
    /\ keys <> [].
Proof.
  intros Hp Hc. unfold regex_source, chars, text.
  rewrite list_ascii_of_string_of_list_ascii.
  assert (Hc1 : Forall (fun c => plain_char c = true) [c])
    by (constructor; [by apply key_char_plain|constructor]).
  rewrite (escape_specials_plain p _ Hp).
  change (escape_specials (":"%char :: c :: rest))
    with ("\"%char :: ":"%char :: escape_specials ([c] ++ rest)).
  rewrite (escape_specials_plain [c] rest Hc1).
  rewrite (replace_escaped_star_plain p _ Hp).
  change (replace_escaped_star
            ("\"%char :: ":"%char :: [c] ++ escape_specials rest))
    with ("\"%char :: ":"%char
          :: replace_escaped_star ([c] ++ escape_specials rest)).
  rewrite (replace_escaped_star_plain [c] _ Hc1).
  rewrite (replace_params_plain p _ Hp).
  set (Y := replace_escaped_star (escape_specials rest)).
  cbn [app replace_params Ascii.eqb Bool.eqb andb take_while].
  rewrite Hc. cbn [length Nat.eqb negb].
  destruct (replace_params _ _) as [out keys]. cbn [fst snd].
  exists (out ++ ["$"%char]), (text (c :: take_while key_char Y) :: keys).
  split; [|discriminate].
  rewrite <- !app_assoc. reflexivity.
Qed.

Lemma parse_quantifier_none atom c s :
  plain_char c = true \/ c = "\"%char ->
  parse_quantifier atom (c :: s) = Normal (atom, c :: s).
Proof.
  intros [Hc| ->]; [|reflexivity].
  destruct c as [[] [] [] [] [] [] [] []]; try discriminate Hc; reflexivity.
Qed.

Lemma parse_plain_char fuel c c' s n cur alts :
  plain_char c = true ->
  plain_char c' = true \/ c' = "\"%char ->
  parse_disjunction (S fuel) (c :: c' :: s) n cur alts
  = parse_disjunction fuel (c' :: s) n (cur ++ [RChar c]) alts.
Proof.
  intros Hc Hc'.
  destruct c as [[] [] [] [] [] [] [] []]; try discriminate Hc;
    cbn [parse_disjunction]; by rewrite (parse_quantifier_none _ c' s Hc').
Qed.

(** The plain characters in front of the backslash are read one by one. *)
Lemma parse_plain_prefix p : forall fuel s n cur alts,
  Forall (fun c => plain_char c = true) p ->
  parse_disjunction (length p + fuel) (p ++ "\"%char :: s) n cur alts
  = parse_disjunction fuel ("\"%char :: s) n (cur ++ (RChar <$> p)) alts.
Proof.
  induction p as [|c p IH]; intros fuel s n cur alts Hp.
  - cbn. by rewrite app_nil_r.
  - apply Forall_cons in Hp as [Hc Hp].
    cbn [length Nat.add app fmap list_fmap].
    destruct p as [|c' p'].
    + cbn [app length Nat.add]. rewrite parse_plain_char by auto.
      reflexivity.
    + pose proof Hp as Hp'. apply Forall_cons in Hp' as [Hc' _].
      cbn [app]. rewrite parse_plain_char by auto.
      change (c' :: p' ++ "\"%char :: s) with ((c' :: p') ++ "\"%char :: s).
      rewrite (IH fuel s n _ alts Hp), <- app_assoc. reflexivity.
Qed.

(** The escaped capture ends at a closing parenthesis that closes
    nothing. *)
Lemma parse_escaped_capture fuel tail n cur alts :
  exists r,
    parse_disjunction (S (S (S fuel))) (chars "\([^/]+)" ++ tail) n cur alts
    = Normal (r, ")"%char :: tail, n).
Proof. eexists. cbn. reflexivity. Qed.

(** A pattern made of plain characters, a colon and a name: [new RegExp]
    rejects what [_pathToRegex] builds for it, whatever follows the
    name. *)
Lemma pathToRegex_parameter p c rest :
  Forall (fun c => plain_char c = true) p ->
  key_char c = true ->
  _pathToRegex (text (p ++ ":"%char :: c :: rest))
  = Throw (SyntaxError "Unmatched ')'").
Proof.
  intros Hp Hc. unfold _pathToRegex.
  destruct (regex_source_parameter p c rest Hp Hc) as (tail & keys & -> & _).
  unfold RegExp_new, chars, text. rewrite list_ascii_of_string_of_list_ascii.
  cbn [length]. rewrite length_app.
  change (list_ascii_of_string "\([^/]+)") with (chars "\([^/]+)").
  rewrite length_app.
  replace (S (S (length p + (length (chars "\([^/]+)") + length tail))))
    with (S (length p + S (S (S (S (S (S (length tail + 3))))))))
    by (cbn; lia).
  cbn [parse_disjunction app].
  change (chars "\([^/]+)" ++ tail)
    with ("\"%char :: (chars "([^/]+)" ++ tail)).
  rewrite (parse_plain_prefix p _ _ _ _ _ Hp).
  change ("\"%char :: (chars "([^/]+)" ++ tail))
    with (chars "\([^/]+)" ++ tail).
  destruct (parse_escaped_capture (S (S (S (length tail + 3)))) tail 0
              ([] ++ [RBol] ++ (RChar <$> p)) []) as [r Hr].
  cbn [app] in Hr |- *. by rewrite Hr.
Qed.

(** The same for [route]: such a pattern is never registered. *)
Lemma route_parameter_throws p c rest opts R :
  Forall (fun c => plain_char c = true) p ->
  key_char c = true ->
  route (text (p ++ ":"%char :: c :: rest)) opts R
  = Throw (SyntaxError "Unmatched ')'").
Proof.
  intros Hp Hc. unfold route. by rewrite pathToRegex_parameter.
Qed.

(** A pattern without backslash never gets the wildcard capture: the
    second replacement of [_pathToRegex] changes nothing. *)
Lemma wildcard_is_never_captured s :
  Forall (fun c => c <> "\"%char) s ->
  replace_escaped_star (escape_specials s) = escape_specials s.
Proof.
  intros Hs. induction Hs as [|c s Hc _ IH]; [reflexivity|].
  unfold escape_specials in *. cbn [flat_map].
  destruct (special c) eqn:Hsp; cbn [app].
  - destruct c as [[] [] [] [] [] [] [] []]; try discriminate Hsp;
      try congruence; cbn [replace_escaped_star]; by rewrite IH.
  - destruct c as [[] [] [] [] [] [] [] []]; try discriminate Hsp;
      cbn [replace_escaped_star]; by rewrite IH.
Qed.

(** ** Scripts and repeated patches (C4) *)

(** C4 (the code departs from the claim): a page whose markup is one
    inline script is rendered twice.  The first rendering activates the
    script and marks it.  The second rendering patches the marked script
    against the identical markup, in which the script has no marker:
    [_updateAttributes] removes the marker as an attribute the new element
    does not have, and [_runScripts] activates the script a second time.
    The same happens through the controller when two history entries with
    this snapshot are visited one after the other. *)
Theorem script_is_activated_again_by_identical_markup :
  render_markup online [] "<script>track()</script>"
  = Normal ([tracked], [ActInline "track()"])
  /\ routerExecuted (attrs_of tracked) = true
  /\ render_markup online [tracked] "<script>track()</script>"
     = Normal ([tracked], [ActInline "track()"])
  /\ List.filter
       (fun e => match e with EvActivate _ => true | _ => false end)
       (log (snd (history_pop online 1 "http://example.com/b"
                    (Some (tracking_page "http://example.com/b"))
                    (snd (history_pop online 1 "http://example.com/a"
                            (Some (tracking_page "http://example.com/a"))
                            (home Router0))))))
     = [EvActivate (ActInline "track()"); EvActivate (ActInline "track()")].
Proof. repeat split; vm_compute; reflexivity. Qed.

(** A script with a source inside content that is new to the container is
    even activated twice by one rendering: [_execScriptsInNode] recreates
    it when the content is appended, its marker is only set by the [load]
    event, and the [_runScripts] that follows at once recreates it again. *)
Lemma external_script_is_activated_twice_by_one_rendering :
  snd <$> match render_markup online []
                  "<div><script src='/a.js'></script></div>" with
          | Normal r => Some r
          | _ => None
          end
  = Some [ActSrc "http://example.com/a.js"; ActSrc "http://example.com/a.js"].
Proof. vm_compute. reflexivity. Qed.

(** ** Preserved elements (C9) *)



(** A pair [_isSameNode] accepts is patched in place, never replaced. *)
Lemma patchNode_same_kept h oldNode newNode :
  _isSameNode oldNode newNode = true ->
  exists n' acts, _patchNode h oldNode newNode = Normal (Kept n', acts).
Proof.
  intros Hsame.
  destruct oldNode as [otag oattrs ost okids|odata|odata],
           newNode as [ntag nattrs nst nkids|ndata|ndata];
    try discriminate Hsame.
  - cbn [_patchNode].
    destruct (preserved _ || preserved _); [by eexists _, _|].
    rewrite Hsame. cbn [negb orb].
    assert (Hkeys :
      truthy_text (router_key (Element otag oattrs ost okids))
      && truthy_text (router_key (Element ntag nattrs nst nkids))
      && negb (bool_decide (router_key (Element otag oattrs ost okids)
                            = router_key (Element ntag nattrs nst nkids)))
      = false).
    { cbn [_isSameNode] in Hsame.
      destruct (negb (String.eqb otag ntag)); [discriminate|].
      destruct (truthy_text (router_key (Element otag oattrs ost okids)));
        destruct (truthy_text (router_key (Element ntag nattrs nst nkids)));
        cbn in *; try reflexivity.
      by rewrite Hsame. }
    rewrite Hkeys.
    destruct (_updateChildren_total h okids nkids) as (kids & acts & Hrun).
    unfold _updateChildren in Hrun. rewrite Hrun. cbn [cbind].
    by eexists _, _.
  - by eexists _, _.
Qed.

Lemma keyed_children_none (olds : list node) :
  (forall o, o ∈ olds -> truthy_text (router_key o) = false) ->
  keyed_children (imap (fun i c => (i, c)) olds) = ∅.
Proof.
  intros Hnone. unfold keyed_children.
  assert (Hgen : forall (tagged : list (nat * node)) (acc : gmap string nat),
    (forall i c, In (i, c) tagged -> truthy_text (router_key c) = false) ->
    fold_left
      (fun m '(i, c) =>
         if is_element c && truthy_text (router_key c)
         then <[default "" (router_key c) := i]> m else m)
      tagged acc = acc).
  { induction tagged as [|[i c] tagged IH]; intros acc Hall; [reflexivity|].
    cbn [fold_left]. rewrite (Hall i c) by (by left).
    rewrite andb_false_r. apply IH. intros j d Hin. apply (Hall j d).
    by right. }
  apply Hgen. intros i c Hin. apply In_tagged in Hin.
  apply Hnone. by eapply list_elem_of_lookup_2.
Qed.

Lemma replace_in_tagged (l : list node) j n' :
  List.map (fun '(i, n) => if i =? j then (i, n') else (i, n))
           (imap (fun i c => (i, c)) l)
  = imap (fun i c => (i, c)) (<[j := n']> l).
Proof.
  change (List.map ?f ?x) with (f <$> x).
  apply list_eq. intros k.
  rewrite list_lookup_fmap, !list_lookup_imap.
  destruct (decide (k = j)) as [->|Hne].
  - destruct (l !! j) as [c|] eqn:Hl.
    + rewrite list_lookup_insert_eq by (by eapply lookup_lt_Some).
      cbn. by rewrite Nat.eqb_refl.
    + rewrite list_insert_ge by (by apply lookup_ge_None). by rewrite Hl.
  - rewrite list_lookup_insert_ne by done.
    destruct (l !! k) as [c|]; [|reflexivity]. cbn.
    by apply Nat.eqb_neq in Hne as ->.
Qed.

Lemma untag_tagged (l : list node) :
  snd <$> imap (fun i c => (i, c)) l = l.
Proof.
  apply list_eq. intros k. rewrite list_lookup_fmap, list_lookup_imap.
  by destruct (l !! k).
Qed.

(** One round of [newChildren.forEach] when the old child at the current
    index is the same node as the new child and no old child is keyed. *)
Lemma update_child_aligned h newChild uc cur j o :
  uc_children uc = imap (fun i c => (i, c)) cur ->
  uc_oldIndex uc = j ->
  cur !! j = Some o ->
  _isSameNode o newChild = true ->
  exists n' acts uc',
    _patchNode h o newChild = Normal (Kept n', acts)
    /\ update_child h (_patchNode h) ∅ newChild uc = Normal uc'
    /\ uc_children uc' = imap (fun i c => (i, c)) (<[j := n']> cur)
    /\ uc_oldIndex uc' = S j.
Proof.
  intros Hch Hj Hcur Hsame.
  destruct (patchNode_same_kept h o newChild Hsame) as (n' & acts & Hpatch).
  exists n', acts. eexists. split; [exact Hpatch|].
  unfold update_child. rewrite lookup_empty.
  assert (Hkeyed :
    (if is_element newChild
     then if truthy_text (router_key newChild) then None else None
     else @None nat) = None)
    by (destruct (is_element newChild), (truthy_text (router_key newChild));
        reflexivity).
  cbv zeta. rewrite Hkeyed, Hch, Hj, list_lookup_imap, Hcur.
  cbn [fmap option_fmap option_map]. rewrite Hsame, Hpatch. cbn [cbind].
  split; [reflexivity|].
  cbn [uc_children uc_oldIndex next_index apply_patch].
  by rewrite Hch, Hj, replace_in_tagged.
Qed.





(** * Further properties of the code *)

(** ** [decodeURIComponent] *)

Lemma text_chars s : text (chars s) = s.
Proof. apply string_of_list_ascii_of_string. Qed.

Lemma chars_text l : chars (text l) = l.
Proof. apply list_ascii_of_string_of_list_ascii. Qed.

Lemma decode_escape h l rest p n :
  decode ("%"%char :: h :: l :: rest) p n =
  match hex_value h, hex_value l with
  | Some a, Some b =>
      let byte := 16 * a + b in
      match n with
      | O =>
          match utf8_length byte with
          | 0 => cons (ascii_of_nat byte) <$> decode rest [] 0
          | 1 => None
          | S m => if (4 <? S m) then None else decode rest [byte] m
          end
      | S O =>
          let bytes := p ++ [byte] in
          if utf8_well_formed bytes
          then app (ascii_of_nat <$> bytes) <$> decode rest [] 0
          else None
      | S n' => decode rest (p ++ [byte]) n'
      end
  | _, _ => None
  end.
Proof. reflexivity. Qed.

Lemma decode_other c rest p n :
  c <> "%"%char ->
  decode (c :: rest) p n =
  if negb (n =? 0) then None else cons c <$> decode rest [] 0.
Proof.
  intros Hc. destruct c as [[] [] [] [] [] [] [] []]; try reflexivity.
  by destruct Hc.
Qed.

Lemma decode_short_escape rest p n :
  length rest < 2 -> decode ("%"%char :: rest) p n = None.
Proof. destruct rest as [|h [|l rest]]; cbn [length]; [done|done|lia]. Qed.

(** Outside a UTF-8 sequence the bytes read before do not matter. *)
Lemma decode_pending s p : decode s p 0 = decode s [] 0.
Proof.
  destruct s as [|c rest]; [reflexivity|].
  destruct (ascii_dec c "%") as [->|Hc].
  - by destruct rest as [|h [|l rest]].
  - by rewrite !decode_other.
Qed.

(** X1: text without a percent sign is what [decodeURIComponent] returns
    for it. *)
Theorem decodeURIComponent_without_escape (s : string) :
  Forall (fun c => c <> "%"%char) (chars s) ->
  decodeURIComponent s = Some s.
Proof.
  intros Hs. unfold decodeURIComponent.
  rewrite <- (text_chars s) at 2.
  induction Hs as [|c rest Hc _ IH]; [reflexivity|].
  rewrite decode_other by exact Hc. cbn [Nat.eqb negb].
  destruct (decode rest [] 0) as [t|]; [|discriminate IH].
  cbn in *. injection IH as IH. f_equal. cbn. f_equal.
  by rewrite <- (chars_text t), IH, chars_text.
Qed.

Lemma decodeURIComponent_without_escape_witness :
  decodeURIComponent "/user/42" = Some "/user/42".
Proof.
  apply (decodeURIComponent_without_escape "/user/42").
  repeat constructor; discriminate.
Defined.

Lemma decode_app_bounded k : forall s1 s2 p n t1 t2,
  length s1 <= k ->
  decode s1 p n = Some t1 ->
  decode s2 [] 0 = Some t2 ->
  decode (s1 ++ s2) p n = Some (t1 ++ t2).
Proof.
  induction k as [|k IH]; intros s1 s2 p n t1 t2 Hlen H1 H2.
  - destruct s1; [|cbn in Hlen; lia]. cbn in H1.
    destruct n; [|discriminate]. injection H1 as <-.
    by rewrite app_nil_l, decode_pending.
  - destruct s1 as [|c rest].
    { cbn in H1. destruct n; [|discriminate]. injection H1 as <-.
      by rewrite app_nil_l, decode_pending. }
    cbn [length] in Hlen.
    destruct (ascii_dec c "%") as [->|Hc].
    + destruct rest as [|h [|l rest]]; try discriminate H1.
      cbn [length] in Hlen. cbn [app]. rewrite decode_escape in *.
      destruct (hex_value h) as [a|]; [|discriminate].
      destruct (hex_value l) as [b|]; [|discriminate].
      cbv zeta in *.
      destruct n as [|[|n]].
      * destruct (utf8_length (16 * a + b)) as [|[|m]]; [|discriminate|].
        -- destruct (decode rest [] 0) as [t|] eqn:Hrest; [|discriminate].
           injection H1 as <-.
           by rewrite (IH rest s2 [] 0 t t2) by (done || lia).
        -- destruct (4 <? S (S m)); [discriminate|].
           apply IH; (done || lia).
      * destruct (utf8_well_formed (p ++ [16 * a + b])); [|discriminate].
        destruct (decode rest [] 0) as [t|] eqn:Hrest; [|discriminate].
        injection H1 as <-.
        rewrite (IH rest s2 [] 0 t t2) by (done || lia).
        cbn. by rewrite app_assoc.
      * apply IH; (done || lia).
    + cbn [app]. rewrite decode_other in * by exact Hc.
      destruct (negb (n =? 0)); [discriminate|].
      destruct (decode rest [] 0) as [t|] eqn:Hrest; [|discriminate].
      injection H1 as <-.
      by rewrite (IH rest s2 [] 0 t t2) by (done || lia).
Qed.

Lemma chars_app (s1 s2 : string) : chars (s1 ++ s2) = chars s1 ++ chars s2.
Proof.
  unfold chars. induction s1 as [|c s1 IH]; cbn; [reflexivity|].
  rewrite <- IH. reflexivity.
Qed.

Lemma text_app (l1 l2 : list ascii) :
  text (l1 ++ l2) = (text l1 ++ text l2)%string.
Proof.
  unfold text. induction l1 as [|c l1 IH]; cbn; [reflexivity|].
  rewrite IH. reflexivity.
Qed.

(** X2: decoding distributes over concatenation: when two texts decode,
    their concatenation decodes to the concatenation of the results. *)
Theorem decodeURIComponent_app (s1 s2 t1 t2 : string) :
  decodeURIComponent s1 = Some t1 ->
  decodeURIComponent s2 = Some t2 ->
  decodeURIComponent (s1 ++ s2) = Some (t1 ++ t2)%string.
Proof.
  unfold decodeURIComponent. intros H1 H2.
  destruct (decode (chars s1) [] 0) as [l1|] eqn:E1; [|discriminate].
  destruct (decode (chars s2) [] 0) as [l2|] eqn:E2; [|discriminate].
  injection H1 as <-. injection H2 as <-.
  rewrite chars_app.
  rewrite (decode_app_bounded _ _ _ _ _ l1 l2 (Nat.le_refl _) E1 E2).
  cbn. by rewrite text_app.
Qed.

Lemma decodeURIComponent_app_witness :
  decodeURIComponent ("caf%C3%A9" ++ "%20au%20lait") = Some "café au lait".
Proof.
  apply (decodeURIComponent_app "caf%C3%A9" "%20au%20lait" "café" " au lait");
    vm_compute; reflexivity.
Defined.

Lemma hex_value_digit k : k < 16 -> hex_value (hex_digit k) = Some k.
Proof. intros Hk. do 16 (destruct k as [|k]; [reflexivity|]). lia. Qed.

Lemma code_lt_256 c : code c < 256.
Proof. apply nat_ascii_bounded. Qed.

(** X3: an ASCII text in which every character is written as a percent
    escape decodes to the text. *)
Theorem decodeURIComponent_escaped (s : string) :
  Forall (fun c => code c < 128) (chars s) ->
  decodeURIComponent (text (flat_map escape (chars s))) = Some s.
Proof.
  intros Hs. unfold decodeURIComponent. rewrite chars_text.
  rewrite <- (text_chars s) at 2.
  assert (Hrun : decode (flat_map escape (chars s)) [] 0 = Some (chars s));
    [|by rewrite Hrun].
  induction Hs as [|c rest Hc _ IH]; [reflexivity|].
  cbn [flat_map escape app]. rewrite decode_escape.
  rewrite !hex_value_digit by
    (first [apply Nat.mod_upper_bound; lia
           | apply Nat.Div0.div_lt_upper_bound; lia]).
  cbv zeta.
  assert (Hbyte : 16 * (code c / 16) + code c mod 16 = code c)
    by (symmetry; apply Nat.div_mod_eq).
  rewrite Hbyte. unfold utf8_length.
  apply Nat.ltb_lt in Hc as ->. rewrite IH. cbn. f_equal. f_equal.
  apply ascii_nat_embedding.
Qed.

Lemma decodeURIComponent_escaped_witness :
  decodeURIComponent "%61%2F%62" = Some "a/b".
Proof.
  apply (decodeURIComponent_escaped "a/b"). repeat constructor; cbn; lia.
Defined.

(** ** [_parseQuery] *)

Lemma parseQuery_fold (k : string) (entries : list (string * string)) :
  k <> "__proto__" ->
  forall acc : gmap string string,
  fold_left (fun params '(k, v) => set_property k v params) entries acc !! k
  = match last (List.filter (fun e => String.eqb (fst e) k) entries) with
    | Some e => Some (snd e)
    | None => acc !! k
    end.
Proof.
  intros Hk. induction entries as [|[k' v] rest IH]; intros acc;
    [reflexivity|].
  cbn [fold_left List.filter fst]. rewrite IH.
  destruct (String.eqb_spec k' k) as [->|Hne].
  - rewrite last_cons.
    destruct (last (List.filter _ rest)); [reflexivity|].
    cbn. unfold set_property.
    apply String.eqb_neq in Hk. rewrite Hk. apply lookup_insert_eq.
  - destruct (last (List.filter _ rest)); [reflexivity|].
    unfold set_property. destruct (String.eqb k' "__proto__"); [done|].
    by apply lookup_insert_ne.
Qed.

Lemma parseQuery_fold_proto (entries : list (string * string)) :
  forall acc : gmap string string,
  fold_left (fun params '(k, v) => set_property k v params) entries acc
    !! "__proto__"
  = acc !! "__proto__".
Proof.
  induction entries as [|[k' v] rest IH]; intros acc; [reflexivity|].
  cbn [fold_left]. rewrite IH. unfold set_property.
  destruct (String.eqb_spec k' "__proto__") as [->|Hne]; [done|].
  by apply lookup_insert_ne.
Qed.

(** X4: the own properties of the object [_parseQuery] builds.  For every
    key but [__proto__] it holds the value of the last entry of the query
    string with this key, and nothing when the key does not occur.  An
    entry with the key [__proto__] is lost: the assignment reaches the
    accessor of [Object.prototype] and creates no property. *)
Theorem parseQuery_last_entry_wins (h : Host) (search k : string) :
  _parseQuery h search !! k
  = if String.eqb k "__proto__" then None
    else snd <$> last (List.filter (fun e => String.eqb (fst e) k)
                                   (URLSearchParams_entries h search)).
Proof.
  unfold _parseQuery. destruct (String.eqb_spec k "__proto__") as [->|Hk].
  - by rewrite parseQuery_fold_proto.
  - rewrite parseQuery_fold by exact Hk. by destruct (last _).
Qed.

(** ** [route] and [_matchRoute] *)

Lemma match_routes_app h rs rs' pathname search m :
  match_routes h rs pathname search = Some m ->
  match_routes h (rs ++ rs') pathname search = Some m.
Proof.
  induction rs as [|r rs IH]; [discriminate|].
  cbn [match_routes app].
  destruct (String_match pathname (regex r)); [done|exact IH].
Qed.

(** X5: registering a route never changes the answer for a URL that is
    already matched: the routes are tried in the order of registration and
    the new one comes last. *)
Theorem route_keeps_earlier_matches
    (h : Host) (R R' : Router) (path : string) (opts : RouteOptions)
    (url : string) (m : MatchResult) :
  route path opts R = Normal R' ->
  _matchRoute h R url = Some m ->
  _matchRoute h R' url = Some m.
Proof.
  unfold route, _matchRoute. intros Hroute Hm.
  destruct (_pathToRegex path) as [[re ks]| |]; try discriminate.
  injection Hroute as <-. cbn [routes].
  destruct (URL_parts h url) as [[pathname search]|]; [|discriminate].
  cbn in *. by apply match_routes_app.
Qed.

Lemma route_keeps_earlier_matches_witness :
  exists m,
    _matchRoute online (routed "/about" Router0) "http://example.com/about"
    = Some m
    /\ _matchRoute online (routed "/abou*t" (routed "/about" Router0))
         "http://example.com/about" = Some m.
Proof.
  eexists. split; [vm_compute; reflexivity|].
  apply (route_keeps_earlier_matches online (routed "/about" Router0)
           (routed "/abou*t" (routed "/about" Router0)) "/abou*t" no_options).
  - vm_compute. reflexivity.
  - vm_compute. reflexivity.
Defined.

(** ** [_isSameNode] *)

(** X6: [_isSameNode] is symmetric and transitive, and a node is the same
    as itself unless it is a comment: two comments are never the same
    node, so a comment is always replaced by a clone. *)
Theorem isSameNode_partial_equivalence :
  (forall a b, _isSameNode a b = _isSameNode b a)
  /\ (forall a b c, _isSameNode a b = true -> _isSameNode b c = true ->
        _isSameNode a c = true)
  /\ (forall a, _isSameNode a a
                = match a with Comment _ => false | _ => true end).
Proof.
  split; [|split].
  - intros [ta aa sa ka|da|da] [tb ab sb kb|db|db]; try reflexivity.
    cbn [_isSameNode]. rewrite (String.eqb_sym tb ta).
    destruct (String.eqb ta tb); [|reflexivity]. cbn [negb].
    destruct (truthy_text (router_key (Element ta aa sa ka)));
      destruct (truthy_text (router_key (Element tb ab sb kb)));
      cbn [orb andb]; try reflexivity.
    apply bool_decide_ext. split; congruence.
  - intros [ta aa sa ka|da|da] [tb ab sb kb|db|db] [tc ac sc kc|dc|dc];
      try discriminate; try reflexivity.
    cbn [_isSameNode].
    destruct (String.eqb_spec ta tb) as [Hab|]; [|discriminate].
    destruct (String.eqb_spec tb tc) as [Hbc|]; [|discriminate].
    subst. rewrite String.eqb_refl. cbn [negb].
    repeat match goal with
           | |- context [truthy_text ?k] => destruct (truthy_text k)
           end;
      cbn [orb andb]; try discriminate; try reflexivity.
    intros Hab Hbc. apply bool_decide_eq_true in Hab, Hbc.
    apply bool_decide_eq_true. congruence.
  - intros [ta aa sa ka|da|da]; try reflexivity.
    cbn [_isSameNode]. rewrite String.eqb_refl. cbn [negb].
    destruct (truthy_text (router_key (Element ta aa sa ka)));
      cbn [orb andb]; [|reflexivity].
    by apply bool_decide_eq_true.
Qed.

(** ** [_updateAttributes] *)

Lemma getAttribute_cons n m v attrs :
  getAttribute n ((m, v) :: attrs)
  = if String.eqb m n then Some v else getAttribute n attrs.
Proof. unfold getAttribute. cbn. by destruct (String.eqb m n). Qed.

Lemma getAttribute_None n attrs :
  getAttribute n attrs = None <-> n ∉ names attrs.
Proof.
  induction attrs as [|[m v] attrs IH].
  - split; [intros _; apply not_elem_of_nil|reflexivity].
  - rewrite getAttribute_cons. cbn. rewrite not_elem_of_cons.
    destruct (String.eqb_spec m n) as [->|Hne].
    + split; [discriminate|]. by intros [? _].
    + rewrite IH. split; [by split|by intros [_ ?]].
Qed.

Lemma hasAttribute_true n attrs :
  hasAttribute n attrs = true <-> n ∈ names attrs.
Proof.
  unfold hasAttribute. rewrite bool_decide_eq_true.
  destruct (getAttribute n attrs) as [v|] eqn:Hget.
  - split; [|by eexists]. intros _.
    destruct (decide (n ∈ names attrs)) as [|Hn]; [done|].
    apply getAttribute_None in Hn. congruence.
  - split; [by intros [? ?]|]. intros Hin.
    by apply getAttribute_None in Hget.
Qed.

Lemma names_setAttribute n v attrs :
  names (setAttribute n v attrs)
  = if hasAttribute n attrs then names attrs else names attrs ++ [n].
Proof.
  unfold setAttribute, names. destruct (hasAttribute n attrs).
  - induction attrs as [|[m w] attrs IH]; [reflexivity|].
    cbn. rewrite <- IH. by destruct (String.eqb m n).
  - by rewrite fmap_app.
Qed.

Lemma getAttribute_replaced_other n v attrs m :
  n <> m ->
  getAttribute m
    (List.map (fun '(k, w) => if String.eqb k n then (k, v) else (k, w)) attrs)
  = getAttribute m attrs.
Proof.
  intros Hnm. induction attrs as [|[k w] attrs IH]; [reflexivity|].
  cbn [List.map]. destruct (String.eqb_spec k n) as [->|Hkn];
    rewrite !getAttribute_cons, IH; [|reflexivity].
  by apply String.eqb_neq in Hnm as ->.
Qed.

Lemma getAttribute_replaced n v attrs :
  n ∈ names attrs ->
  getAttribute n
    (List.map (fun '(k, w) => if String.eqb k n then (k, v) else (k, w)) attrs)
  = Some v.
Proof.
  induction attrs as [|[k w] attrs IH]; intros Hin;
    [by apply elem_of_nil in Hin|].
  cbn [List.map]. destruct (String.eqb_spec k n) as [->|Hkn];
    rewrite getAttribute_cons.
  - by rewrite String.eqb_refl.
  - apply String.eqb_neq in Hkn as Hkn'. rewrite Hkn'. apply IH.
    cbn in Hin. by apply elem_of_cons in Hin as [->|Hin].
Qed.

Lemma getAttribute_app n attrs more :
  getAttribute n (attrs ++ more)
  = match getAttribute n attrs with
    | Some v => Some v
    | None => getAttribute n more
    end.
Proof.
  induction attrs as [|[k w] attrs IH]; [reflexivity|].
  cbn [app]. rewrite !getAttribute_cons. by destruct (String.eqb k n).
Qed.

Lemma getAttribute_setAttribute n v attrs m :
  getAttribute m (setAttribute n v attrs)
  = if String.eqb n m then Some v else getAttribute m attrs.
Proof.
  unfold setAttribute.
  destruct (hasAttribute n attrs) eqn:Hhas.
  - destruct (String.eqb_spec n m) as [<-|Hnm].
    + apply getAttribute_replaced. by apply hasAttribute_true.
    + by apply getAttribute_replaced_other.
  - rewrite getAttribute_app, getAttribute_cons.
    destruct (String.eqb_spec n m) as [<-|Hnm].
    + assert (Hn : getAttribute n attrs = None); [|by rewrite Hn].
      apply getAttribute_None. intros Hin.
      apply hasAttribute_true in Hin. congruence.
    + by destruct (getAttribute m attrs).
Qed.

Lemma update_step_get (acc : list (string * string)) n v m :
  getAttribute m
    (if bool_decide (getAttribute n acc = Some v) then acc
     else setAttribute n v acc)
  = if String.eqb n m then Some v else getAttribute m acc.
Proof.
  case_bool_decide as Hget.
  - destruct (String.eqb_spec n m) as [<-|]; [exact Hget|reflexivity].
  - apply getAttribute_setAttribute.
Qed.

Lemma update_fold_get (new : list (string * string)) m :
  forall acc,
  NoDup (names new) ->
  getAttribute m
    (fold_left
       (fun acc '(n, v) =>
          if bool_decide (getAttribute n acc = Some v) then acc
          else setAttribute n v acc) new acc)
  = match getAttribute m new with
    | Some v => Some v
    | None => getAttribute m acc
    end.
Proof.
  induction new as [|[n v] new IH]; intros acc Hnd; [reflexivity|].
  cbn in Hnd. apply NoDup_cons in Hnd as [Hn Hnd].
  cbn [fold_left]. rewrite IH by exact Hnd.
  rewrite getAttribute_cons, update_step_get.
  destruct (String.eqb_spec n m) as [<-|Hnm]; [|reflexivity].
  apply getAttribute_None in Hn. by rewrite Hn.
Qed.

Lemma update_fold_names (new : list (string * string)) :
  forall acc,
  NoDup (names acc) ->
  NoDup (names
    (fold_left
       (fun acc '(n, v) =>
          if bool_decide (getAttribute n acc = Some v) then acc
          else setAttribute n v acc) new acc)).
Proof.
  induction new as [|[n v] new IH]; intros acc Hnd; [exact Hnd|].
  cbn [fold_left]. apply IH. case_bool_decide; [exact Hnd|].
  rewrite names_setAttribute.
  destruct (hasAttribute n acc) eqn:Hhas; [exact Hnd|].
  apply NoDup_app. split; [exact Hnd|]. split.
  - intros x Hx Hin. apply list_elem_of_singleton in Hin as ->.
    apply hasAttribute_true in Hx. congruence.
  - apply NoDup_singleton.
Qed.

Lemma getAttribute_filter (p : string -> bool) attrs m :
  getAttribute m (List.filter (fun '(n, _) => p n) attrs)
  = if p m then getAttribute m attrs else None.
Proof.
  induction attrs as [|[k w] attrs IH];
    [cbn; by destruct (p m)|].
  cbn [List.filter]. destruct (p k) eqn:Hpk.
  - rewrite !getAttribute_cons.
    destruct (String.eqb_spec k m) as [->|]; [by rewrite Hpk|exact IH].
  - rewrite getAttribute_cons.
    destruct (String.eqb_spec k m) as [->|]; [by rewrite IH, Hpk|exact IH].
Qed.

Lemma names_filter_NoDup (p : string * string -> bool) attrs :
  NoDup (names attrs) -> NoDup (names (List.filter p attrs)).
Proof.
  induction attrs as [|[k w] attrs IH]; [done|].
  cbn. intros [Hk Hnd]%NoDup_cons.
  destruct (p (k, w)); [|by apply IH].
  cbn. apply NoDup_cons. split; [|by apply IH].
  intros Hin. apply Hk. clear -Hin.
  induction attrs as [|[k' w'] attrs IH]; [done|].
  cbn in *. destruct (p (k', w')); cbn in *.
  - apply elem_of_cons in Hin as [->|Hin]; [by left|right; by apply IH].
  - right. by apply IH.
Qed.

Lemma getAttribute_member n v attrs :
  NoDup (names attrs) -> (n, v) ∈ attrs -> getAttribute n attrs = Some v.
Proof.
  induction attrs as [|[k w] attrs IH]; intros Hnd Hin;
    [by apply elem_of_nil in Hin|].
  cbn in Hnd. apply NoDup_cons in Hnd as [Hk Hnd].
  rewrite getAttribute_cons.
  apply elem_of_cons in Hin as [[= -> ->]|Hin].
  - by rewrite String.eqb_refl.
  - destruct (String.eqb_spec k n) as [->|]; [|by apply IH].
    destruct Hk. apply list_elem_of_fmap. by exists (n, v).
Qed.

Lemma updateAttributes_get (oldAttrs newAttrs : list (string * string)) n :
  NoDup (names newAttrs) ->
  getAttribute n (_updateAttributes oldAttrs newAttrs)
  = getAttribute n newAttrs.
Proof.
  intros Hnew. unfold _updateAttributes.
  rewrite update_fold_get by exact Hnew.
  destruct (getAttribute n newAttrs) as [v|] eqn:Hget; [reflexivity|].
  rewrite (getAttribute_filter (fun n => hasAttribute n newAttrs)).
  destruct (hasAttribute n newAttrs) eqn:Hhas; [|reflexivity].
  apply hasAttribute_true in Hhas. by apply getAttribute_None in Hget.
Qed.

(** X7: after [_updateAttributes(oldEl, newEl)] the old element has
    exactly the attributes of the new one: every name gives the value it
    has on the new element, and a name the new element does not have gives
    nothing.  Attribute names stay distinct, and an element that already
    has the attributes of the new one keeps its attribute list as it is. *)
Theorem updateAttributes_gives_new_attributes
    (oldAttrs newAttrs : list (string * string)) :
  NoDup (names newAttrs) ->
  (forall n, getAttribute n (_updateAttributes oldAttrs newAttrs)
             = getAttribute n newAttrs)
  /\ (NoDup (names oldAttrs) ->
      NoDup (names (_updateAttributes oldAttrs newAttrs)))
  /\ _updateAttributes newAttrs newAttrs = newAttrs.
Proof.
  intros Hnew. split; [|unfold _updateAttributes; split].
  - intros n. by apply updateAttributes_get.
  - intros Hold. apply update_fold_names. by apply names_filter_NoDup.
  - assert (Hkeep : List.filter (fun '(n, _) => hasAttribute n newAttrs)
                      newAttrs = newAttrs).
    { apply forallb_filter_id, forallb_forall. intros [n v] Hin.
      apply hasAttribute_true, list_elem_of_fmap. exists (n, v).
      split; [reflexivity|]. by apply list_elem_of_In. }
    rewrite Hkeep.
    assert (Hfix : forall attrs acc,
      (forall n v, (n, v) ∈ attrs -> getAttribute n acc = Some v) ->
      fold_left
        (fun acc '(n, v) =>
           if bool_decide (getAttribute n acc = Some v) then acc
           else setAttribute n v acc) attrs acc = acc).
    { induction attrs as [|[n v] attrs IH]; intros acc Hall; [reflexivity|].
      cbn [fold_left]. rewrite bool_decide_eq_true_2
        by (apply Hall; by left).
      apply IH. intros n' v' Hin. apply Hall. by right. }
    apply Hfix. intros n v Hin. by apply getAttribute_member.
Qed.

Lemma updateAttributes_gives_new_attributes_witness :
  getAttribute "data-router-executed"
    (_updateAttributes [("data-router-executed", "1"); ("id", "a")]
                       [("id", "b"); ("class", "c")]) = None
  /\ getAttribute "id"
       (_updateAttributes [("data-router-executed", "1"); ("id", "a")]
                          [("id", "b"); ("class", "c")]) = Some "b".
Proof.
  assert (Hnd : NoDup (names [("id", "b"); ("class", "c")])).
  { by apply (bool_decide_unpack _). }
  destruct (updateAttributes_gives_new_attributes
              [("data-router-executed", "1"); ("id", "a")]
              [("id", "b"); ("class", "c")] Hnd) as [Hget _].
  split; apply Hget.
Defined.

(** ** [_runScripts] *)

Lemma run_scripts_element h tag attrs st kids :
  run_scripts h (Element tag attrs st kids)
  = if is_script tag && negb (routerExecuted attrs)
    then let '(fresh, act) := recreate_script h attrs kids in (fresh, [act])
    else let '(kids', acts) := run_scripts_list h kids in
         (Element tag attrs st kids', acts).
Proof.
  cbn [run_scripts]. destruct (is_script tag && negb (routerExecuted attrs));
    [reflexivity|].
  assert (Heach :
    (fix each (ks : list node) : list node * list Activation :=
       match ks with
       | [] => ([], [])
       | k :: rest =>
           let '(k', a) := run_scripts h k in
           let '(rest', b) := each rest in
           (k' :: rest', a ++ b)
       end) kids = run_scripts_list h kids); [|by rewrite Heach].
  induction kids as [|k kids IH]; [reflexivity|].
  cbn [run_scripts_list]. by rewrite IH.
Qed.

Lemma run_scripts_settled h n :
  Forall (fun a => is_inline a = true) (snd (run_scripts h n)) ->
  run_scripts h (fst (run_scripts h n)) = (fst (run_scripts h n), []).
Proof.
  induction n as [tag attrs st kids IH|data|data] using node_ind';
    [|reflexivity|reflexivity].
  rewrite run_scripts_element.
  destruct (is_script tag && negb (routerExecuted attrs)) eqn:Hpending.
  - unfold recreate_script.
    destruct (negb (String.eqb _ "")); cbn [fst snd].
    + intros Hall. apply Forall_cons in Hall as [Hext _]. discriminate Hext.
    + intros _. rewrite run_scripts_element.
      assert (Hmarked : routerExecuted
                (setAttribute "data-router-executed" "1" attrs) = true).
      { unfold routerExecuted. by rewrite getAttribute_setAttribute. }
      rewrite Hmarked, andb_false_r.
      by destruct (String.eqb (textContent (Element "SCRIPT" attrs plain kids))
                     "").
  - assert (Hkids :
      Forall (fun a => is_inline a = true) (snd (run_scripts_list h kids)) ->
      run_scripts_list h (fst (run_scripts_list h kids))
      = (fst (run_scripts_list h kids), [])).
    { clear Hpending. induction IH as [|k kids Hk _ IHkids]; [reflexivity|].
      cbn [run_scripts_list].
      destruct (run_scripts h k) as [k' a] eqn:Ek.
      destruct (run_scripts_list h kids) as [kids' b] eqn:Ekids.
      cbn [fst snd] in *. intros [Ha Hb]%Forall_app.
      cbn [run_scripts_list]. by rewrite (Hk Ha), (IHkids Hb). }
    destruct (run_scripts_list h kids) as [kids' acts] eqn:Ekids.
    cbn [fst snd] in *. intros Hall.
    rewrite run_scripts_element, Hpending. by rewrite (Hkids Hall).
Qed.

(** X8: [_runScripts] is idempotent on a container whose pending scripts
    are inline: when a run activates no external script, a second run
    activates nothing and leaves every node as it is. *)
Theorem runScripts_twice (h : Host) (kids : list node) :
  Forall (fun a => is_inline a = true) (snd (_runScripts h kids)) ->
  _runScripts h (fst (_runScripts h kids)) = (fst (_runScripts h kids), []).
Proof.
  unfold _runScripts. induction kids as [|k kids IH]; [reflexivity|].
  cbn [run_scripts_list].
  destruct (run_scripts h k) as [k' a] eqn:Ek.
  destruct (run_scripts_list h kids) as [kids' b] eqn:Ekids.
  cbn [fst snd] in *. intros [Ha Hb]%Forall_app.
  cbn [run_scripts_list].
  pose proof (run_scripts_settled h k) as Hk. rewrite Ek in Hk.
  cbn [fst snd] in Hk. by rewrite (Hk Ha), (IH Hb).
Qed.

Lemma runScripts_twice_witness :
  _runScripts online [tracked] = ([tracked], [])
  /\ _runScripts online
       (fst (_runScripts online
               [el "DIV" [] [el "SCRIPT" [] [Text "track()"]]]))
     = (fst (_runScripts online
               [el "DIV" [] [el "SCRIPT" [] [Text "track()"]]]), []).
Proof.
  split; [reflexivity|].
  apply (runScripts_twice online
           [el "DIV" [] [el "SCRIPT" [] [Text "track()"]]]).
  repeat constructor.
Defined.

(** ** [beforeEach] hooks that throw or redirect *)

Lemma runBeforeHooks_from_stop pre : forall i fn post ctx w,
  Forall (fun g => proceeds (g ctx) = true) pre ->
  runBeforeHooks_from i (pre ++ fn :: post) ctx w =
  match fn ctx with
  | Returns (VBool false) => ret (VBool false)
  | Returns (VString res) => ret (VString res)
  | Returns _ => runBeforeHooks_from (S (i + length pre)) post ctx
  | Throws err => bind (_callErrorHooks err (InfoCtx ctx))
                       (fun _ => ret (VBool false))
  end (add_log (before_events i (S (length pre)) ctx) w).
Proof.
  induction pre as [|g pre IH]; intros i fn post ctx w Hall.
  - cbn [app runBeforeHooks_from length]. rewrite bind_run, emit_run.
    by rewrite Nat.add_0_r.
  - apply Forall_cons in Hall as [Hg Hpre].
    cbn [app runBeforeHooks_from]. rewrite bind_run, emit_run.
    assert (Hgo : match g ctx with
                  | Returns (VBool false) => ret (VBool false)
                  | Returns (VString res) => ret (VString res)
                  | Returns _ => runBeforeHooks_from (S i) (pre ++ fn :: post) ctx
                  | Throws err => bind (_callErrorHooks err (InfoCtx ctx))
                                       (fun _ => ret (VBool false))
                  end = runBeforeHooks_from (S i) (pre ++ fn :: post) ctx).
    { by destruct (g ctx) as [[| |[]| |]|]. }
    rewrite Hgo, (IH _ _ _ _ _ Hpre), add_log_app.
    cbn [length]. by rewrite Nat.add_succ_r.
Qed.

(** X9: a [beforeEach] hook that throws ends the navigation like a hook
    that returns [false]: the error is passed to every [onError] hook once,
    with the navigation context, and nothing else happens: the hooks
    registered after it are not called, nothing is fetched or patched, the
    history is not written and the browser is not sent to the target. *)
Theorem beforeEach_exception_aborts
    (h : Host) (fuel : nat) (href : string) (o : NavOptions) (w : World)
    (full : string) (ctx : Ctx)
    (pre post : list (Ctx -> Outcome JSValue)) (fn : Ctx -> Outcome JSValue)
    (err : JSError) :
  URL_href h href (location_href w) = Some full ->
  full <> location_href w ->
  is_Some (elements w !! container (config (router w))) ->
  _buildCtx h full = Normal ctx ->
  hooks_beforeEach (hooks (router w)) = pre ++ fn :: post ->
  Forall (fun g => proceeds (g ctx) = true) pre ->
  fn ctx = Throws err ->
  navigate h (S fuel) href o w =
  (Normal tt,
   add_log (before_events 0 (S (length pre)) ctx
            ++ error_events 0 (length (hooks_onError (hooks (router w))))
                 err (InfoCtx ctx)) w).
Proof.
  intros Hfull Hne Hsf Hctx Hhooks Hpre Hfn.
  rewrite (navigate_start _ _ _ _ _ _ _ Hfull Hne Hsf Hctx).
  rewrite bind_run. unfold _runBeforeHooks. rewrite bind_run. cbn [get].
  rewrite Hhooks, (runBeforeHooks_from_stop _ _ _ _ _ _ Hpre), Hfn.
  rewrite bind_run, callErrorHooks_run, add_log_app. reflexivity.
Qed.

Lemma beforeEach_exception_aborts_witness :
  navigate online 1 "/about" nav_defaults (home failing) =
  (Normal tt,
   add_log [EvBeforeEach 0 ctx_about; EvBeforeEach 1 ctx_about;
            EvOnError 0 (Error "denied") (InfoCtx ctx_about);
            EvOnError 1 (Error "denied") (InfoCtx ctx_about)]
     (home failing)).
Proof.
  apply (beforeEach_exception_aborts online 0 "/about" nav_defaults
           (home failing) "http://example.com/about" ctx_about
           [hook_pass] [hook_veto] hook_fails (Error "denied")).
  - reflexivity.
  - discriminate.
  - eexists. reflexivity.
  - reflexivity.
  - reflexivity.
  - repeat constructor.
  - reflexivity.
Defined.

(** X10: when a [beforeEach] hook answers with a string, [navigate] starts
    over with that target: the hooks registered after it are not called for
    the first target, and the new navigation runs with the default options,
    so a [replace] or [scrollTop] given by the caller is dropped. *)
Theorem beforeEach_redirect_starts_over
    (h : Host) (fuel : nat) (href : string) (o : NavOptions) (w : World)
    (full : string) (ctx : Ctx)
    (pre post : list (Ctx -> Outcome JSValue)) (fn : Ctx -> Outcome JSValue)
    (target : string) :
  URL_href h href (location_href w) = Some full ->
  full <> location_href w ->
  is_Some (elements w !! container (config (router w))) ->
  _buildCtx h full = Normal ctx ->
  hooks_beforeEach (hooks (router w)) = pre ++ fn :: post ->
  Forall (fun g => proceeds (g ctx) = true) pre ->
  fn ctx = Returns (VString target) ->
  navigate h (S fuel) href o w =
  navigate h fuel target nav_defaults
    (add_log (before_events 0 (S (length pre)) ctx) w).
Proof.
  intros Hfull Hne Hsf Hctx Hhooks Hpre Hfn.
  rewrite (navigate_start _ _ _ _ _ _ _ Hfull Hne Hsf Hctx).
  rewrite bind_run. unfold _runBeforeHooks. rewrite bind_run. cbn [get].
  rewrite Hhooks, (runBeforeHooks_from_stop _ _ _ _ _ _ Hpre), Hfn.
  reflexivity.
Qed.

Lemma beforeEach_redirect_starts_over_witness :
  navigate online 2 "/about" {| replace := true; scrollTop := None |}
    (home authenticated) =
  navigate online 1 "/login" nav_defaults
    (add_log [EvBeforeEach 0 ctx_about; EvBeforeEach 1 ctx_about]
       (home authenticated)).
Proof.
  apply (beforeEach_redirect_starts_over online 1 "/about"
           {| replace := true; scrollTop := None |}
           (home authenticated) "http://example.com/about" ctx_about
           [hook_pass] [hook_veto] hook_auth "/login").
  - reflexivity.
  - discriminate.
  - eexists. reflexivity.
  - reflexivity.
  - reflexivity.
  - repeat constructor.
  - reflexivity.
Defined.

(** ** [afterEach] hooks *)

Lemma filter_after_events (p : Event -> bool) i n to :
  (forall j, p (EvAfterEach j to) = false) ->
  List.filter p (after_events i n to) = [].
Proof.
  intros Hp. unfold after_events. generalize i.
  induction n as [|n IH]; intros k; [reflexivity|].
  cbn. by rewrite Hp, IH.
Qed.

Lemma runAfterHooks_from_events fns : forall i to w,
  exists evs,
    runAfterHooks_from i fns to w = (Normal tt, add_log evs w)
    /\ List.filter is_afterEach evs = after_events i (length fns) to
    /\ List.filter is_onError evs
       = reported fns to (length (hooks_onError (hooks (router w))))
           (InfoAfter to)
    /\ Forall (fun e => is_afterEach e || is_onError e = true) evs.
Proof.
  induction fns as [|fn rest IH]; intros i to w.
  - exists []. cbn. by rewrite add_log_nil.
  - cbn [runAfterHooks_from]. rewrite bind_run, emit_run.
    set (w1 := add_log [EvAfterEach i to] w).
    destruct (fn to) as [[]|err] eqn:Hfn.
    + rewrite bind_run. cbn [ret].
      destruct (IH (S i) to w1) as (evs & Hrun & Hafter & Herr & Hall).
      exists (EvAfterEach i to :: evs). rewrite Hrun. unfold w1.
      rewrite add_log_app. split; [reflexivity|].
      cbn [List.filter is_afterEach is_onError length reported flat_map].
      rewrite Hafter, Herr, Hfn. repeat split; try reflexivity.
      by constructor.
    + rewrite bind_run, callErrorHooks_run.
      set (n := length (hooks_onError (hooks (router w1)))).
      set (w2 := add_log (error_events 0 n err (InfoAfter to)) w1).
      destruct (IH (S i) to w2) as (evs & Hrun & Hafter & Herr & Hall).
      exists (EvAfterEach i to :: error_events 0 n err (InfoAfter to) ++ evs).
      rewrite Hrun. unfold w2, w1. rewrite !add_log_app.
      split; [reflexivity|].
      cbn [List.filter is_afterEach is_onError length reported flat_map].
      rewrite !List.filter_app, Hafter, Herr, Hfn.
      rewrite (filter_error_events_none is_afterEach) by reflexivity.
      rewrite (filter_error_events is_onError) by reflexivity.
      repeat split; try reflexivity.
      constructor; [reflexivity|]. apply Forall_app. split; [|exact Hall].
      unfold error_events. apply Forall_fmap, Forall_forall. by intros.
Qed.

Lemma runAfterHooks_events (to : Ctx) (w : World) :
  exists evs,
    _runAfterHooks to w = (Normal tt, add_log evs w)
    /\ List.filter is_afterEach evs
       = after_events 0 (length (hooks_afterEach (hooks (router w)))) to
    /\ List.filter is_onError evs
       = reported (hooks_afterEach (hooks (router w))) to
           (length (hooks_onError (hooks (router w)))) (InfoAfter to)
    /\ Forall (fun e => is_afterEach e || is_onError e = true) evs.
Proof.
  unfold _runAfterHooks. rewrite bind_run. cbn [get].
  apply runAfterHooks_from_events.
Qed.

(** X11: [_runAfterHooks] calls every [afterEach] hook exactly once, in the
    order of registration, whether or not an earlier one throws, and never
    throws itself; the error of each hook that throws is passed to every
    [onError] hook once, and nothing else happens. *)
Theorem afterEach_hooks_all_run (to : Ctx) (w : World) :
  exists evs,
    _runAfterHooks to w = (Normal tt, add_log evs w)
    /\ List.filter is_afterEach evs
       = after_events 0 (length (hooks_afterEach (hooks (router w)))) to
    /\ List.filter is_onError evs
       = reported (hooks_afterEach (hooks (router w))) to
           (length (hooks_onError (hooks (router w)))) (InfoAfter to)
    /\ Forall (fun e => is_afterEach e || is_onError e = true) evs.
Proof. apply runAfterHooks_events. Qed.

(** ** History pop with a snapshot *)

(** X12: a history pop whose state carries a snapshot restores it without
    the network, the hooks or the history: the container is patched with
    the saved markup, the title is set to the saved title (it stays when
    the saved title is empty), the scripts are run and the active links are
    updated, in this order and with nothing else in between.  The location
    and the content cache are not written.  What [_updateActiveLinks] then
    does to the links is the subject of X25 and is not stated here. *)
Theorem popstate_with_snapshot_restores
    (h : Host) (fuel : nat) (st : HistoryState) (w : World) (sf : Surface) :
  elements w !! container (config (router w)) = Some sf ->
  hs_html st <> "" ->
  exists kids acts w',
    _patch h (sf_children sf) (hs_html st) = Normal (kids, acts)
    /\ _onPopState h fuel (Some st) w = (Normal tt, w')
    /\ events_since w w'
       = EvPatch (hs_html st)
         :: (EvActivate <$> acts ++ snd (_runScripts h kids))
         ++ [EvUpdateActiveLinks]
    /\ document_title w' = or_else (hs_title st) (document_title w)
    /\ location_href w' = location_href w
    /\ stateCache w' = stateCache w.
Proof.
  intros Hsf Hhtml.
  destruct (_patch_total h (sf_children sf) (hs_html st))
    as (kids & acts & Hpatch).
  exists kids, acts. eexists. split; [exact Hpatch|].
  unfold _onPopState. rewrite bind_run. cbn [get]. rewrite Hsf.
  assert (Htruthy : truthy_text (hs_html <$> Some st) = true).
  { cbn. by apply negb_true_iff, String.eqb_neq. }
  rewrite Htruthy. cbn [fmap option_fmap option_map default id].
  rewrite bind_run, (patch_surface_run _ _ _ _ _ _ _ Hsf Hpatch).
  rewrite bind_run. cbn [set_title modify]. rewrite bind_run.
  erewrite runScripts_surface_run
    by (cbn [elements with_title add_log with_surface];
        apply lookup_insert_eq).
  rewrite emit_run. cbn [sf_children sf_loading].
  split; [reflexivity|]. split.
  - apply events_since_app.
    cbn [log add_log with_surface with_title].
    rewrite <- !app_assoc. cbn [app]. by rewrite fmap_app, <- app_assoc.
  - done.
Qed.

Lemma popstate_with_snapshot_restores_witness :
  exists kids acts w',
    _patch online [] "<p>About</p>" = Normal (kids, acts)
    /\ _onPopState online 1
         (Some {| hs_html := "<p>About</p>"; hs_title := "";
                  hs_url := "http://example.com/about" |})
         (home Router0) = (Normal tt, w')
    /\ events_since (home Router0) w'
       = EvPatch "<p>About</p>"
         :: (EvActivate <$> acts ++ snd (_runScripts online kids))
         ++ [EvUpdateActiveLinks]
    /\ document_title w' = "Home"
    /\ location_href w' = "http://example.com/"
    /\ stateCache w' = ∅.
Proof.
  apply (popstate_with_snapshot_restores online 1
           {| hs_html := "<p>About</p>"; hs_title := "";
              hs_url := "http://example.com/about" |}
           (home Router0) {| sf_children := []; sf_loading := false |}).
  - reflexivity.
  - discriminate.
Defined.

(** ** Clicks the router leaves to the browser *)

(** X13: the click listener does nothing at all (it does not even call
    [preventDefault]) when the event is already handled, when the click is
    made with another button or with a modifier key, or when the link
    points to another origin or to an address that does not parse. *)
Theorem click_left_to_browser
    (h : Host) (fuel : nat) (e : MouseEvent) (w : World) :
  defaultPrevented e = true
  \/ modified e = true
  \/ (forall attrs href,
        clicked_link e w = Some attrs -> link_href attrs = Some href ->
        _matchesLocal h w href = false) ->
  onClick h fuel e w = (Normal tt, w).
Proof.
  intros Hcase. unfold onClick.
  destruct (defaultPrevented e) eqn:Hprevented; [reflexivity|].
  rewrite bind_run. cbn [get].
  change (match closest e (linkSelector (config (router w))) with
          | Some el => Some el
          | None => closest e "[data-route],[data-href]"
          end) with (clicked_link e w).
  destruct (clicked_link e w) as [attrs|] eqn:Hlink; [|reflexivity].
  change (negb (button e =? 0)%Z || metaKey e || ctrlKey e || shiftKey e
          || altKey e) with (modified e).
  destruct (modified e) eqn:Hmod; [reflexivity|].
  destruct (link_href attrs) as [href|] eqn:Hhref; [|reflexivity].
  destruct Hcase as [Hcase|[Hcase|Hcase]]; try discriminate.
  by rewrite (Hcase attrs href eq_refl Hhref).
Qed.

Lemma click_left_to_browser_witness :
  onClick online 1 ctrl_click (home observed) = (Normal tt, home observed).
Proof.
  apply (click_left_to_browser online 1 ctrl_click (home observed)).
  right. left. reflexivity.
Defined.

(** ** Hover prefetch *)

(** X14: a link is prefetched at most once: after a hover fetched the page
    and stored it in the content cache, a second hover over the same link
    sends no request and changes nothing. *)
Theorem hover_prefetches_once
    (h : Host) (e : MouseEvent) (w : World) (full st body : string) :
  prefetches_page h e w full ->
  fetch h full = Reply true st body ->
  exists w1,
    hoverHandler h e w = (Normal tt, w1)
    /\ events_since w w1 = [EvFetch full]
    /\ is_Some (stateCache w1 !! full)
    /\ hoverHandler h e w1 = (Normal tt, w1).
Proof.
  intros Hpre Hfetch. eexists. split; [by eapply hoverHandler_prefetch|].
  split; [apply events_since_app; reflexivity|].
  split; [cbn; rewrite lookup_insert_eq; by eexists|].
  destruct Hpre as (attrs & href & Hclosest & Hon & Hhref & Hfull & _).
  unfold hoverHandler. rewrite bind_run. cbn [get].
  cbn [router with_cached add_log location_href stateCache].
  rewrite Hclosest.
  assert (Hskip : negb (prefetchOnHover (config (router w)))
                  && negb (hasAttribute "data-prefetch" attrs) = false).
  { destruct Hon as [-> | ->]; [reflexivity|apply andb_false_r]. }
  rewrite Hskip, Hhref, Hfull, lookup_insert_eq.
  rewrite (bool_decide_eq_true_2 _ (mk_is_Some _ _ eq_refl)).
  reflexivity.
Qed.

Lemma hover_prefetches_once_witness :
  exists w1,
    hoverHandler online (click_on "/about") started = (Normal tt, w1)
    /\ events_since started w1 = [EvFetch "http://example.com/about"]
    /\ is_Some (stateCache w1 !! "http://example.com/about")
    /\ hoverHandler online (click_on "/about") w1 = (Normal tt, w1).
Proof.
  apply (hover_prefetches_once online (click_on "/about") started
           "http://example.com/about" "OK" "<p>About</p>").
  - exists [("href", "/about"); ("data-router", "")], "/about".
    repeat split; try reflexivity. by left.
  - reflexivity.
Defined.

(** X15: a prefetch that fails is silent: when the request of the hover
    listener is rejected or answered with a status that is not a success,
    the request is all that happened; no [onError] hook is called, nothing
    is cached and nothing is logged. *)
Theorem hover_prefetch_failure_is_silent
    (h : Host) (e : MouseEvent) (w : World) (full : string) (err : JSError) :
  prefetches_page h e w full ->
  transport_failure h full = Some err ->
  hoverHandler h e w = (Normal tt, add_log [EvFetch full] w).
Proof.
  intros (attrs & href & Hclosest & Hon & Hhref & Hfull & Hsc & Hlc & Hroute)
         Hfail.
  unfold hoverHandler. rewrite bind_run. cbn [get]. rewrite Hclosest.
  assert (Hskip : negb (prefetchOnHover (config (router w)))
                  && negb (hasAttribute "data-prefetch" attrs) = false).
  { destruct Hon as [-> | ->]; [reflexivity|apply andb_false_r]. }
  rewrite Hskip, Hhref, Hfull, Hsc, Hlc.
  rewrite !bool_decide_eq_false_2 by (by intros [? ?]). cbn [orb].
  assert (Hhtml :
    bind (emit (EvFetch full))
      (fun _ =>
         match fetch h full with
         | Reply true _ body =>
             stateCache_set full
               {| html := default (doc_body (parseDocument h body))
                            (doc_querySelector (parseDocument h body)
                               (container (config (router w))));
                  title := default "" (doc_title (parseDocument h body)) |}
         | _ => ret tt
         end) w = (Normal tt, add_log [EvFetch full] w)).
  { rewrite bind_run, emit_run. unfold transport_failure in Hfail.
    by destruct (fetch h full) as [?|[] ? ?]. }
  destruct (_matchRoute h (router w) full) as [m|]; [|exact Hhtml].
  by rewrite Hroute.
Qed.

Lemma hover_prefetch_failure_is_silent_witness :
  hoverHandler offline (click_on "/about") (home reporting)
  = (Normal tt, add_log [EvFetch "http://example.com/about"] (home reporting)).
Proof.
  apply (hover_prefetch_failure_is_silent offline (click_on "/about")
           (home reporting) "http://example.com/about"
           (TypeError "Failed to fetch")).
  - exists [("href", "/about"); ("data-router", "")], "/about".
    repeat split; try reflexivity. by left.
  - reflexivity.
Defined.

(** ** A page without the container *)

(** X16: when the document has no element for the container selector,
    [navigate] hands the target to the browser at once, before any hook
    runs and without a request, and a history pop does nothing. *)
Theorem missing_container_falls_back
    (h : Host) (fuel : nat) (href : string) (o : NavOptions) (w : World)
    (full : string) (state : option HistoryState) :
  elements w !! container (config (router w)) = None ->
  URL_href h href (location_href w) = Some full ->
  full <> location_href w ->
  navigate h (S fuel) href o w = (Normal tt, add_log [EvAssignLocation href] w)
  /\ _onPopState h fuel state w = (Normal tt, w).
Proof.
  intros Hnone Hfull Hne. split.
  - cbn [navigate]. rewrite bind_run. cbn [get]. rewrite Hfull.
    apply String.eqb_neq in Hne. by rewrite Hne, Hnone.
  - unfold _onPopState. rewrite bind_run. cbn [get]. by rewrite Hnone.
Qed.

Lemma missing_container_falls_back_witness :
  navigate online 1 "/about" nav_defaults (bare guarded)
  = (Normal tt, add_log [EvAssignLocation "/about"] (bare guarded))
  /\ _onPopState online 0 None (bare guarded) = (Normal tt, bare guarded).
Proof.
  apply (missing_container_falls_back online 0 "/about" nav_defaults
           (bare guarded) "http://example.com/about" None).
  - reflexivity.
  - reflexivity.
  - discriminate.
Defined.

(** ** Route patterns without parameter and wildcard *)

Lemma literal_not_star c : literal c = true -> c <> "*"%char.
Proof. by intros Hc ->. Qed.

Lemma literal_not_colon c : literal c = true -> c <> ":"%char.
Proof. by intros Hc ->. Qed.

Lemma replace_escaped_star_none s :
  Forall (fun c => c <> "*"%char) s -> replace_escaped_star s = s.
Proof.
  induction 1 as [|c s Hc Hs IH]; [reflexivity|].
  destruct (ascii_dec c "\") as [->|Hb].
  - destruct Hs as [|d s Hd Hs]; [reflexivity|].
    transitivity ("\"%char :: replace_escaped_star (d :: s));
      [|by rewrite IH].
    destruct d as [[] [] [] [] [] [] [] []]; try reflexivity. by destruct Hd.
  - transitivity (c :: replace_escaped_star s); [|by rewrite IH].
    destruct c as [[] [] [] [] [] [] [] []]; try reflexivity. by destruct Hb.
Qed.

Lemma replace_params_none s :
  Forall (fun c => c <> ":"%char) s -> replace_params 0 s = (s, []).
Proof.
  induction 1 as [|c s Hc Hs IH]; [reflexivity|].
  cbn [replace_params]. apply Ascii.eqb_neq in Hc. by rewrite Hc, IH.
Qed.

Lemma escape_specials_avoids (a : ascii) p :
  a <> "\"%char ->
  Forall (fun c => c <> a) p ->
  Forall (fun c => c <> a) (escape_specials p).
Proof.
  intros Ha Hp. unfold escape_specials.
  induction Hp as [|c p Hc _ IH]; [constructor|].
  cbn [flat_map]. destruct (special c); cbn [app]; repeat constructor; auto.
Qed.

(** The source [_pathToRegex] builds for such a pattern: the escaped
    pattern between the anchors, and no key. *)
Lemma regex_source_literal path :
  Forall (fun c => literal c = true) (chars path) ->
  regex_source path
  = (text ("^"%char :: escape_specials (chars path) ++ ["$"%char]), []).
Proof.
  intros Hlit. unfold regex_source.
  rewrite replace_escaped_star_none, replace_params_none; [reflexivity| |].
  - apply escape_specials_avoids; [discriminate|].
    eapply Forall_impl; [exact Hlit|]. apply literal_not_colon.
  - apply escape_specials_avoids; [discriminate|].
    eapply Forall_impl; [exact Hlit|]. apply literal_not_star.
Qed.

(** No quantifier follows: the text starts with an escaped or plain
    pattern character, or with the closing anchor. *)
Lemma parse_quantifier_literal atom p t :
  Forall (fun c => literal c = true) p ->
  parse_quantifier atom (escape_specials p ++ "$"%char :: t)
  = Normal (atom, escape_specials p ++ "$"%char :: t).
Proof.
  intros Hp. destruct Hp as [|c p Hc _]; [reflexivity|].
  unfold escape_specials. cbn [flat_map].
  destruct c as [[] [] [] [] [] [] [] []]; try discriminate Hc; reflexivity.
Qed.

Lemma parse_literal_unit fuel c r n cur alts :
  literal c = true ->
  (forall atom, parse_quantifier atom r = Normal (atom, r)) ->
  parse_disjunction (S fuel)
    ((if special c then ["\"%char; c] else [c]) ++ r) n cur alts
  = parse_disjunction fuel r n (cur ++ [RChar c]) alts.
Proof.
  intros Hc Hq.
  destruct c as [[] [] [] [] [] [] [] []]; try discriminate Hc;
    cbn [special one_of chars list_ascii_of_string existsb Ascii.eqb
         Bool.eqb orb andb app parse_disjunction identity_escape is_letter
         is_digit is_upper is_lower in_range code nat_of_ascii];
    by rewrite Hq.
Qed.

Lemma length_escape_specials p : length p <= length (escape_specials p).
Proof.
  unfold escape_specials. induction p as [|c p IH]; [done|].
  cbn [flat_map length]. rewrite length_app.
  destruct (special c); cbn [length]; lia.
Qed.

Lemma parse_literal p : forall fuel t n cur alts,
  Forall (fun c => literal c = true) p ->
  parse_disjunction (length p + fuel) (escape_specials p ++ "$"%char :: t)
    n cur alts
  = parse_disjunction fuel ("$"%char :: t) n (cur ++ (RChar <$> p)) alts.
Proof.
  induction p as [|c p IH]; intros fuel t n cur alts Hp.
  - cbn. by rewrite app_nil_r.
  - apply Forall_cons in Hp as [Hc Hp].
    change (escape_specials (c :: p))
      with ((if special c then ["\"%char; c] else [c]) ++ escape_specials p).
    rewrite <- app_assoc. cbn [length Nat.add].
    rewrite parse_literal_unit;
      [|exact Hc|intros atom; by apply parse_quantifier_literal].
    rewrite IH by exact Hp. cbn [fmap list_fmap].
    by rewrite <- app_assoc.
Qed.

(** The expression [new RegExp] builds for such a pattern: the characters
    of the pattern, one by one, between the two anchors. *)
Lemma RegExp_new_literal p :
  Forall (fun c => literal c = true) p ->
  RegExp_new (text ("^"%char :: escape_specials p ++ ["$"%char]))
  = Normal {| source := text ("^"%char :: escape_specials p ++ ["$"%char]);
              pattern := seq_of (RBol :: (RChar <$> p) ++ [REol]);
              ncaptures := 0 |}.
Proof.
  intros Hp. unfold RegExp_new. rewrite chars_text.
  cbn [length]. rewrite length_app. cbn [length].
  pose proof (length_escape_specials p) as Hlen.
  replace (S (S (length (escape_specials p) + 1)))
    with (S (length p + (S (S (length (escape_specials p) - length p)))))
    by lia.
  cbn [parse_disjunction app].
  rewrite (parse_literal p _ [] 0 _ [] Hp).
  cbn [parse_disjunction app alt_of]. reflexivity.
Qed.

Lemma matcher_seq_of r l x k :
  matcher (seq_of (r :: l)) x k
  = matcher r x (fun y => matcher (seq_of l) y k).
Proof. destruct l; reflexivity. Qed.

Lemma matcher_literal p : forall s j caps k,
  matcher (seq_of ((RChar <$> p) ++ [REol]))
    {| ms_rest := s; ms_pos := j; ms_caps := caps |} k
  = if bool_decide (s = p)
    then k {| ms_rest := []; ms_pos := j + length p; ms_caps := caps |}
    else None.
Proof.
  induction p as [|c p IH]; intros s j caps k.
  - cbn. rewrite Nat.add_0_r. by destruct s.
  - cbn [fmap list_fmap app]. rewrite matcher_seq_of.
    cbn [matcher]. unfold one_char. cbn [ms_rest].
    destruct s as [|d s].
    { by rewrite bool_decide_eq_false_2. }
    destruct (Ascii.eqb_spec c d) as [->|Hne].
    + unfold advance. cbn [ms_pos ms_caps]. rewrite IH.
      cbn [length]. rewrite Nat.add_succ_r.
      case_bool_decide as Hs.
      * subst. by rewrite bool_decide_eq_true_2.
      * rewrite bool_decide_eq_false_2; [done|]. congruence.
    + rewrite bool_decide_eq_false_2; [done|]. congruence.
Qed.

Lemma exec_from_anchored re body rest : forall pos,
  pattern re = RSeq RBol body -> pos <> 0 -> exec_from re rest pos = None.
Proof.
  induction rest as [|c rest IH]; intros pos Hre Hpos;
    cbn [exec_from]; rewrite Hre; cbn [matcher ms_pos];
    apply Nat.eqb_neq in Hpos as Hpos'; rewrite Hpos'; [done|].
  by apply IH.
Qed.

Lemma exec_from_unfold re rest pos :
  exec_from re rest pos
  = match matcher (pattern re)
            {| ms_rest := rest; ms_pos := pos;
               ms_caps := replicate (ncaptures re) None |} Some with
    | Some y => Some (Some (firstn (ms_pos y - pos) rest) :: ms_caps y)
    | None =>
        match rest with
        | [] => None
        | _ :: rest' => exec_from re rest' (S pos)
        end
    end.
Proof. by destruct rest. Qed.

Lemma exec_from_literal src p s :
  exec_from {| source := src;
               pattern := seq_of (RBol :: (RChar <$> p) ++ [REol]);
               ncaptures := 0 |} s 0
  = if bool_decide (s = p) then Some [Some s] else None.
Proof.
  rewrite exec_from_unfold. cbn [pattern ncaptures replicate].
  rewrite matcher_seq_of. cbn [matcher ms_pos Nat.eqb].
  rewrite matcher_literal. case_bool_decide as Hs.
  - subst. cbn [ms_pos ms_caps]. by rewrite Nat.add_0_l, Nat.sub_0_r, firstn_all.
  - destruct s as [|c s]; [reflexivity|].
    eapply exec_from_anchored; [|done].
    cbn [pattern]. by destruct p.
Qed.

Lemma literal_pattern_matches_itself_aux (path : string) :
  Forall (fun c => literal c = true) (chars path) ->
  exists re,
    _pathToRegex path = Normal (re, [])
    /\ forall s, String_match s re
                 = if String.eqb s path then Some [Some s] else None.
Proof.
  intros Hlit. unfold _pathToRegex.
  rewrite (regex_source_literal path Hlit), (RegExp_new_literal _ Hlit).
  eexists. split; [reflexivity|]. intros s.
  unfold String_match. rewrite exec_from_literal.
  destruct (String.eqb_spec s path) as [->|Hne].
  - rewrite bool_decide_eq_true_2 by done. cbn. by rewrite text_chars.
  - rewrite bool_decide_eq_false_2; [done|].
    intros Heq. apply Hne.
    by rewrite <- (text_chars s), <- (text_chars path), Heq.
Qed.

(** X17: a route pattern without star, opening bracket and colon compiles,
    has no key, and matches exactly one path name: the pattern itself.
    Every other character, the regular-expression metacharacters included,
    stands for itself. *)
Theorem literal_pattern_matches_itself (path : string) :
  Forall (fun c => literal c = true) (chars path) ->
  exists re,
    _pathToRegex path = Normal (re, [])
    /\ forall s, String_match s re
                 = if String.eqb s path then Some [Some s] else None.
Proof. apply literal_pattern_matches_itself_aux. Qed.

Lemma literal_pattern_matches_itself_witness :
  exists re,
    _pathToRegex "/docs/v1.2/(draft)" = Normal (re, [])
    /\ forall s, String_match s re
                 = if String.eqb s "/docs/v1.2/(draft)"
                   then Some [Some s] else None.
Proof.
  apply (literal_pattern_matches_itself "/docs/v1.2/(draft)").
  repeat constructor.
Defined.

Lemma match_routes_none h rs pathname search :
  Forall (fun r => String_match pathname (regex r) = None) rs ->
  match_routes h rs pathname search = None.
Proof.
  induction 1 as [|r rs Hr _ IH]; [reflexivity|].
  cbn [match_routes]. by rewrite Hr.
Qed.

(** X18: the round trip that works.  After [route(path)] for a pattern
    without star, opening bracket and colon, [_matchRoute] answers a URL
    whose path name is the pattern with the new route, no parameters and
    the parsed query, unless a route registered earlier matches the path;
    and the new route matches no other path. *)
Theorem literal_route_is_found
    (h : Host) (R : Router) (rpath : string) (opts : RouteOptions)
    (url search : string) :
  Forall (fun c => literal c = true) (chars rpath) ->
  URL_parts h url = Some (rpath, search) ->
  Forall (fun r => String_match rpath (regex r) = None) (routes R) ->
  exists R' r,
    route rpath opts R = Normal R'
    /\ routes R' = routes R ++ [r]
    /\ path r = rpath /\ keys r = [] /\ options r = opts
    /\ _matchRoute h R' url
       = Some {| mr_route := r; mr_params := ∅;
                 mr_query := _parseQuery h search; mr_pathname := rpath |}
    /\ forall url' other search',
         URL_parts h url' = Some (other, search') ->
         other <> rpath ->
         Forall (fun r => String_match other (regex r) = None) (routes R) ->
         _matchRoute h R' url' = None.
Proof.
  intros Hlit Hurl Hnone.
  destruct (literal_pattern_matches_itself_aux rpath Hlit)
    as (re & Hre & Hmatch).
  unfold route. rewrite Hre. eexists _, _.
  split; [reflexivity|]. cbn [routes path keys options regex].
  repeat (split; [reflexivity|]). split.
  - unfold _matchRoute. rewrite Hurl. cbn [routes mbind option_bind].
    rewrite (match_routes_first h (routes R) _ [] rpath search
               [Some rpath]); [reflexivity|exact Hnone|].
    cbn [regex]. by rewrite Hmatch, String.eqb_refl.
  - intros url' other search' Hurl' Hne Hnone'.
    unfold _matchRoute. rewrite Hurl'. cbn [routes mbind option_bind].
    apply match_routes_none, Forall_app. split; [exact Hnone'|].
    constructor; [|constructor]. cbn [regex]. rewrite Hmatch.
    by apply String.eqb_neq in Hne as ->.
Qed.

Lemma literal_route_is_found_witness :
  exists R' r,
    route "/about" no_options Router0 = Normal R'
    /\ routes R' = routes Router0 ++ [r]
    /\ path r = "/about" /\ keys r = [] /\ options r = no_options
    /\ _matchRoute online R' "http://example.com/about"
       = Some {| mr_route := r; mr_params := ∅;
                 mr_query := _parseQuery online ""; mr_pathname := "/about" |}
    /\ forall url' other search',
         URL_parts online url' = Some (other, search') ->
         other <> "/about" ->
         Forall (fun r => String_match other (regex r) = None)
                (routes Router0) ->
         _matchRoute online R' url' = None.
Proof.
  apply (literal_route_is_found online Router0 "/about" no_options
           "http://example.com/about" "").
  - repeat constructor.
  - reflexivity.
  - constructor.
Defined.
(** ** No registered route has a parameter *)

Lemma parse_class_atoms_unfold fuel s acc :
  parse_class_atoms (S fuel) s acc
  = match s with
    | [] => Throw (SyntaxError "Unterminated character class")
    | "]"%char :: r => Normal (acc, r)
    | _ =>
      match class_atom s with
      | Normal (lo, r) =>
        match r with
        | "-"%char :: "]"%char :: r' =>
            Normal (acc ++ [(lo, lo); ("-"%char, "-"%char)], r')
        | "-"%char :: r' =>
          match class_atom r' with
          | Normal (hi, r'') =>
              if (code hi <? code lo)%nat
              then Throw (SyntaxError "Range out of order in character class")
              else parse_class_atoms fuel r'' (acc ++ [(lo, hi)])
          | Throw e => Throw e
          | Beyond => Beyond
          end
        | _ => parse_class_atoms fuel r (acc ++ [(lo, lo)])
        end
      | Throw e => Throw e
      | Beyond => Beyond
      end
    end.
Proof. reflexivity. Qed.

Lemma unmatched_class_char c r :
  c <> "\"%char -> c <> "]"%char -> unmatched true (c :: r) = unmatched true r.
Proof.
  intros Hb Hc.
  destruct c as [[] [] [] [] [] [] [] []]; try reflexivity; congruence.
Qed.

Lemma class_atom_scan s lo r :
  class_atom s = Normal (lo, r) ->
  (forall r', s <> "]"%char :: r') ->
  unmatched true s = unmatched true r.
Proof.
  destruct s as [|c s]; [discriminate|]. intros Hatom Hclose.
  destruct (ascii_dec c "\") as [->|Hb].
  - destruct s as [|d s]; [discriminate|]. cbn in Hatom.
    destruct (identity_escape d); [|discriminate]. by injection Hatom as _ <-.
  - assert (Hc : class_atom (c :: s) = Normal (c, s)).
    { destruct c as [[] [] [] [] [] [] [] []]; try reflexivity. by destruct Hb. }
    rewrite Hc in Hatom. injection Hatom as _ <-.
    apply unmatched_class_char; [done|]. intros ->. by eapply Hclose.
Qed.

Lemma match_close {A} c r (x : A) (a : list ascii -> A) (b : A) :
  c <> "]"%char ->
  match c :: r with
  | [] => x
  | "]"%char :: r' => a r'
  | _ => b
  end = b.
Proof.
  intros Hc. destruct c as [[] [] [] [] [] [] [] []]; try reflexivity.
  by destruct Hc.
Qed.

Lemma parse_class_atoms_step fuel s acc :
  parse_class_atoms (S fuel) s acc
  = match s with
    | [] => Throw (SyntaxError "Unterminated character class")
    | c :: r0 =>
      if Ascii.eqb c "]" then Normal (acc, r0)
      else
        match class_atom s with
        | Normal (lo, r) =>
          let range (r' : list ascii) :=
            match class_atom r' with
            | Normal (hi, r'') =>
                if (code hi <? code lo)%nat
                then Throw (SyntaxError
                              "Range out of order in character class")
                else parse_class_atoms fuel r'' (acc ++ [(lo, hi)])
            | Throw e => Throw e
            | Beyond => Beyond
            end in
          match r with
          | d :: r1 =>
            if Ascii.eqb d "-" then
              match r1 with
              | e :: r2 =>
                  if Ascii.eqb e "]"
                  then Normal (acc ++ [(lo, lo); ("-"%char, "-"%char)], r2)
                  else range r1
              | [] => range []
              end
            else parse_class_atoms fuel r (acc ++ [(lo, lo)])
          | [] => parse_class_atoms fuel r (acc ++ [(lo, lo)])
          end
        | Throw e => Throw e
        | Beyond => Beyond
        end
    end.
Proof.
  destruct s as [|c r0]; [reflexivity|].
  rewrite parse_class_atoms_unfold.
  destruct (Ascii.eqb_spec c "]") as [->|Hc]; [reflexivity|].
  rewrite (match_close c r0
             (Throw (SyntaxError "Unterminated character class"))
             (fun r' => Normal (acc, r'))) by exact Hc.
  destruct (class_atom (c :: r0)) as [[lo r]| |]; try reflexivity.
  destruct r as [|d r1]; [reflexivity|].
  destruct (Ascii.eqb_spec d "-") as [->|Hd].
  - destruct r1 as [|e r2]; [reflexivity|].
    destruct (Ascii.eqb_spec e "]") as [->|He]; [reflexivity|].
    cbv zeta.
    destruct e as [[] [] [] [] [] [] [] []]; try reflexivity. by destruct He.
  - cbv zeta.
    destruct d as [[] [] [] [] [] [] [] []]; try reflexivity. by destruct Hd.
Qed.

Lemma parse_class_atoms_scan fuel : forall s acc ranges r,
  parse_class_atoms fuel s acc = Normal (ranges, r) ->
  unmatched true s = unmatched false r.
Proof.
  induction fuel as [|fuel IH]; intros s acc ranges r Hrun; [discriminate|].
  rewrite parse_class_atoms_step in Hrun.
  destruct s as [|c s0]; [discriminate|].
  destruct (Ascii.eqb_spec c "]") as [->|Hc]; [by injection Hrun as _ <-|].
  destruct (class_atom (c :: s0)) as [[lo r1]| |] eqn:Hatom; try discriminate.
  rewrite (class_atom_scan _ _ _ Hatom) by congruence.
  cbv zeta in Hrun.
  destruct r1 as [|d r2]; [by eapply IH|].
  destruct (Ascii.eqb_spec d "-") as [->|Hd]; [|by eapply IH].
  destruct r2 as [|e r3]; [discriminate|].
  destruct (Ascii.eqb_spec e "]") as [->|He]; [by injection Hrun as _ <-|].
  destruct (class_atom (e :: r3)) as [[hi r4]| |] eqn:Hatom2; try discriminate.
  destruct (code hi <? code lo); [discriminate|].
  change (unmatched true ("-"%char :: e :: r3))
    with (unmatched true (e :: r3)).
  rewrite (class_atom_scan _ _ _ Hatom2) by congruence.
  by eapply IH.
Qed.

Lemma parse_class_scan r cls r' :
  parse_class r = Normal (cls, r') ->
  unmatched true r = unmatched false r'.
Proof.
  unfold parse_class. destruct r as [|c r0]; [discriminate|].
  destruct (ascii_dec c "^") as [->|Hc].
  - destruct (parse_class_atoms _ r0 []) as [[ranges r1]| |] eqn:Hrun;
      try discriminate.
    intros [= _ <-]. change (unmatched true r0 = unmatched false r1).
    by eapply parse_class_atoms_scan.
  - assert (Hbody :
      match c :: r0 with
      | "^"%char :: r => (true, r)
      | _ => (false, c :: r0)
      end = (false, c :: r0)).
    { destruct c as [[] [] [] [] [] [] [] []]; try reflexivity.
      by destruct Hc. }
    rewrite Hbody.
    destruct (parse_class_atoms _ (c :: r0) []) as [[ranges r1]| |] eqn:Hrun;
      try discriminate.
    intros [= _ <-]. by eapply parse_class_atoms_scan.
Qed.

Lemma parse_quantifier_scan atom s :
  (exists t r, parse_quantifier atom s = Normal (t, r)
               /\ unmatched false r = unmatched false s)
  \/ parse_quantifier atom s = Beyond.
Proof.
  destruct s as [|c r]; [left; by eexists _, _|].
  destruct c as [[] [] [] [] [] [] [] []];
    try (left; eexists _, _; split; reflexivity);
    try (right; reflexivity);
    (destruct r as [|d r']; [left; eexists _, _; split; reflexivity|]);
    destruct d as [[] [] [] [] [] [] [] []];
    left; eexists _, _; split; reflexivity.
Qed.

(** A source with such a parenthesis is never read to its end. *)
Lemma parse_disjunction_unmatched fuel : forall s n cur alts r n',
  unmatched false s = true ->
  parse_disjunction fuel s n cur alts <> Normal (r, [], n').
Proof.
  induction fuel as [|fuel IH]; intros s n cur alts r n' Hs Hrun;
    [discriminate|].
  assert (Hcont : forall atom s0 n0,
    unmatched false s0 = true ->
    match parse_quantifier atom s0 with
    | Normal (t, r0) => parse_disjunction fuel r0 n0 (cur ++ [t]) alts
    | Throw e => Throw e
    | Beyond => Beyond
    end <> Normal (r, [], n')).
  { intros atom s0 n0 Hs0.
    destruct (parse_quantifier_scan atom s0) as [(t & r0 & -> & Hscan)| ->];
      [|discriminate].
    apply IH. by rewrite Hscan. }
  destruct s as [|c s0]; [discriminate Hs|].
  destruct c as [[] [] [] [] [] [] [] []];
    cbn [unmatched] in Hs; try discriminate Hs;
    cbn [parse_disjunction] in Hrun; try discriminate Hrun;
    try (by eapply IH); try (by eapply Hcont).
  - (* a character class *)
    destruct (parse_class s0) as [[cls r1]| |] eqn:Hcls; try discriminate.
    apply parse_class_scan in Hcls. rewrite Hcls in Hs.
    by eapply Hcont.
  - (* an escape *)
    destruct s0 as [|d s1]; [discriminate|].
    destruct (identity_escape d); [|discriminate].
    by eapply Hcont.
Qed.

Lemma RegExp_new_unmatched src :
  unmatched false (chars src) = true ->
  forall re, RegExp_new src <> Normal re.
Proof.
  intros Hs re. unfold RegExp_new.
  destruct (parse_disjunction _ (chars src) 0 [] []) as [[[r rest] n]| |] eqn:E;
    try discriminate.
  destruct rest; [|discriminate].
  by apply parse_disjunction_unmatched in E.
Qed.

Lemma replace_escaped_star_cons c r :
  c <> "\"%char ->
  replace_escaped_star (c :: r) = c :: replace_escaped_star r.
Proof.
  intros Hc. destruct c as [[] [] [] [] [] [] [] []]; try reflexivity.
  by destruct Hc.
Qed.

Lemma replace_escaped_star_backslash d r :
  d <> "*"%char ->
  replace_escaped_star ("\"%char :: d :: r)
  = "\"%char :: replace_escaped_star (d :: r).
Proof.
  intros Hd. destruct d as [[] [] [] [] [] [] [] []]; try reflexivity.
  by destruct Hd.
Qed.

Lemma escape_specials_cons c p :
  escape_specials (c :: p)
  = (if special c then ["\"%char; c] else [c]) ++ escape_specials p.
Proof. reflexivity. Qed.

Lemma escaped_source_bounded k : forall p,
  length p <= k -> escaped (replace_escaped_star (escape_specials p)).
Proof.
  induction k as [|k IH]; intros p Hlen.
  { destruct p; [constructor|cbn in Hlen; lia]. }
  destruct p as [|c rest]; [constructor|]. cbn [length] in Hlen.
  rewrite escape_specials_cons.
  destruct (special c) eqn:Hsp; cbn [app].
  - destruct (ascii_dec c "\") as [->|Hb].
    + destruct rest as [|d rest'].
      { apply (escaped_special "\" []); [reflexivity|constructor]. }
      cbn [length] in Hlen.
      destruct (ascii_dec d "*") as [->|Hd].
      * change (replace_escaped_star
                  ("\"%char :: "\"%char :: escape_specials ("*"%char :: rest')))
          with ("\"%char :: chars "(.*)"
                ++ replace_escaped_star (escape_specials rest')).
        apply escaped_star, IH. lia.
      * rewrite replace_escaped_star_backslash by discriminate.
        assert (Hnext : replace_escaped_star
                  ("\"%char :: escape_specials (d :: rest'))
                = "\"%char
                  :: replace_escaped_star (escape_specials (d :: rest'))).
        { rewrite escape_specials_cons.
          destruct (special d); cbn [app];
            by rewrite replace_escaped_star_backslash. }
        rewrite Hnext. apply escaped_special; [reflexivity|].
        apply IH. cbn [length]. lia.
    + rewrite replace_escaped_star_backslash by (by intros ->).
      rewrite replace_escaped_star_cons by exact Hb.
      apply escaped_special; [exact Hsp|]. apply IH. lia.
  - rewrite replace_escaped_star_cons by (by intros ->).
    apply escaped_plain; [exact Hsp|]. apply IH. lia.
Qed.

Lemma unmatched_plain m c :
  special c = false ->
  exists m', forall s, unmatched m (c :: s) = unmatched m' s.
Proof.
  intros Hc.
  destruct c as [[] [] [] [] [] [] [] []]; try discriminate Hc;
    first [by exists m | by exists true | by exists false].
Qed.

Lemma unmatched_escape m c s :
  unmatched m ("\"%char :: c :: s) = unmatched m s.
Proof. reflexivity. Qed.

(** A source with a parameter capture has an unmatched parenthesis: the
    opening one of the capture follows the backslash that escapes the
    colon. *)
Lemma escaped_params_unmatched s :
  escaped s ->
  forall m tail,
    snd (replace_params 0 s) <> [] ->
    unmatched m (fst (replace_params 0 s) ++ tail) = true.
Proof.
  induction 1 as [|c r Hc Hr IH|c r Hc Hr IH|r Hr IH]; intros m tail Hkeys.
  - by destruct Hkeys.
  - assert (Hcolon : Ascii.eqb c ":" = false).
    { apply Ascii.eqb_neq. by intros ->. }
    cbn [replace_params] in *. rewrite Hcolon in *. cbn [andb] in *.
    destruct (replace_params 0 r) as [out keys] eqn:Hrest.
    cbn [fst snd app] in *.
    destruct (unmatched_plain m c Hc) as [m' ->]. by apply IH.
  - cbn [replace_params Ascii.eqb Bool.eqb andb] in *.
    destruct (Ascii.eqb c ":" && negb (length (take_while key_char r) =? 0)).
    + destruct (replace_params (length (take_while key_char r)) r)
        as [out keys].
      cbn [fst snd app chars list_ascii_of_string].
      by destruct m.
    + destruct (replace_params 0 r) as [out keys] eqn:Hrest.
      cbn [fst snd app] in *. rewrite unmatched_escape. by apply IH.
  - cbn [replace_params Ascii.eqb Bool.eqb andb app chars
         list_ascii_of_string] in *.
    destruct (replace_params 0 r) as [out keys] eqn:Hrest.
    cbn [fst snd app] in *.
    destruct m; [|reflexivity]. by apply IH.
Qed.

Lemma pathToRegex_no_keys path re ks :
  _pathToRegex path = Normal (re, ks) -> ks = [].
Proof.
  unfold _pathToRegex, regex_source.
  pose proof (escaped_source_bounded _ (chars path) (Nat.le_refl _)) as Hesc.
  pose proof (escaped_params_unmatched _ Hesc false ["$"%char]) as Hscan.
  destruct (replace_params 0 _) as [out keys].
  destruct (RegExp_new _) as [re'| |] eqn:Hnew; try discriminate.
  intros [= _ <-].
  destruct keys as [|k keys]; [reflexivity|].
  exfalso. eapply RegExp_new_unmatched; [|exact Hnew].
  rewrite chars_text. apply Hscan. discriminate.
Qed.

Lemma match_routes_no_keys h rs pathname search m :
  Forall (fun r => keys r = []) rs ->
  match_routes h rs pathname search = Some m ->
  mr_params m = ∅.
Proof.
  induction 1 as [|r rs Hr _ IH]; [discriminate|].
  cbn [match_routes]. destruct (String_match pathname (regex r)); [|exact IH].
  rewrite Hr. cbn. by intros [= <-].
Qed.

(** X19: a route that [route] registers never has a parameter: whenever
    [_pathToRegex] returns, the list of keys is empty, because a pattern
    with a parameter makes [new RegExp] throw (the capture's opening
    parenthesis is escaped together with the colon).  So a router whose
    routes come from [route] gives every match an empty [params] object. *)
Theorem registered_routes_have_no_parameters
    (h : Host) (R R' : Router) (rpath : string) (opts : RouteOptions) :
  route rpath opts R = Normal R' ->
  (exists r, routes R' = routes R ++ [r] /\ path r = rpath /\ keys r = [])
  /\ (Forall (fun r => keys r = []) (routes R) ->
      forall url m, _matchRoute h R' url = Some m -> mr_params m = ∅).
Proof.
  unfold route. intros Hroute.
  destruct (_pathToRegex rpath) as [[re ks]| |] eqn:Hre; try discriminate.
  apply pathToRegex_no_keys in Hre as ->. injection Hroute as <-.
  split; [by eexists|]. intros Hall url m. unfold _matchRoute.
  destruct (URL_parts h url) as [[pathname search]|]; [|discriminate].
  cbn [mbind option_bind routes]. apply match_routes_no_keys.
  apply Forall_app. split; [exact Hall|]. by repeat constructor.
Qed.

Lemma registered_routes_have_no_parameters_witness :
  (exists r, routes (routed "/user/:" Router0) = routes Router0 ++ [r]
             /\ path r = "/user/:" /\ keys r = [])
  /\ (Forall (fun r => keys r = []) (routes Router0) ->
      forall url m,
        _matchRoute online (routed "/user/:" Router0) url = Some m ->
        mr_params m = ∅).
Proof.
  apply (registered_routes_have_no_parameters online Router0
           (routed "/user/:" Router0) "/user/:" no_options).
  vm_compute. reflexivity.
Defined.

(** ** Decoding and the route tables [route] builds (C2) *)




(** ** The type error of [_patchNode] *)

(** X20: [_patchNode] fails with a [TypeError] of its own when it is given
    an element that is not preserved and a new node that is not an element:
    it calls [hasAttribute] on the new node.  [_patch] never fails in this
    way, whatever the container holds and whatever the markup is: the
    reconciler hands [_patchNode] an element only together with an element.
    The statement is about this error alone; an exception raised inside a
    DOM operation (a name [setAttribute] refuses) is not excluded by it. *)
Theorem patch_never_reaches_type_error (h : Host) :
  (forall oldNode newNode,
     is_element oldNode = true -> is_element newNode = false ->
     preserved oldNode = false ->
     _patchNode h oldNode newNode
     = Throw (TypeError "newNode.hasAttribute is not a function"))
  /\ (forall kids markup,
        _patch h kids markup
        <> Throw (TypeError "newNode.hasAttribute is not a function")).
Proof.
  split.
  - intros [tag attrs st kids| |] [| |]; try discriminate;
      intros _ _ Hp; cbn [_patchNode]; by rewrite Hp.
  - intros kids markup.
    destruct (_patch_total h kids markup) as (kids' & acts & ->).
    discriminate.
Qed.

(** ** The reconciler on markup without keys, scripts and preserved
    elements *)

Lemma clean_element tag attrs st kids :
  clean (Element tag attrs st kids) = true ->
  is_script tag = false
  /\ hasAttribute "data-preserve" attrs = false
  /\ truthy_text (getAttribute "data-router-key" attrs) = false
  /\ NoDup (names attrs)
  /\ Forall (fun k => clean k = true) kids.
Proof.
  cbn [clean]. rewrite !andb_true_iff, !negb_true_iff, bool_decide_eq_true.
  intros ((((? & ?) & ?) & ?) & Hkids). repeat split; try done.
  apply Forall_forall. intros k Hk.
  by apply (proj1 (forallb_forall _ _) Hkids), list_elem_of_In.
Qed.

Lemma unpreserved_element tag attrs st kids :
  unpreserved (Element tag attrs st kids) = true ->
  hasAttribute "data-preserve" attrs = false
  /\ Forall (fun k => unpreserved k = true) kids.
Proof.
  cbn [unpreserved]. rewrite andb_true_iff, negb_true_iff.
  intros [? Hkids]. split; [done|].
  apply Forall_forall. intros k Hk.
  by apply (proj1 (forallb_forall _ _) Hkids), list_elem_of_In.
Qed.

Lemma run_scripts_list_clean h kids :
  Forall (fun k => run_scripts h k = (k, [])) kids ->
  run_scripts_list h kids = (kids, []).
Proof.
  induction 1 as [|k kids Hk _ IH]; [reflexivity|].
  cbn [run_scripts_list]. by rewrite Hk, IH.
Qed.

Lemma run_scripts_clean h n : clean n = true -> run_scripts h n = (n, []).
Proof.
  induction n as [tag attrs st kids IH|data|data] using node_ind';
    [|reflexivity|reflexivity].
  intros (Hscript & _ & _ & _ & Hkids)%clean_element.
  rewrite run_scripts_element, Hscript. cbn [andb].
  rewrite run_scripts_list_clean; [reflexivity|].
  apply Forall_forall. intros k Hk.
  by apply (proj1 (Forall_forall _ _) IH), (proj1 (Forall_forall _ _) Hkids).
Qed.

Lemma execScriptsInNode_clean h n :
  clean n = true -> _execScriptsInNode h n = (n, []).
Proof.
  destruct n as [tag attrs st kids| |]; [|reflexivity|reflexivity].
  intros (_ & _ & _ & _ & Hkids)%clean_element.
  cbn [_execScriptsInNode]. rewrite run_scripts_list_clean; [reflexivity|].
  eapply Forall_impl; [exact Hkids|]. intros k. apply run_scripts_clean.
Qed.

Lemma forallb_map_ext {A} (f g : A -> bool) (m : A -> A) l :
  Forall (fun x => f x = true -> g (m x) = true) l ->
  forallb f l = true -> forallb g (List.map m l) = true.
Proof.
  induction 1 as [|x l Hx _ IH]; [done|].
  cbn. rewrite !andb_true_iff. intros [? ?]. split; auto.
Qed.

Lemma cloneNode_clean n : clean n = true -> clean (cloneNode n) = true.
Proof.
  induction n as [tag attrs st kids IH|data|data] using node_ind'; [|done|done].
  cbn [clean cloneNode]. rewrite !andb_true_iff.
  intros (Hrest & Hkids). split; [exact Hrest|].
  by eapply forallb_map_ext.
Qed.

Lemma same_markup_clone n : same_markup (cloneNode n) n.
Proof.
  induction n as [tag attrs st kids IH|data|data] using node_ind';
    [|constructor|constructor].
  cbn [cloneNode]. constructor; [done|].
  induction IH as [|k kids Hk _ IHk]; constructor; assumption.
Qed.

Lemma copyInputState_shape oldEl tag attrs st kids :
  exists st', _copyInputState oldEl (Element tag attrs st kids)
              = Element tag attrs st' kids.
Proof.
  destruct oldEl as [otag oattrs ost okids| |]; try by eexists.
  cbn [_copyInputState].
  repeat match goal with
         | |- context [if ?b then _ else _] => destruct b
         end; by eexists.
Qed.

(** The clone that replaces an old child is the new markup, and nothing in
    it is activated. *)
Lemma replacement_clean h oldNode newNode :
  clean newNode = true ->
  exists c, replacement h oldNode newNode = (c, [])
            /\ same_markup c newNode.
Proof.
  intros Hclean. unfold replacement.
  pose proof (cloneNode_clean _ Hclean) as Hcc.
  pose proof (same_markup_clone newNode) as Hsame.
  destruct (is_element oldNode && is_element (cloneNode newNode)) eqn:Hel.
  - apply andb_true_iff in Hel as [_ Hel].
    destruct (cloneNode newNode) as [tag attrs st kids| |] eqn:Hc;
      try discriminate.
    destruct (copyInputState_shape oldNode tag attrs st kids) as [st' ->].
    exists (Element tag attrs st' kids). split.
    + by apply execScriptsInNode_clean.
    + inversion Hsame; subst. by constructor.
  - exists (cloneNode newNode). split; [|exact Hsame].
    by apply execScriptsInNode_clean.
Qed.

(** *** Child lists with identity tags *)

Lemma replace_kept_notin id (n' : node) (l : list (nat * node)) :
  id ∉ (fst <$> l) ->
  List.map (fun '(i, n) => if i =? id then (i, n') else (i, n)) l = l.
Proof.
  induction l as [|[i n] l IH]; [done|].
  cbn. rewrite not_elem_of_cons. intros [Hne Hl].
  apply not_eq_sym, Nat.eqb_neq in Hne. by rewrite Hne, IH.
Qed.

Lemma replace_kept_app id (n n' : node) (P Q : list (nat * node)) :
  id ∉ (fst <$> P) -> id ∉ (fst <$> Q) ->
  List.map (fun '(i, n) => if i =? id then (i, n') else (i, n))
           (P ++ (id, n) :: Q)
  = P ++ (id, n') :: Q.
Proof.
  intros HP HQ. rewrite List.map_app. cbn [List.map].
  by rewrite Nat.eqb_refl, !replace_kept_notin.
Qed.

Lemma replace_fresh_notin id (x : nat * node) (l : list (nat * node)) :
  id ∉ (fst <$> l) ->
  List.map (fun '(i, n) => if i =? id then x else (i, n)) l = l.
Proof.
  induction l as [|[i n] l IH]; [done|].
  cbn. rewrite not_elem_of_cons. intros [Hne Hl].
  apply not_eq_sym, Nat.eqb_neq in Hne. by rewrite Hne, IH.
Qed.

Lemma replace_fresh_app id (n : node) x (P Q : list (nat * node)) :
  id ∉ (fst <$> P) -> id ∉ (fst <$> Q) ->
  List.map (fun '(i, n) => if i =? id then x else (i, n))
           (P ++ (id, n) :: Q)
  = P ++ x :: Q.
Proof.
  intros HP HQ. rewrite List.map_app. cbn [List.map].
  by rewrite Nat.eqb_refl, !replace_fresh_notin.
Qed.

Lemma remove_id_notin id (l : list (nat * node)) :
  id ∉ (fst <$> l) -> remove_id id l = l.
Proof.
  unfold remove_id. induction l as [|[i n] l IH]; [done|].
  cbn. rewrite not_elem_of_cons. intros [Hne Hl].
  apply not_eq_sym, Nat.eqb_neq in Hne. by rewrite Hne, IH.
Qed.

Lemma remove_id_app id (n : node) (P Q : list (nat * node)) :
  id ∉ (fst <$> P) -> id ∉ (fst <$> Q) ->
  remove_id id (P ++ (id, n) :: Q) = P ++ Q.
Proof.
  intros HP HQ. unfold remove_id. rewrite List.filter_app.
  cbn [List.filter]. rewrite Nat.eqb_refl. cbn [negb].
  fold (remove_id id P) (remove_id id Q).
  by rewrite !remove_id_notin.
Qed.

Lemma insert_before_app oid (n : node) x (P R : list (nat * node)) :
  oid ∉ (fst <$> P) ->
  insert_before (Some oid) x (P ++ (oid, n) :: R) = P ++ x :: (oid, n) :: R.
Proof.
  induction P as [|[i m] P IH]; intros HP.
  - cbn. by rewrite bool_decide_eq_true_2.
  - cbn in HP. apply not_elem_of_cons in HP as [Hne HP].
    cbn [app insert_before].
    rewrite bool_decide_eq_false_2 by congruence. by rewrite IH.
Qed.

Lemma find_split {A} (f : A -> bool) (l : list A) x :
  find f l = Some x -> exists l1 l2, l = l1 ++ x :: l2 /\ f x = true.
Proof.
  induction l as [|y l IH]; [discriminate|].
  cbn. destruct (f y) eqn:Hy.
  - intros [= ->]. by exists [], l.
  - intros (l1 & l2 & -> & Hx)%IH. by exists (y :: l1), l2.
Qed.

Lemma drop_past {A} (P : list A) x Q : drop (S (length P)) (P ++ x :: Q) = Q.
Proof. induction P as [|y P IH]; [reflexivity|exact IH]. Qed.

Lemma lookup_past {A} (P Q : list A) : (P ++ Q) !! length P = Q !! 0.
Proof. induction P as [|y P IH]; [reflexivity|exact IH]. Qed.

Lemma fresh_not_in (next : nat) (l : list nat) :
  Forall (fun i => i < next) l -> next ∉ l.
Proof.
  intros Hall Hin. apply (proj1 (Forall_forall _ _) Hall) in Hin. lia.
Qed.

(** One round of [newChildren.forEach] for a new child of such markup.
    [P] holds the children already reconciled, [Q] the old children not
    yet looked at. *)
Lemma update_child_clean h K newChild uc P Q :
  patch_ok h newChild ->
  clean newChild = true ->
  uc_children uc = P ++ Q ->
  uc_oldIndex uc = length P ->
  NoDup (fst <$> P ++ Q) ->
  Forall (fun i => i < uc_next uc) (fst <$> P ++ Q) ->
  Forall (fun e => unpreserved (snd e) = true) Q ->
  uc_acts uc = [] ->
  exists uc' e Q',
    update_child h (_patchNode h) K newChild uc = Normal uc'
    /\ uc_children uc' = (P ++ [e]) ++ Q'
    /\ uc_oldIndex uc' = length (P ++ [e])
    /\ NoDup (fst <$> (P ++ [e]) ++ Q')
    /\ Forall (fun i => i < uc_next uc') (fst <$> (P ++ [e]) ++ Q')
    /\ Forall (fun e => unpreserved (snd e) = true) Q'
    /\ uc_acts uc' = []
    /\ same_markup (snd e) newChild.
Proof.
  intros Hok Hclean Hch Hidx Hnd Hlt Hun Hacts.
  assert (Hkeyed :
    (if is_element newChild
     then if truthy_text (router_key newChild)
          then K !! default "" (router_key newChild) else None
     else None) = None).
  { destruct newChild as [tag attrs st kids| |]; try reflexivity.
    apply clean_element in Hclean as (_ & _ & Hkey & _).
    unfold router_key, attrs_of. cbn [is_element]. by rewrite Hkey. }
  unfold update_child. cbv zeta. rewrite Hkeyed, Hch, Hidx, lookup_past.
  destruct Q as [|[oid onode] Q0]; cbn [lookup list_lookup].
  - (* append new node *)
    rewrite (execScriptsInNode_clean h (cloneNode newChild))
      by (by apply cloneNode_clean).
    rewrite app_nil_r in *.
    eexists _, (uc_next uc, cloneNode newChild), [].
    split; [reflexivity|].
    cbn [uc_children uc_oldIndex uc_next uc_acts next_index].
    rewrite Hacts, !app_nil_r, !fmap_app, length_app.
    cbn [fmap list_fmap fst snd length]. rewrite Nat.add_1_r.
    repeat split; try reflexivity; try (by constructor).
    + apply NoDup_app. split; [exact Hnd|]. split; [|apply NoDup_singleton].
      intros i Hi Hin. apply list_elem_of_singleton in Hin as ->.
      by apply (fresh_not_in _ _ Hlt).
    + apply Forall_app. split; [|repeat constructor].
      eapply Forall_impl; [exact Hlt|]. cbn. lia.
    + apply same_markup_clone.
  - apply Forall_cons in Hun as [Hun0 HunQ]. cbn [snd] in Hun0.
    rewrite fmap_app in Hnd, Hlt. cbn [fmap list_fmap fst] in Hnd, Hlt.
    pose proof Hnd as Hnd0.
    apply NoDup_app in Hnd as (HndP & Hdisj & HndQ).
    apply NoDup_cons in HndQ as [HoidQ HndQ0].
    assert (HoidP : oid ∉ fst <$> P).
    { intros Hin. apply (Hdisj oid Hin). by left. }
    destruct (_isSameNode onode newChild) eqn:Hsame.
    + (* the old child is patched in place *)
      destruct (Hok Hclean onode Hun0 Hsame) as (n' & Hpatch & Hmark).
      rewrite Hpatch. cbn [cbind].
      eexists _, (oid, n'), Q0. split; [reflexivity|].
      cbn [uc_children uc_oldIndex uc_next uc_acts next_index apply_patch].
      rewrite Hch, Hidx, Hacts, replace_kept_app by assumption.
      rewrite length_app, <- !app_assoc, !fmap_app.
      cbn [app fmap list_fmap fst snd length]. rewrite Nat.add_1_r.
      repeat split; done.
    + rewrite drop_past.
      destruct (find (fun '(_, n) => _isSameNode n newChild) Q0)
        as [[jid nodeToMove]|] eqn:Hfind.
      * (* a later old child is moved here and patched *)
        apply find_split in Hfind as (Q1 & Q2 & -> & Hsame').
        apply Forall_app in HunQ as [HunQ1 HunQ2].
        apply Forall_cons in HunQ2 as [Hunj HunQ2]. cbn [snd] in Hunj.
        destruct (Hok Hclean nodeToMove Hunj Hsame') as (n' & Hpatch & Hmark).
        rewrite Hpatch. cbn [cbind].
        rewrite fmap_app in Hnd0, HndQ0, HoidQ, Hlt, Hdisj.
        cbn [fmap list_fmap fst] in Hnd0, HndQ0, HoidQ, Hlt, Hdisj.
        apply NoDup_app in HndQ0 as (HndQ1 & Hdisj1 & HndQ2').
        apply NoDup_cons in HndQ2' as [HjidQ2 HndQ2].
        assert (HjidQ1 : jid ∉ Q1.*1).
        { intros Hin. apply (Hdisj1 jid Hin). by left. }
        assert (HjidP : jid ∉ P.*1).
        { intros Hin. apply (Hdisj jid Hin). right. apply elem_of_app.
          right. by left. }
        assert (Hjo : jid <> oid).
        { intros ->. apply HoidQ, elem_of_app. right. by left. }
        assert (Hperm : P.*1 ++ jid :: oid :: Q1.*1 ++ Q2.*1
                        ≡ₚ P.*1 ++ oid :: Q1.*1 ++ jid :: Q2.*1).
        { apply Permutation_app_head.
          apply (Permutation_middle (oid :: Q1.*1) Q2.*1 jid). }
        eexists _, (jid, n'), ((oid, onode) :: Q1 ++ Q2).
        split; [reflexivity|].
        cbn [uc_children uc_oldIndex uc_next uc_acts next_index apply_patch
             insertBefore].
        rewrite Hch, Hidx, Hacts.
        replace (P ++ (oid, onode) :: Q1 ++ (jid, nodeToMove) :: Q2)
          with ((P ++ (oid, onode) :: Q1) ++ (jid, nodeToMove) :: Q2)
          by (by rewrite <- app_assoc).
        rewrite remove_id_app; [| |exact HjidQ2].
        2: { rewrite fmap_app. cbn [fmap list_fmap fst]. intros Hin.
             apply elem_of_app in Hin as [Hin|Hin]; [done|].
             by apply elem_of_cons in Hin as [?|?]. }
        rewrite <- app_assoc. cbn [app].
        rewrite insert_before_app by exact HoidP.
        rewrite (replace_kept_app jid nodeToMove n' P
                   ((oid, onode) :: Q1 ++ Q2));
          [|exact HjidP|].
        2: { cbn [fmap list_fmap fst]. rewrite fmap_app. intros Hin.
             apply elem_of_cons in Hin as [?|Hin]; [done|].
             by apply elem_of_app in Hin as [?|?]. }
        rewrite length_app, <- !app_assoc, !fmap_app.
        cbn [app fmap list_fmap fst snd length].
        rewrite Nat.add_1_r, !fmap_app.
        repeat split; try done.
        -- by rewrite Hperm.
        -- by rewrite Hperm.
        -- apply Forall_cons. split; [exact Hun0|].
           apply Forall_app. by split.
      * (* the old child is replaced by a clone *)
        destruct (replacement_clean h onode newChild Hclean)
          as (c & -> & Hmark).
        eexists _, (uc_next uc, c), Q0. split; [reflexivity|].
        cbn [uc_children uc_oldIndex uc_next uc_acts next_index apply_patch].
        rewrite Hch, Hidx, Hacts, replace_fresh_app by assumption.
        rewrite length_app, <- !app_assoc, !fmap_app.
        cbn [app fmap list_fmap fst snd length]. rewrite Nat.add_1_r.
        repeat split; try done.
        -- apply NoDup_app. split; [exact HndP|]. split.
           ++ intros i Hi Hin. apply elem_of_cons in Hin as [->|Hin].
              ** by apply (fresh_not_in _ _ Hlt), elem_of_app; left.
              ** apply (Hdisj i Hi). by right.
           ++ apply NoDup_cons. split; [|exact HndQ0].
              intros Hin. apply (fresh_not_in _ _ Hlt), elem_of_app. right.
              by right.
        -- apply Forall_app in Hlt as [HltP HltQ].
           apply Forall_cons in HltQ as [_ HltQ0].
           apply Forall_app. split;
             [eapply Forall_impl; [exact HltP|]; cbn; lia|].
           apply Forall_cons. split; [lia|].
           eapply Forall_impl; [exact HltQ0|]. cbn. lia.
Qed.

Lemma forEach_newChild_clean h K news : forall uc P Q,
  Forall (patch_ok h) news ->
  Forall (fun n => clean n = true) news ->
  uc_children uc = P ++ Q ->
  uc_oldIndex uc = length P ->
  NoDup (fst <$> P ++ Q) ->
  Forall (fun i => i < uc_next uc) (fst <$> P ++ Q) ->
  Forall (fun e => unpreserved (snd e) = true) Q ->
  uc_acts uc = [] ->
  exists uc' P' Q',
    forEach_newChild h (_patchNode h) K news uc = Normal uc'
    /\ uc_children uc' = (P ++ P') ++ Q'
    /\ Forall2 same_markup (snd <$> P') news
    /\ uc_acts uc' = [].
Proof.
  induction news as [|newChild news IH];
    intros uc P Q Hok Hclean Hch Hidx Hnd Hlt Hun Hacts.
  - exists uc, [], Q. rewrite app_nil_r. by repeat split.
  - apply Forall_cons in Hok as [Hok1 Hok].
    apply Forall_cons in Hclean as [Hclean1 Hclean].
    destruct (update_child_clean h K newChild uc P Q Hok1 Hclean1 Hch Hidx
                Hnd Hlt Hun Hacts)
      as (uc1 & e & Q1 & Hstep & Hch1 & Hidx1 & Hnd1 & Hlt1 & Hun1 & Hacts1
          & Hmark).
    destruct (IH uc1 (P ++ [e]) Q1 Hok Hclean Hch1 Hidx1 Hnd1 Hlt1 Hun1
                Hacts1)
      as (uc' & P' & Q' & Hrun & Hch' & Hmarks & Hacts').
    exists uc', (e :: P'), Q'. cbn [forEach_newChild]. rewrite Hstep.
    cbn [cbind]. split; [exact Hrun|]. split.
    + rewrite Hch', <- !app_assoc. reflexivity.
    + split; [|exact Hacts']. cbn. by constructor.
Qed.

Lemma fst_tagged (l : list node) :
  fst <$> imap (fun i c => (i, c)) l = seq 0 (length l).
Proof.
  apply list_eq. intros i.
  rewrite list_lookup_fmap, list_lookup_imap.
  destruct (l !! i) as [c|] eqn:Hl; cbn.
  - symmetry. apply lookup_seq. split; [lia|]. by eapply lookup_lt_Some.
  - symmetry. apply lookup_seq_ge. by apply lookup_ge_None.
Qed.

Lemma updateChildren_clean h olds news :
  Forall (patch_ok h) news ->
  Forall (fun n => clean n = true) news ->
  Forall (fun o => unpreserved o = true) olds ->
  exists kids,
    updateChildren h (_patchNode h) olds news = Normal (kids, [])
    /\ Forall2 same_markup kids news.
Proof.
  intros Hok Hclean Hun. unfold updateChildren.
  edestruct (forEach_newChild_clean h
               (keyed_children (imap (fun i c => (i, c)) olds)) news
               {| uc_children := imap (fun i c => (i, c)) olds;
                  uc_detached := []; uc_next := length olds;
                  uc_oldIndex := 0; uc_acts := [] |}
               [] (imap (fun i c => (i, c)) olds))
    as (uc' & P' & Q' & Hrun & Hch' & Hmarks & Hacts');
    try done.
  - cbn [app]. rewrite fst_tagged. apply NoDup_seq.
  - cbn [app uc_next]. rewrite fst_tagged. apply Forall_seq. lia.
  - apply Forall_forall. intros [i c] Hin.
    apply list_elem_of_In, In_tagged in Hin. cbn.
    apply (proj1 (Forall_forall _ _) Hun). by eapply list_elem_of_lookup_2.
  - rewrite Hrun. cbn [cbind]. rewrite Hch', Hacts'. cbn [app].
    assert (Hlen : length news = length P').
    { apply Forall2_length in Hmarks. by rewrite length_fmap in Hmarks. }
    rewrite Hlen, take_app_length. by eexists.
Qed.

Lemma patchNode_ok h n : patch_ok h n.
Proof.
  induction n as [ntag nattrs nst nkids IH|ndata|ndata] using node_ind';
    intros Hclean oldNode Hun Hsame.
  - destruct oldNode as [otag oattrs ost okids| |]; try discriminate Hsame.
    pose proof Hclean as (_ & Hpn & Hkey & Hnd & Hkids)%clean_element.
    apply unpreserved_element in Hun as (Hpo & Hunk).
    assert (Htag : otag = ntag).
    { cbn [_isSameNode] in Hsame.
      destruct (String.eqb_spec otag ntag); [done|discriminate]. }
    cbn [_patchNode]. unfold preserved, attrs_of. rewrite Hpo, Hpn.
    cbn [orb]. rewrite Hsame. unfold router_key at 2, attrs_of.
    rewrite Hkey, andb_false_r. cbn [negb orb andb].
    destruct (updateChildren_clean h okids nkids IH Hkids Hunk)
      as (kids' & -> & Hmarks).
    cbn [cbind fst snd]. eexists. split; [reflexivity|].
    subst. constructor; [|exact Hmarks].
    intros n. by apply updateAttributes_get.
  - destruct oldNode as [| |]; try discriminate Hsame.
    eexists. split; [reflexivity|]. constructor.
  - by destruct oldNode.
Qed.

(** X21: what [_patch] is for.  When the new markup has no script, no
    preserved and no keyed element, and the container holds no preserved
    element, [_patch] returns and the container then holds the new markup:
    the same tags, for every attribute name the value of the new markup,
    the same text and comments, child by child at every depth.  No script
    is activated. *)
Theorem patch_renders_clean_markup
    (h : Host) (olds : list node) (markup : string) :
  Forall (fun o => unpreserved o = true) olds ->
  Forall (fun n => clean n = true) (parseHTML h markup) ->
  exists kids,
    _patch h olds markup = Normal (kids, [])
    /\ Forall2 same_markup kids (parseHTML h markup).
Proof.
  intros Hun Hclean. unfold _patch, _updateChildren.
  apply updateChildren_clean; [|exact Hclean|exact Hun].
  apply Forall_forall. intros n _. apply patchNode_ok.
Qed.

Lemma patch_renders_clean_markup_witness :
  exists kids,
    _patch online
      [el "DIV" [("id", "x"); ("class", "old")] [Text "gone"]; el "P" [] []]
      "<p>new</p><div class='map'></div>" = Normal (kids, [])
    /\ Forall2 same_markup kids
         (parseHTML online "<p>new</p><div class='map'></div>").
Proof.
  apply (patch_renders_clean_markup online
           [el "DIV" [("id", "x"); ("class", "old")] [Text "gone"];
            el "P" [] []]
           "<p>new</p><div class='map'></div>").
  - repeat constructor.
  - repeat constructor.
Defined.

(** ** Children that pair up position by position *)

(** The rounds from index [j] on, when the old and the new children pair
    up: every old child is patched where it stands. *)
Lemma forEach_newChild_aligned_kept h news : forall j cur uc,
  uc_children uc = imap (fun i c => (i, c)) cur ->
  uc_oldIndex uc = j ->
  length cur = j + length news ->
  (forall k o n, cur !! (j + k) = Some o -> news !! k = Some n ->
     _isSameNode o n = true) ->
  exists uc' cur',
    forEach_newChild h (_patchNode h) ∅ news uc = Normal uc'
    /\ uc_children uc' = imap (fun i c => (i, c)) cur'
    /\ length cur' = length cur
    /\ (forall i, i < j -> cur' !! i = cur !! i)
    /\ (forall k o n, cur !! (j + k) = Some o -> news !! k = Some n ->
          exists n' acts,
            _patchNode h o n = Normal (Kept n', acts)
            /\ cur' !! (j + k) = Some n').
Proof.
  induction news as [|newChild rest IH]; intros j cur uc Hch Hj Hlen Hsame.
  - exists uc, cur. repeat split; done.
  - cbn [length] in Hlen.
    destruct (lookup_lt_is_Some_2 cur j) as [o Ho]; [lia|].
    assert (Hs0 : _isSameNode o newChild = true).
    { apply (Hsame 0 o newChild); [by rewrite Nat.add_0_r|reflexivity]. }
    destruct (update_child_aligned h newChild uc cur j o Hch Hj Ho Hs0)
      as (n' & acts & uc1 & Hpatch & Hstep & Hch1 & Hj1).
    destruct (IH (S j) (<[j := n']> cur) uc1 Hch1 Hj1) as
      (uc' & cur' & Hrun & Hch' & Hlen' & Hbelow & Hkeep).
    { rewrite length_insert. lia. }
    { intros k o' n Ho' Hn. apply (Hsame (S k) o' n); [|exact Hn].
      rewrite list_lookup_insert_ne in Ho' by lia.
      by rewrite <- Nat.add_succ_comm. }
    exists uc', cur'. cbn [forEach_newChild]. rewrite Hstep. cbn [cbind].
    split; [exact Hrun|]. split; [exact Hch'|].
    split; [by rewrite Hlen', length_insert|]. split.
    + intros i Hi. rewrite Hbelow by lia.
      by rewrite list_lookup_insert_ne by lia.
    + intros [|k] o' n Ho' Hn.
      * rewrite Nat.add_0_r in *. injection Hn as <-.
        rewrite Ho in Ho'. injection Ho' as <-.
        exists n', acts. split; [exact Hpatch|].
        rewrite Hbelow by lia.
        by rewrite list_lookup_insert_eq by (by eapply lookup_lt_Some).
      * rewrite <- Nat.add_succ_comm in *.
        apply (Hkeep k o' n); [|exact Hn].
        by rewrite list_lookup_insert_ne by lia.
Qed.

(** X22: a patch in place replaces nothing.  When the children of the
    container pair up with the new markup position by position (each pair
    is the same node for [_isSameNode], and no old child carries a key),
    [_patch] keeps every child where it is: the child at a position is
    afterwards the old child of this position as [_patchNode] updates it in
    place.  No child is replaced by a clone, moved or removed. *)
Theorem aligned_children_are_patched_in_place
    (h : Host) (olds : list node) (markup : string) :
  aligned olds (parseHTML h markup) ->
  exists kids acts,
    _patch h olds markup = Normal (kids, acts)
    /\ length kids = length olds
    /\ forall j o n,
         olds !! j = Some o -> parseHTML h markup !! j = Some n ->
         exists k acts',
           _patchNode h o n = Normal (Kept k, acts') /\ kids !! j = Some k.
Proof.
  intros (Hlen & Hsame & Hnokey).
  unfold _patch, _updateChildren, updateChildren.
  rewrite (keyed_children_none olds Hnokey).
  destruct (forEach_newChild_aligned_kept h (parseHTML h markup) 0 olds
              {| uc_children := imap (fun i c => (i, c)) olds;
                 uc_detached := []; uc_next := length olds;
                 uc_oldIndex := 0; uc_acts := [] |})
    as (uc' & cur' & Hrun & Hch' & Hlen' & _ & Hkeep);
    [reflexivity|reflexivity|exact Hlen|exact Hsame|].
  rewrite Hrun. cbn [cbind]. eexists _, _. split; [reflexivity|].
  rewrite Hch', take_ge by (rewrite length_imap; lia).
  rewrite untag_tagged. split; [exact Hlen'|].
  intros j o n Ho Hn.
  destruct (Hkeep j o n Ho Hn) as (n' & acts & Hpatch & Hcur).
  by exists n', acts.
Qed.

Lemma aligned_children_are_patched_in_place_witness :
  exists kids acts,
    _patch search_site [typed] "<input name='q' class='wide'>"
    = Normal (kids, acts)
    /\ length kids = 1
    /\ forall j o n,
         [typed] !! j = Some o ->
         parseHTML search_site "<input name='q' class='wide'>" !! j = Some n ->
         exists k acts',
           _patchNode search_site o n = Normal (Kept k, acts')
           /\ kids !! j = Some k.
Proof.
  apply (aligned_children_are_patched_in_place search_site [typed]
           "<input name='q' class='wide'>").
  split; [reflexivity|]. split.
  - intros [|j] o n Ho Hn; [|discriminate].
    injection Ho as <-. by injection Hn as <-.
  - intros o Ho. apply list_elem_of_singleton in Ho as ->. reflexivity.
Defined.

(** ** A navigation that no route matches *)

Lemma fetch_fallback_trace h full o w sf entry :
  let sel := container (config (router w)) in
  elements w !! sel = Some sf ->
  page_for h w full = Some entry ->
  exists w' kids acts,
    _patch h (sf_children sf) (html entry) = Normal (kids, acts)
    /\ fetch_fallback h sel full o w = (Normal tt, w')
    /\ log w'
       = log w ++ page_requests w full
         ++ EvPatch (html entry)
            :: (EvActivate <$> acts ++ snd (_runScripts h kids))
         ++ [history_event o {| hs_html := html entry;
                                hs_title := title entry; hs_url := full |}
               full;
             EvUpdateActiveLinks]
         ++ scroll_events o
    /\ stateCache w' = cache_after w full entry
    /\ location_href w' = full
    /\ document_title w' = or_else (title entry) (document_title w).
Proof.
  intros sel Hsf Hpage. subst sel.
  unfold page_for, page_requests, cache_after in *.
  destruct (_patch_total h (sf_children sf) (html entry))
    as (kids & acts & Hpatch).
  unfold fetch_fallback.
  destruct (stateCache w !! full) as [cached|] eqn:Hc.
  - injection Hpage as ->.
    eexists _, kids, acts. split; [exact Hpatch|]. run. rewrite Hc. run.
    rewrite (patch_surface_run _ _ _ _ _ _ _ Hsf Hpatch). run.
    erewrite runScripts_surface_run
      by (cbn [elements add_log with_surface]; apply lookup_insert_eq).
    run. split; [reflexivity|].
    cbn [log stateCache location_href document_title elements add_log
         with_surface with_title moved_to app sf_children sf_loading].
    rewrite <- !app_assoc, fmap_app, <- !app_assoc.
    repeat split.
  - destruct (fetch h full) as [e|[] st body] eqn:Hf; try discriminate.
    injection Hpage as <-.
    set (entry := {| html := _; title := _ |}) in *.
    set (w1 := add_log [EvFetch full] w).
    assert (Hstore : exists w2,
      (if cache (config (router w)) then stateCache_set full entry
       else ret tt) w1 = (Normal tt, w2)
      /\ log w2 = log w1 /\ elements w2 = elements w
      /\ document_title w2 = document_title w
      /\ stateCache w2
         = (if cache (config (router w)) then <[full := entry]> (stateCache w)
            else stateCache w)).
    { destruct (cache (config (router w))); eexists; eauto 6. }
    destruct Hstore as (w2 & Hstore & Hlog2 & Hel2 & Htitle2 & Hsc2).
    assert (Hsf2 : elements w2 !! container (config (router w)) = Some sf)
      by (by rewrite Hel2).
    eexists _, kids, acts. split; [exact Hpatch|]. run. rewrite Hc. run.
    rewrite (fetch_page_ok _ _ _ _ _ _ _ Hf). run.
    fold entry w1. rewrite Hstore. run.
    rewrite (patch_surface_run _ _ _ _ _ _ _ Hsf2 Hpatch). run.
    erewrite runScripts_surface_run
      by (cbn [elements add_log with_surface]; apply lookup_insert_eq).
    run. split; [reflexivity|].
    cbn [log stateCache location_href document_title elements add_log
         with_surface with_title moved_to app sf_children sf_loading].
    rewrite Hlog2, Hsc2, Htitle2. cbn [log add_log w1].
    rewrite <- !app_assoc, fmap_app, <- !app_assoc.
    repeat split.
Qed.

(** X23: the whole of a successful navigation that no route matches.  The
    [beforeEach] hooks run, the page comes from the content cache or from
    one request, the container is patched with its markup and the scripts
    are run, the title becomes the title of the page (it stays when that is
    empty), one history entry is written ([replaceState] with the [replace]
    option, [pushState] otherwise) whose state is the markup and title of
    the page, the active links are updated and the window is scrolled
    unless [scrollTop] is [false].  Nothing else happens: in particular no
    [afterEach] hook is called on this path.  What [_updateActiveLinks]
    does to the links is the subject of X25 and is not stated here. *)
Theorem unrouted_navigation_trace
    (h : Host) (fuel : nat) (href : string) (o : NavOptions) (w : World)
    (full : string) (ctx : Ctx) (sf : Surface) (entry : CacheEntry) :
  URL_href h href (location_href w) = Some full ->
  full <> location_href w ->
  elements w !! container (config (router w)) = Some sf ->
  _buildCtx h full = Normal ctx ->
  Forall (fun fn => proceeds (fn ctx) = true)
         (hooks_beforeEach (hooks (router w))) ->
  _matchRoute h (router w) full = None ->
  page_for h w full = Some entry ->
  exists w' kids acts,
    _patch h (sf_children sf) (html entry) = Normal (kids, acts)
    /\ navigate h (S fuel) href o w = (Normal tt, w')
    /\ events_since w w'
       = before_events 0 (length (hooks_beforeEach (hooks (router w)))) ctx
         ++ page_requests w full
         ++ EvPatch (html entry)
            :: (EvActivate <$> acts ++ snd (_runScripts h kids))
         ++ [history_event o {| hs_html := html entry;
                                hs_title := title entry; hs_url := full |}
               full;
             EvUpdateActiveLinks]
         ++ scroll_events o
    /\ location_href w' = full
    /\ document_title w' = or_else (title entry) (document_title w)
    /\ stateCache w' = cache_after w full entry.
Proof.
  intros Hfull Hne Hsf Hctx Hall Hnone Hpage.
  rewrite (navigate_start h fuel href o w full ctx Hfull Hne
             (ex_intro _ sf Hsf) Hctx).
  set (before := before_events _ _ _).
  destruct (fetch_fallback_trace h full o (add_log before w) sf entry Hsf
              Hpage)
    as (w' & kids & acts & Hpatch & Hrun & Hlog & Hsc & Hloc & Htitle).
  exists w', kids, acts. split; [exact Hpatch|].
  rewrite bind_run, (runBeforeHooks_proceed ctx w Hall).
  cbn [after_hooks]. unfold try_catch, navigate_render. run.
  fold before. change (router (add_log before w)) with (router w).
  rewrite Hnone.
  change (container (config (router (add_log before w))))
    with (container (config (router w))) in Hrun.
  rewrite Hrun. split; [reflexivity|]. split.
  - apply events_since_app. rewrite Hlog. cbn [log add_log].
    by rewrite <- app_assoc.
  - repeat split; assumption.
Qed.

Lemma unrouted_navigation_trace_witness :
  exists w' kids acts,
    _patch online [] "<p>About</p>" = Normal (kids, acts)
    /\ navigate online 1 "/about" {| replace := true; scrollTop := None |}
         (home observed) = (Normal tt, w')
    /\ events_since (home observed) w'
       = before_events 0 1 ctx_about
         ++ [EvFetch "http://example.com/about"]
         ++ EvPatch "<p>About</p>"
            :: (EvActivate <$> acts ++ snd (_runScripts online kids))
         ++ [EvReplaceState {| hs_html := "<p>About</p>"; hs_title := "Home";
                               hs_url := "http://example.com/about" |}
               "http://example.com/about";
             EvUpdateActiveLinks]
         ++ []
    /\ location_href w' = "http://example.com/about"
    /\ document_title w' = "Home"
    /\ stateCache w'
       = {[ "http://example.com/about"
            := {| html := "<p>About</p>"; title := "Home" |} ]}.
Proof.
  apply (unrouted_navigation_trace online 0 "/about"
           {| replace := true; scrollTop := None |} (home observed)
           "http://example.com/about" ctx_about
           {| sf_children := []; sf_loading := false |}
           {| html := "<p>About</p>"; title := "Home" |}).
  - reflexivity.
  - discriminate.
  - reflexivity.
  - reflexivity.
  - repeat constructor.
  - reflexivity.
  - reflexivity.
Defined.

(** ** A navigation to a route with a loader and a renderer *)

(** X24: the whole of a successful navigation to a route with a loader and
    a renderer, when the loader cache holds nothing for the target.  After
    the [beforeEach] hooks the loader is called and its result is stored in
    the loader cache under the target; the renderer gets this result and
    the container is patched with what it returns, converted to a string;
    the scripts are run; one history entry is written whose state holds the
    serialised content of the container and the title of the document,
    which does not change; the active links are updated, the window is
    scrolled and every [afterEach] hook is called.  Nothing is fetched, the
    content cache is not touched, and the container is no longer marked as
    loading.  What [_updateActiveLinks] does to the links is the subject of
    X25 and is not stated here. *)
Theorem rendered_route_trace
    (h : Host) (fuel : nat) (href : string) (o : NavOptions) (w : World)
    (full : string) (ctx : Ctx) (sf : Surface) (m : MatchResult)
    (load : gmap string string -> gmap string string -> Outcome JSValue)
    (rend : JSValue -> gmap string string -> gmap string string
            -> Outcome JSValue)
    (d v : JSValue) :
  URL_href h href (location_href w) = Some full ->
  full <> location_href w ->
  elements w !! container (config (router w)) = Some sf ->
  _buildCtx h full = Normal ctx ->
  Forall (fun fn => proceeds (fn ctx) = true)
         (hooks_beforeEach (hooks (router w))) ->
  _matchRoute h (router w) full = Some m ->
  loader (options (mr_route m)) = Some load ->
  truthy (default VUndefined (loaderCache (router w) !! full)) = false ->
  load (mr_params m) (mr_query m) = Returns d ->
  render (options (mr_route m)) = Some rend ->
  rend d (mr_params m) (mr_query m) = Returns v ->
  exists w' kids acts after,
    _patch h (sf_children sf) (ToString v) = Normal (kids, acts)
    /\ navigate h (S fuel) href o w = (Normal tt, w')
    /\ events_since w w'
       = before_events 0 (length (hooks_beforeEach (hooks (router w)))) ctx
         ++ [EvLoader (path (mr_route m)); EvRender (path (mr_route m));
             EvPatch (ToString v)]
         ++ (EvActivate <$> acts ++ snd (_runScripts h kids))
         ++ [history_event o
               {| hs_html := innerHTML h (fst (_runScripts h kids));
                  hs_title := document_title w; hs_url := full |} full;
             EvUpdateActiveLinks]
         ++ scroll_events o ++ after
    /\ List.filter is_afterEach after
       = after_events 0 (length (hooks_afterEach (hooks (router w)))) ctx
    /\ Forall (fun e => is_afterEach e || is_onError e = true) after
    /\ loaderCache (router w') !! full = Some d
    /\ sf_loading <$> elements w' !! container (config (router w))
       = Some false
    /\ location_href w' = full
    /\ document_title w' = document_title w
    /\ stateCache w' = stateCache w.
Proof.
  intros Hfull Hne Hsf Hctx Hall Hm Hloader Hcold Hload Hrender Hrend.
  destruct (_patch_total h (sf_children sf) (ToString v))
    as (kids & acts & Hpatch).
  rewrite (navigate_start h fuel href o w full ctx Hfull Hne
             (ex_intro _ sf Hsf) Hctx).
  set (before := before_events _ _ _).
  set (sel := container (config (router w))) in *.
  rewrite bind_run, (runBeforeHooks_proceed ctx w Hall).
  cbn [after_hooks]. unfold try_catch, navigate_render. run.
  fold before. change (router (add_log before w)) with (router w).
  rewrite Hm. run.
  rewrite (set_loading_run sel true (add_log before w) sf Hsf).
  unfold try_finally, route_pipeline, load_data. run.
  cbn [router with_surface add_log]. rewrite Hloader, Hcold. cbn [negb].
  run. rewrite Hload. unfold loaderCache_set. run.
  unfold render_content. rewrite Hrender. run. rewrite Hrend.
  erewrite patch_surface_run;
    [|cbn [elements with_router add_log with_surface]; apply lookup_insert_eq
     |exact Hpatch].
  unfold finish_route. run.
  erewrite runScripts_surface_run
    by (cbn [elements with_router add_log with_surface];
        apply lookup_insert_eq).
  unfold container_innerHTML. run.
  cbn [elements with_router add_log with_surface].
  rewrite lookup_insert_eq. run.
  match goal with
  | |- context [_runAfterHooks ctx ?W] =>
      destruct (runAfterHooks_events ctx W)
        as (after & Hafter & Hcalls & _ & Honly);
      rewrite Hafter
  end.
  cbn [sf_children sf_loading].
  unfold set_loading. run.
  cbn [elements with_router add_log with_surface moved_to].
  rewrite lookup_insert_eq. run.
  eexists _, kids, acts, after. split; [exact Hpatch|].
  split; [reflexivity|].
  cbn [log stateCache location_href document_title elements router
       add_log with_surface with_title with_router moved_to loaderCache].
  split.
  { apply events_since_app. cbn [log add_log with_surface with_router moved_to].
    rewrite <- !app_assoc, fmap_app. cbn [app]. by rewrite <- !app_assoc. }
  split; [exact Hcalls|]. split; [exact Honly|].
  split; [apply lookup_insert_eq|].
  split; [by rewrite lookup_insert_eq|]. done.
Qed.

Lemma rendered_route_trace_witness :
  exists w' kids acts after,
    _patch online [] (ToString (VString "<p>About</p>")) = Normal (kids, acts)
    /\ navigate online 1 "/about" nav_defaults (home rendering)
       = (Normal tt, w')
    /\ events_since (home rendering) w'
       = before_events 0 0 ctx_about
         ++ [EvLoader (path (mr_route about_match));
             EvRender (path (mr_route about_match));
             EvPatch (ToString (VString "<p>About</p>"))]
         ++ (EvActivate <$> acts ++ snd (_runScripts online kids))
         ++ [history_event nav_defaults
               {| hs_html := innerHTML online (fst (_runScripts online kids));
                  hs_title := "Home";
                  hs_url := "http://example.com/about" |}
               "http://example.com/about";
             EvUpdateActiveLinks]
         ++ scroll_events nav_defaults ++ after
    /\ List.filter is_afterEach after = after_events 0 2 ctx_about
    /\ Forall (fun e => is_afterEach e || is_onError e = true) after
    /\ loaderCache (router w') !! "http://example.com/about"
       = Some (VString "<p>About</p>")
    /\ sf_loading <$> elements w' !! "#app" = Some false
    /\ location_href w' = "http://example.com/about"
    /\ document_title w' = "Home"
    /\ stateCache w' = ∅.
Proof.
  apply (rendered_route_trace online 0 "/about" nav_defaults (home rendering)
           "http://example.com/about" ctx_about
           {| sf_children := []; sf_loading := false |} about_match
           load_about render_data (VString "<p>About</p>")
           (VString "<p>About</p>")).
  - reflexivity.
  - discriminate.
  - reflexivity.
  - reflexivity.
  - constructor.
  - vm_compute. reflexivity.
  - vm_compute. reflexivity.
  - reflexivity.
  - reflexivity.
  - vm_compute. reflexivity.
  - reflexivity.
Defined.

(** ** [_updateActiveLinks] *)

Lemma elem_of_classList_toggle t token force tokens :
  t ∈ classList_toggle token force tokens
  <-> if String.eqb t token then force = true else t ∈ tokens.
Proof.
  unfold classList_toggle. destruct force.
  - destruct (String.eqb_spec t token) as [->|Hne].
    + case_bool_decide; [done|]. rewrite elem_of_app.
      split; [done|]. intros _. right. by apply list_elem_of_singleton.
    + case_bool_decide; [done|]. rewrite elem_of_app, list_elem_of_singleton.
      split; [by intros [?|?]|by left].
  - rewrite list_elem_of_In, List.filter_In, <- list_elem_of_In.
    destruct (String.eqb_spec t token) as [->|Hne]; cbn.
    + split; [by intros [_ ?]|done].
    + split; [by intros [? _]|done].
Qed.

Lemma classList_toggle_twice token force tokens :
  classList_toggle token force (classList_toggle token force tokens)
  = classList_toggle token force tokens.
Proof.
  unfold classList_toggle. destruct force.
  - destruct (bool_decide (token ∈ tokens)) eqn:Hin; [by rewrite Hin|].
    rewrite bool_decide_eq_true_2; [done|].
    apply elem_of_app. right. by apply list_elem_of_singleton.
  - induction tokens as [|t tokens IH]; [done|].
    cbn. destruct (negb (String.eqb t token)) eqn:Ht; [|exact IH].
    cbn. by rewrite Ht, IH.
Qed.

(** X25: [_updateActiveLinks] leaves the attributes of every link and every
    class but [active] as they are.  A link whose address resolves carries
    the class [active] afterwards exactly when it resolves to the current
    location; a link without an address, or with one that does not parse,
    keeps its classes, a stale [active] included.  Running it twice is the
    same as running it once. *)
Theorem updateActiveLinks_marks_current (h : Host) (here : string)
    (links : list Link) :
  Forall2
    (fun a a' =>
       link_attrs a' = link_attrs a
       /\ (forall t, t <> "active" -> t ∈ classList a' <-> t ∈ classList a)
       /\ match link_target h here a with
          | Some full => "active" ∈ classList a' <-> full = here
          | None => classList a' = classList a
          end)
    links (_updateActiveLinks h here links)
  /\ _updateActiveLinks h here (_updateActiveLinks h here links)
     = _updateActiveLinks h here links.
Proof.
  unfold _updateActiveLinks, link_target. split.
  - apply Forall2_fmap_r, Forall_Forall2_diag, Forall_forall.
    intros a _. cbv beta.
    destruct (link_href (link_attrs a)) as [href|] eqn:Hhref; cbn;
      rewrite ?Hhref; [|by repeat split].
    destruct (URL_href h href here) as [full|] eqn:Hfull; cbn;
      rewrite ?Hfull; [|by repeat split].
    split; [done|]. split.
    + intros t Ht. rewrite elem_of_classList_toggle.
      by apply String.eqb_neq in Ht as ->.
    + rewrite elem_of_classList_toggle. cbn.
      by destruct (String.eqb_spec full here).
  - rewrite <- list_fmap_compose. apply list_fmap_ext. intros _ a _. cbn.
    destruct (link_href (link_attrs a)) as [href|] eqn:Hhref; cbn;
      [|by rewrite Hhref].
    destruct (URL_href h href here) as [full|] eqn:Hfull; cbn;
      rewrite Hhref; cbn; rewrite Hfull; [|done].
    by rewrite classList_toggle_twice.
Qed.

(** ** Keyed children *)

Lemma key_of_Some n k :
  key_of n = Some k ->
  is_element n = true /\ truthy_text (router_key n) = true
  /\ router_key n = Some k.
Proof.
  unfold key_of. destruct (is_element n); [|discriminate].
  destruct (truthy_text (router_key n)); [|discriminate]. done.
Qed.

Lemma isSameNode_key o n k :
  key_of n = Some k -> _isSameNode o n = true -> key_of o = Some k.
Proof.
  intros (Hel & Htr & Hk)%key_of_Some.
  destruct o as [otag oattrs ost okids| |], n as [ntag nattrs nst nkids| |];
    try discriminate.
  cbn [_isSameNode]. destruct (negb _); [discriminate|].
  rewrite Htr, orb_true_r, andb_true_r.
  intros [Ho Heq%bool_decide_eq_true]%andb_prop.
  unfold key_of. cbn [is_element andb]. by rewrite Ho, Heq.
Qed.

Lemma omap_NoDup_lookup {A B} (f : A -> option B) (l : list A) i j a b k :
  NoDup (omap f l) ->
  l !! i = Some a -> l !! j = Some b -> f a = Some k -> f b = Some k ->
  i = j.
Proof.
  revert i j. induction l as [|x l IH]; intros i j Hnd Ha Hb Hfa Hfb;
    [discriminate|].
  assert (Hin : forall y, y ∈ l -> f y = Some k -> f x = Some k -> False).
  { intros y Hy Hfy Hfx. cbn in Hnd. rewrite Hfx in Hnd.
    apply NoDup_cons in Hnd as [Hnotin _]. apply Hnotin.
    apply list_elem_of_omap. by exists y. }
  assert (Hnd' : NoDup (omap f l)).
  { cbn in Hnd. destruct (f x); [by apply NoDup_cons in Hnd as [_ ?]|done]. }
  destruct i as [|i], j as [|j]; cbn in Ha, Hb.
  - reflexivity.
  - injection Ha as ->. exfalso.
    eapply (Hin b); [by eapply list_elem_of_lookup_2|done|done].
  - injection Hb as ->. exfalso.
    eapply (Hin a); [by eapply list_elem_of_lookup_2|done|done].
  - f_equal. by apply IH.
Qed.

(** [keyedOld] knows exactly the keys of the keyed old children. *)
Lemma keyed_children_lookup (olds : list node) k mid :
  keyed_children (imap (fun i c => (i, c)) olds) !! k = Some mid ->
  exists c, olds !! mid = Some c /\ key_of c = Some k.
Proof.
  unfold keyed_children. set (tagged := imap _ olds).
  assert (Hgen : forall (l : list (nat * node)) (acc : gmap string nat),
    fold_left
      (fun m '(i, c) =>
         if is_element c && truthy_text (router_key c)
         then <[default "" (router_key c) := i]> m else m)
      l acc !! k = Some mid ->
    acc !! k = Some mid
    \/ exists c, In (mid, c) l /\ key_of c = Some k).
  { induction l as [|[i c] l IH]; intros acc H; [by left|].
    cbn [fold_left] in H. apply IH in H as [H|(c' & Hin & Hkey)].
    - destruct (is_element c && truthy_text (router_key c)) eqn:Hc;
        [|by left].
      destruct (decide (default "" (router_key c) = k)) as [Hk|Hne].
      + rewrite <- Hk, lookup_insert_eq in H. injection H as ->.
        right. exists c. split; [by left|].
        unfold key_of. rewrite Hc.
        apply andb_prop in Hc as [_ Htr].
        destruct (router_key c); [by cbn in Hk; subst|discriminate].
      + rewrite lookup_insert_ne in H by done. by left.
    - right. exists c'. split; [by right|done]. }
  intros H. apply Hgen in H as [H|(c & Hin & Hkey)].
  - by rewrite lookup_empty in H.
  - exists c. split; [by apply In_tagged|done].
Qed.

Lemma keyed_children_known (olds : list node) i c k :
  olds !! i = Some c -> key_of c = Some k ->
  is_Some (keyed_children (imap (fun i c => (i, c)) olds) !! k).
Proof.
  intros Hc Hkey. apply In_tagged in Hc. revert Hc.
  unfold keyed_children. generalize (∅ : gmap string nat).
  induction (imap (fun i c => (i, c)) olds) as [|[j d] l IH]; intros acc;
    [intros []|].
  assert (Hkeep : forall (l : list (nat * node)) (acc : gmap string nat),
    is_Some (acc !! k) ->
    is_Some (fold_left
      (fun m '(i, c) =>
         if is_element c && truthy_text (router_key c)
         then <[default "" (router_key c) := i]> m else m)
      l acc !! k)).
  { clear. induction l as [|[j d] l IH]; intros acc Hacc; [done|].
    cbn [fold_left]. apply IH.
    destruct (is_element d && truthy_text (router_key d)); [|done].
    destruct (decide (default "" (router_key d) = k)) as [<-|Hne].
    - rewrite lookup_insert_eq. by eexists.
    - by rewrite lookup_insert_ne. }
  intros [Heq|Hin]; cbn [fold_left].
  - injection Heq as -> ->. apply Hkeep.
    apply key_of_Some in Hkey as (Hel & Htr & Hk).
    rewrite Hel, Htr, Hk. cbn. rewrite lookup_insert_eq. by eexists.
  - by apply IH.
Qed.

Lemma lookup_id_past id (n : node) (P Q : list (nat * node)) :
  id ∉ (fst <$> P) -> lookup_id id (P ++ (id, n) :: Q) = Some n.
Proof.
  unfold lookup_id. induction P as [|[i m] P IH]; intros HP.
  - cbn. by rewrite Nat.eqb_refl.
  - cbn in HP. apply not_elem_of_cons in HP as [Hne HP].
    cbn [app find]. apply not_eq_sym, Nat.eqb_neq in Hne. rewrite Hne.
    by apply IH.
Qed.

(** One round of [newChildren.forEach] for a new child whose key is the key
    of the old child [o], which has not been used yet: [o] is moved to the
    current position and patched there. *)
Lemma update_child_keyed h K newChild uc P Q1 Q2 mid o :
  is_element newChild = true ->
  truthy_text (router_key newChild) = true ->
  K !! default "" (router_key newChild) = Some mid ->
  _isSameNode o newChild = true ->
  uc_children uc = P ++ Q1 ++ (mid, o) :: Q2 ->
  uc_oldIndex uc = length P ->
  uc_detached uc = [] ->
  NoDup (fst <$> P ++ Q1 ++ (mid, o) :: Q2) ->
  exists uc' k acts,
    update_child h (_patchNode h) K newChild uc = Normal uc'
    /\ _patchNode h o newChild = Normal (Kept k, acts)
    /\ uc_children uc' = (P ++ [(mid, k)]) ++ Q1 ++ Q2
    /\ uc_oldIndex uc' = length (P ++ [(mid, k)])
    /\ uc_detached uc' = []
    /\ uc_acts uc' = uc_acts uc ++ acts.
Proof.
  intros Hel Htr HK Hsame Hch Hidx Hdet Hnd.
  destruct (patchNode_same_kept h o newChild Hsame)
    as (k & acts & Hpatch).
  rewrite !fmap_app in Hnd. cbn [fmap list_fmap fst] in Hnd.
  apply NoDup_app in Hnd as (HndP & HdisjP & Hnd).
  apply NoDup_app in Hnd as (HndQ1 & HdisjQ & Hnd).
  apply NoDup_cons in Hnd as [HmidQ2 HndQ2].
  assert (HmidP : mid ∉ fst <$> P).
  { intros Hin. apply (HdisjP mid Hin), elem_of_app. right. by left. }
  assert (HmidQ1 : mid ∉ fst <$> Q1).
  { intros Hin. apply (HdisjQ mid Hin). by left. }
  exists (next_index
    {| uc_children := P ++ (mid, k) :: Q1 ++ Q2; uc_detached := [];
       uc_next := uc_next uc; uc_oldIndex := uc_oldIndex uc;
       uc_acts := uc_acts uc ++ acts |}), k, acts.
  split; [|split; [exact Hpatch|]].
  - unfold update_child. cbv zeta. rewrite Hel, Htr, HK, Hch, Hdet, Hidx.
    rewrite app_nil_r, lookup_past.
    replace (lookup_id mid (P ++ Q1 ++ (mid, o) :: Q2)) with (Some o).
    2:{ symmetry. rewrite app_assoc. apply lookup_id_past.
        rewrite fmap_app. by intros [?|?]%elem_of_app. }
    rewrite Hpatch. cbn [cbind].
    assert (Hmoved :
      uc_children
        (if bool_decide (fst <$> (Q1 ++ (mid, o) :: Q2) !! 0 = Some mid)
         then uc
         else insertBefore mid o (fst <$> (Q1 ++ (mid, o) :: Q2) !! 0) uc)
      = P ++ (mid, o) :: Q1 ++ Q2).
    { destruct Q1 as [|[hid hn] Q1].
      - cbn [app lookup list_lookup fmap option_fmap option_map fst].
        by rewrite bool_decide_eq_true_2, Hch.
      - cbn [app lookup list_lookup fmap option_fmap option_map fst].
        cbn [fmap list_fmap fst] in HmidQ1.
        apply not_elem_of_cons in HmidQ1 as [Hne HmidQ1'].
        rewrite bool_decide_eq_false_2 by congruence.
        cbn [insertBefore uc_children]. rewrite Hch.
        replace (P ++ ((hid, hn) :: Q1) ++ (mid, o) :: Q2)
          with ((P ++ (hid, hn) :: Q1) ++ (mid, o) :: Q2)
          by (by rewrite <- app_assoc).
        rewrite remove_id_app; [|rewrite fmap_app; cbn [fmap list_fmap fst];
          intros [?|[?|?]%elem_of_cons]%elem_of_app; done|done].
        rewrite <- app_assoc. cbn [app].
        rewrite insert_before_app; [done|].
        intros Hin. apply (HdisjP hid Hin), elem_of_app. left. by left. }
    set (uc1 := if bool_decide _ then uc else _) in *.
    assert (Hrest : uc_detached uc1 = [] /\ uc_next uc1 = uc_next uc
                    /\ uc_oldIndex uc1 = length P
                    /\ uc_acts uc1 = uc_acts uc).
    { subst uc1. case_bool_decide; [done|].
      cbn [insertBefore uc_detached uc_next uc_oldIndex uc_acts].
      by rewrite Hdet. }
    destruct Hrest as (Hdet1 & Hnext1 & Hidx1 & Hacts1).
    cbn [apply_patch uc_children uc_oldIndex].
    rewrite Hmoved, Hidx1, Hdet1, Hnext1, Hacts1.
    rewrite replace_kept_app;
      [|done|rewrite fmap_app; by intros [?|?]%elem_of_app].
    rewrite lookup_past.
    cbn [lookup list_lookup fmap option_fmap option_map fst].
    by rewrite bool_decide_eq_true_2.
  - cbn [next_index uc_children uc_oldIndex uc_detached uc_acts].
    rewrite Hidx, length_app, <- !app_assoc. cbn [app length].
    rewrite Nat.add_1_r. done.
Qed.

(** The rounds of [newChildren.forEach] when every new child carries the key
    of an old child that is still unused.  [P] holds the children already
    reconciled, [Q] the old children not yet used. *)
Lemma forEach_newChild_keyed h K news : forall uc P Q,
  uc_children uc = P ++ Q ->
  uc_oldIndex uc = length P ->
  uc_detached uc = [] ->
  NoDup (fst <$> P ++ Q) ->
  NoDup (key_of <$> news) ->
  Forall (fun n => exists k mid o,
            key_of n = Some k /\ K !! k = Some mid
            /\ (mid, o) ∈ Q /\ _isSameNode o n = true) news ->
  exists uc' P' Q',
    forEach_newChild h (_patchNode h) K news uc = Normal uc'
    /\ uc_children uc' = P ++ P' ++ Q'
    /\ Forall2 (fun n e => exists o acts,
                  o ∈ snd <$> Q /\ _isSameNode o n = true
                  /\ _patchNode h o n = Normal (Kept (snd e), acts))
               news P'.
Proof.
  induction news as [|newChild rest IH];
    intros uc P Q Hch Hidx Hdet Hnd Hkeys Hall.
  - exists uc, [], Q. repeat split; [done|constructor].
  - apply Forall_cons in Hall as [(k & mid & o & Hk & HK & Hin & Hsame) Hall].
    cbn [fmap list_fmap] in Hkeys. apply NoDup_cons in Hkeys as [Hnew Hkeys].
    apply list_elem_of_split in Hin as (Q1 & Q2 & ->).
    pose proof (key_of_Some _ _ Hk) as (Hel & Htr & Hrk).
    destruct (update_child_keyed h K newChild uc P Q1 Q2 mid o Hel Htr)
      as (uc1 & k1 & acts1 & Hstep & Hpatch & Hch1 & Hidx1 & Hdet1 & _);
      try assumption.
    { by rewrite Hrk. }
    destruct (IH uc1 (P ++ [(mid, k1)]) (Q1 ++ Q2) Hch1 Hidx1 Hdet1)
      as (uc' & P' & Q' & Hrun & Hch' & Hres).
    + eapply NoDup_Permutation_proper; [|exact Hnd].
      rewrite !fmap_app. cbn [fmap list_fmap fst].
      rewrite <- !app_assoc. cbn [app].
      apply Permutation_app_head, Permutation_middle.
    + exact Hkeys.
    + apply Forall_forall. intros n Hn.
      destruct (proj1 (Forall_forall _ _) Hall n Hn)
        as (k' & mid' & o' & Hk' & HK' & Hin' & Hsame').
      exists k', mid', o'. repeat split; try assumption.
      apply elem_of_app in Hin' as [Hin'|Hin'];
        [apply elem_of_app; by left|].
      apply elem_of_cons in Hin' as [[= -> ->]|Hin'];
        [|apply elem_of_app; by right].
      exfalso. apply Hnew.
      pose proof (isSameNode_key _ _ _ Hk Hsame) as Ho.
      pose proof (isSameNode_key _ _ _ Hk' Hsame') as Ho'.
      rewrite Hk. apply list_elem_of_fmap. exists n.
      split; [congruence|exact Hn].
    + exists uc', ((mid, k1) :: P'), Q'. split; [|split].
      * cbn [forEach_newChild]. by rewrite Hstep.
      * by rewrite Hch', <- app_assoc.
      * constructor.
        -- exists o, acts1. split; [|by split].
           apply list_elem_of_fmap. exists (mid, o).
           split; [done|]. apply elem_of_app. right. by left.
        -- eapply Forall2_impl; [exact Hres|]. cbn beta.
           intros n e (o' & acts' & Ho' & Hs' & Hp').
           exists o', acts'. split; [|by split].
           rewrite fmap_app in Ho' |- *. cbn [fmap list_fmap].
           apply elem_of_app in Ho' as [?|?]; apply elem_of_app;
             [by left|right; by right].
Qed.

(** X26: keyed children follow their keys.  When every new child is an
    element whose [data-router-key] is the key of an old child with the
    same tag, and no key occurs twice on either side, [_updateChildren]
    replaces no child by a clone: the child at each position is the old
    child with the key of the new child at this position, moved there and
    updated in place by [_patchNode].  Old children whose key is not asked
    for are removed. *)
Theorem keyed_children_follow_their_keys
    (h : Host) (olds news : list node) :
  NoDup (omap key_of olds) ->
  NoDup (key_of <$> news) ->
  Forall (fun n => is_Some (key_of n)
                   /\ exists o, o ∈ olds /\ _isSameNode o n = true) news ->
  exists kids acts,
    _updateChildren h olds news = Normal (kids, acts)
    /\ Forall2 (fun n k => exists o acts',
                  o ∈ olds /\ _isSameNode o n = true
                  /\ _patchNode h o n = Normal (Kept k, acts'))
               news kids.
Proof.
  intros Hold Hnew Hall.
  unfold _updateChildren, updateChildren.
  set (tagged := imap (fun i c => (i, c)) olds).
  destruct (forEach_newChild_keyed h (keyed_children tagged) news
              {| uc_children := tagged; uc_detached := [];
                 uc_next := length olds; uc_oldIndex := 0; uc_acts := [] |}
              [] tagged)
    as (uc' & P' & Q' & Hrun & Hch & Hres);
    try reflexivity.
  - cbn [app]. subst tagged. rewrite fst_tagged. apply NoDup_seq.
  - exact Hnew.
  - eapply Forall_impl; [exact Hall|]. cbn beta.
    intros n ([k Hk] & o & Ho & Hsame).
    pose proof (isSameNode_key _ _ _ Hk Hsame) as Hko.
    apply list_elem_of_lookup in Ho as [i Hi].
    destruct (keyed_children_known olds i o k Hi Hko) as [mid Hmid].
    destruct (keyed_children_lookup olds k mid Hmid) as (c & Hc & Hkc).
    assert (mid = i) as ->
      by (by eapply (omap_NoDup_lookup key_of olds mid i c o k)).
    exists k, i, o. repeat split; try assumption.
    subst tagged. apply list_elem_of_In, In_tagged. exact Hi.
  - rewrite Hrun. cbn [cbind]. eexists _, _. split; [reflexivity|].
    rewrite Hch. cbn [app].
    rewrite take_app_length' by (by eapply Forall2_length).
    apply Forall2_fmap_r. eapply Forall2_impl; [exact Hres|]. cbn beta.
    intros n e (o & acts' & Ho & Hsame & Hpatch).
    exists o, acts'. repeat split; try assumption.
    subst tagged. by rewrite untag_tagged in Ho.
Qed.

Lemma keyed_children_follow_their_keys_witness :
  exists kids acts,
    _updateChildren online rows_before rows_after = Normal (kids, acts)
    /\ Forall2 (fun n k => exists o acts',
                  o ∈ rows_before /\ _isSameNode o n = true
                  /\ _patchNode online o n = Normal (Kept k, acts'))
               rows_after kids.
Proof.
  apply (keyed_children_follow_their_keys online rows_before rows_after).
  - apply (bool_decide_unpack _). vm_compute. reflexivity.
  - apply (bool_decide_unpack _). vm_compute. reflexivity.
  - repeat apply Forall_cons_2; [| |apply Forall_nil_2].
    + split; [by eexists|]. exists (row "b" plain).
      split; [right; left|reflexivity].
    + split; [by eexists|]. exists (row "a" ticked).
      split; [left|reflexivity].
Defined.

(** ** A keyed child whose tag changes *)

Lemma replacement_element h o ntag nattrs nst nkids :
  exists st kids,
    fst (replacement h o (Element ntag nattrs nst nkids))
    = Element ntag nattrs st kids.
Proof.
  unfold replacement. cbn [cloneNode is_element andb].
  set (clone := Element ntag nattrs _ _).
  assert (Hcopy : exists st,
            (if is_element o && true
             then _copyInputState o clone else clone)
            = Element ntag nattrs st (List.map cloneNode nkids)).
  { destruct o as [otag oattrs ost okids| |]; cbn [is_element andb];
      try (by eexists).
    unfold _copyInputState, clone.
    repeat match goal with
           | |- context [if ?b then _ else _] => destruct b
           end; by eexists. }
  destruct Hcopy as [st ->]. cbn [_execScriptsInNode].
  destruct (run_scripts_list h _) as [kids' acts]. by eexists _, _.
Qed.

(** X27: a keyed child that changes its tag is lost.  When the only old
    child and the first of two new children carry the same key but differ
    in the tag, [_updateChildren] puts a clone of the first new child in
    the place of the old one and does not advance; the second new child
    then replaces this clone.  The parent ends up with one child, the clone
    of the second new child, although the new markup has two. *)
Theorem keyed_tag_change_loses_child
    (h : Host) (o n m : node) (k : string) :
  key_of o = Some k -> key_of n = Some k -> key_of m <> Some k ->
  preserved o = false -> preserved n = false ->
  _isSameNode o n = false ->
  let c := replacement h o n in
  _updateChildren h [o] [n; m]
  = Normal ([fst (replacement h (fst c) m)],
            snd c ++ snd (replacement h (fst c) m)).
Proof.
  intros Ho Hn Hm Hpo Hpn Hdiff c.
  pose proof (key_of_Some _ _ Ho) as (Hoel & Hotr & Hok).
  pose proof (key_of_Some _ _ Hn) as (Hnel & Hntr & Hnk).
  destruct o as [otag oattrs ost okids| |]; try discriminate.
  destruct n as [ntag nattrs nst nkids| |]; try discriminate.
  set (o := Element otag oattrs ost okids) in *.
  set (n := Element ntag nattrs nst nkids) in *.
  destruct (replacement_element h o ntag nattrs nst nkids) as (st & kids & Hc).
  fold n c in Hc.
  assert (Hpatch : _patchNode h o n = Normal (Replaced (fst c), snd c)).
  { unfold o, n. cbn [_patchNode]. fold o n.
    rewrite Hpo, Hpn, Hdiff. cbn [orb negb]. fold c. by destruct c. }
  assert (Hcm : _isSameNode (fst c) m = false).
  { rewrite Hc. destruct m as [mtag mattrs mst mkids| |]; try reflexivity.
    cbn [_isSameNode]. destruct (negb _); [reflexivity|].
    change (router_key (Element ntag nattrs st kids)) with (router_key n).
    rewrite Hntr, Hnk. cbn [orb andb].
    destruct (truthy_text (router_key (Element mtag mattrs mst mkids)))
      eqn:Hmtr; [|reflexivity].
    cbn [andb]. apply bool_decide_eq_false_2. intros Heq. apply Hm.
    unfold key_of. cbn [is_element andb]. by rewrite Hmtr, <- Heq. }
  set (K := keyed_children (imap (fun i c => (i, c)) [o])).
  assert (HK : K = <[k := 0]> ∅).
  { unfold K, keyed_children. cbn [imap fold_left].
    by rewrite Hoel, Hotr, Hok. }
  assert (Hkeyed_m :
    (if is_element m
     then if truthy_text (router_key m)
          then K !! default "" (router_key m) else None
     else None) = None).
  { destruct (is_element m) eqn:Hmel; [|reflexivity].
    destruct (truthy_text (router_key m)) eqn:Hmtr; [|reflexivity].
    rewrite HK. apply lookup_insert_None. split; [apply lookup_empty|].
    intros Heq. apply Hm. unfold key_of. rewrite Hmel, Hmtr. cbn [andb].
    destruct (router_key m); [by cbn in Heq; subst|discriminate]. }
  unfold _updateChildren, updateChildren. fold K.
  cbn [imap forEach_newChild length].
  unfold update_child at 1. cbv zeta.
  rewrite Hnel, Hntr, Hnk. cbn [default]. rewrite HK at 1.
  rewrite lookup_insert_eq.
  cbn [uc_children uc_detached uc_oldIndex app lookup list_lookup fmap
       option_fmap option_map fst lookup_id find Nat.eqb snd].
  rewrite bool_decide_eq_true_2 by reflexivity.
  rewrite Hpatch. cbn [cbind apply_patch uc_children uc_oldIndex uc_next
    List.map Nat.eqb lookup list_lookup fmap option_fmap option_map fst].
  rewrite bool_decide_eq_false_2 by discriminate.
  cbn [cbind]. unfold update_child. cbv zeta. rewrite Hkeyed_m.
  cbn [uc_children uc_oldIndex lookup list_lookup].
  rewrite Hcm. cbn [drop find].
  destruct (replacement h (fst c) m) as [c2 a2].
  cbn [cbind apply_patch next_index uc_children uc_acts uc_next List.map
       Nat.eqb take fmap list_fmap snd fst app]. reflexivity.
Qed.

Lemma keyed_tag_change_loses_child_witness :
  _updateChildren online [row "a" ticked]
    [el "SPAN" [("data-router-key", "a")] [Text "first"]; Text "second"]
  = Normal ([Text "second"], []).
Proof.
  apply (keyed_tag_change_loses_child online (row "a" ticked)
           (el "SPAN" [("data-router-key", "a")] [Text "first"])
           (Text "second") "a");
    [reflexivity|reflexivity|discriminate|reflexivity|reflexivity
    |reflexivity].
Defined.

(** ** A route whose loader fails *)

(** X28: a loader that throws (or whose promise is rejected) ends the
    navigation like a failed request.  After the [beforeEach] hooks the
    loader is called; its error is passed once to every [onError] hook with
    the target, a warning is written and [navigate] assigns
    [window.location.href].  The renderer is not called, nothing is patched
    or written to the history, no [afterEach] hook runs, both caches stay as
    they are, and the container is no longer marked as loading. *)
Theorem failing_loader_falls_back
    (h : Host) (fuel : nat) (href : string) (o : NavOptions) (w : World)
    (full : string) (ctx : Ctx) (sf : Surface) (m : MatchResult)
    (load : gmap string string -> gmap string string -> Outcome JSValue)
    (err : JSError) :
  URL_href h href (location_href w) = Some full ->
  full <> location_href w ->
  elements w !! container (config (router w)) = Some sf ->
  _buildCtx h full = Normal ctx ->
  Forall (fun fn => proceeds (fn ctx) = true)
         (hooks_beforeEach (hooks (router w))) ->
  _matchRoute h (router w) full = Some m ->
  loader (options (mr_route m)) = Some load ->
  truthy (default VUndefined (loaderCache (router w) !! full)) = false ->
  load (mr_params m) (mr_query m) = Throws err ->
  exists w',
    navigate h (S fuel) href o w = (Normal tt, w')
    /\ events_since w w'
       = before_events 0 (length (hooks_beforeEach (hooks (router w)))) ctx
         ++ EvLoader (path (mr_route m))
         :: error_events 0 (length (hooks_onError (hooks (router w)))) err
              (InfoNavigate full)
         ++ [EvWarn "Router: fetch failed, falling back to full navigation";
             EvAssignLocation href]
    /\ elements w'
       = <[container (config (router w))
           := {| sf_children := sf_children sf; sf_loading := false |}]>
           (elements w)
    /\ router w' = router w
    /\ stateCache w' = stateCache w
    /\ location_href w' = location_href w
    /\ document_title w' = document_title w.
Proof.
  intros Hfull Hne Hsf Hctx Hall Hm Hloader Hcold Hload.
  rewrite (navigate_start h fuel href o w full ctx Hfull Hne
             (ex_intro _ sf Hsf) Hctx).
  set (before := before_events _ _ _).
  set (sel := container (config (router w))) in *.
  rewrite bind_run, (runBeforeHooks_proceed ctx w Hall).
  cbn [after_hooks]. unfold try_catch, navigate_render. run.
  fold before. change (router (add_log before w)) with (router w).
  rewrite Hm. run.
  rewrite (set_loading_run sel true (add_log before w) sf Hsf).
  unfold try_finally, route_pipeline, load_data. run.
  cbn [router with_surface add_log]. rewrite Hloader, Hcold. cbn [negb].
  run. rewrite Hload. run.
  unfold set_loading. run.
  cbn [elements with_router add_log with_surface].
  rewrite lookup_insert_eq. run.
  rewrite navigate_failed_run.
  eexists. split; [reflexivity|].
  cbn [log stateCache location_href document_title elements router
       add_log with_surface with_title with_router moved_to
       sf_children sf_loading].
  split.
  { apply events_since_app. cbn [log add_log with_surface].
    by rewrite <- !app_assoc. }
  split; [by rewrite insert_insert_eq|]. done.
Qed.

Lemma failing_loader_falls_back_witness :
  exists w',
    navigate online 1 "/about" nav_defaults (home unavailable)
    = (Normal tt, w')
    /\ events_since (home unavailable) w'
       = before_events 0 0 ctx_about
         ++ EvLoader (path (mr_route down_match))
         :: error_events 0 2 (Error "backend down")
              (InfoNavigate "http://example.com/about")
         ++ [EvWarn "Router: fetch failed, falling back to full navigation";
             EvAssignLocation "/about"]
    /\ elements w'
       = <["#app" := {| sf_children := []; sf_loading := false |}]>
           (elements (home unavailable))
    /\ router w' = unavailable
    /\ stateCache w' = ∅
    /\ location_href w' = "http://example.com/"
    /\ document_title w' = "Home".
Proof.
  apply (failing_loader_falls_back online 0 "/about" nav_defaults
           (home unavailable) "http://example.com/about" ctx_about
           {| sf_children := []; sf_loading := false |} down_match
           load_fails (Error "backend down")).
  - reflexivity.
  - discriminate.
  - reflexivity.
  - reflexivity.
  - constructor.
  - vm_compute. reflexivity.
  - vm_compute. reflexivity.
  - reflexivity.
  - reflexivity.
Defined.

(** ** Prefetched loader data *)

(** A navigation to a route with a renderer when the loader cache holds
    data for the target: the loader is not asked. *)
Lemma navigate_warm_route h fuel href o w full ctx sf m rend d v :
  URL_href h href (location_href w) = Some full ->
  full <> location_href w ->
  elements w !! container (config (router w)) = Some sf ->
  _buildCtx h full = Normal ctx ->
  Forall (fun fn => proceeds (fn ctx) = true)
         (hooks_beforeEach (hooks (router w))) ->
  _matchRoute h (router w) full = Some m ->
  loaderCache (router w) !! full = Some d ->
  truthy d = true ->
  render (options (mr_route m)) = Some rend ->
  rend d (mr_params m) (mr_query m) = Returns v ->
  exists w' kids acts after,
    _patch h (sf_children sf) (ToString v) = Normal (kids, acts)
    /\ navigate h (S fuel) href o w = (Normal tt, w')
    /\ events_since w w'
       = before_events 0 (length (hooks_beforeEach (hooks (router w)))) ctx
         ++ [EvRender (path (mr_route m)); EvPatch (ToString v)]
         ++ (EvActivate <$> acts ++ snd (_runScripts h kids))
         ++ [history_event o
               {| hs_html := innerHTML h (fst (_runScripts h kids));
                  hs_title := document_title w; hs_url := full |} full;
             EvUpdateActiveLinks]
         ++ scroll_events o ++ after
    /\ List.filter is_afterEach after
       = after_events 0 (length (hooks_afterEach (hooks (router w)))) ctx
    /\ Forall (fun e => is_afterEach e || is_onError e = true) after
    /\ router w' = router w
    /\ location_href w' = full.
Proof.
  intros Hfull Hne Hsf Hctx Hall Hm Hwarm Htruthy Hrender Hrend.
  destruct (_patch_total h (sf_children sf) (ToString v))
    as (kids & acts & Hpatch).
  rewrite (navigate_start h fuel href o w full ctx Hfull Hne
             (ex_intro _ sf Hsf) Hctx).
  set (before := before_events _ _ _).
  set (sel := container (config (router w))) in *.
  rewrite bind_run, (runBeforeHooks_proceed ctx w Hall).
  cbn [after_hooks]. unfold try_catch, navigate_render. run.
  fold before. change (router (add_log before w)) with (router w).
  rewrite Hm. run.
  rewrite (set_loading_run sel true (add_log before w) sf Hsf).
  unfold try_finally, route_pipeline.
  assert (Hdata : forall w0, router w0 = router w ->
            load_data full m w0 = (Normal d, w0)).
  { intros w0 Hw0. unfold load_data. run. rewrite Hw0, Hwarm.
    change (default VUndefined (Some d)) with d.
    rewrite Htruthy. cbn [negb].
    by destruct (loader (options (mr_route m))). }
  rewrite bind_run, Hdata by reflexivity.
  unfold render_content. rewrite Hrender. run. rewrite Hrend.
  erewrite patch_surface_run;
    [|cbn [elements with_router add_log with_surface]; apply lookup_insert_eq
     |exact Hpatch].
  unfold finish_route. run.
  erewrite runScripts_surface_run
    by (cbn [elements with_router add_log with_surface];
        apply lookup_insert_eq).
  unfold container_innerHTML. run.
  cbn [elements with_router add_log with_surface].
  rewrite lookup_insert_eq. run.
  match goal with
  | |- context [_runAfterHooks ctx ?W] =>
      destruct (runAfterHooks_events ctx W)
        as (after & Hafter & Hcalls & _ & Honly);
      rewrite Hafter
  end.
  cbn [sf_children sf_loading].
  unfold set_loading. run.
  cbn [elements with_router add_log with_surface moved_to].
  rewrite lookup_insert_eq. run.
  eexists _, kids, acts, after. split; [exact Hpatch|].
  split; [reflexivity|].
  cbn [log stateCache location_href document_title elements router
       add_log with_surface with_title with_router moved_to loaderCache].
  split.
  { apply events_since_app. cbn [log add_log with_surface with_router moved_to].
    rewrite <- !app_assoc, fmap_app. cbn [app]. by rewrite <- !app_assoc. }
  split; [exact Hcalls|]. split; [exact Honly|]. done.
Qed.

(** X29: what a hover has loaded is not loaded again.  When the pointer
    comes over a link to a route with a loader and neither cache knows the
    target, the [mouseover] listener calls the loader and stores the result
    in the loader cache.  Once that is done, and if the result is truthy, a
    navigation to this link takes it from there: the renderer gets the
    prefetched data and the loader is not called a second time. *)
Theorem prefetched_data_is_not_loaded_again
    (h : Host) (fuel : nat) (e : MouseEvent) (o : NavOptions) (w : World)
    (attrs : list (string * string)) (href full : string) (ctx : Ctx)
    (sf : Surface) (m : MatchResult)
    (load : gmap string string -> gmap string string -> Outcome JSValue)
    (rend : JSValue -> gmap string string -> gmap string string
            -> Outcome JSValue)
    (d v : JSValue) :
  closest e (linkSelector (config (router w))) = Some attrs ->
  prefetchOnHover (config (router w)) = true
    \/ hasAttribute "data-prefetch" attrs = true ->
  link_href attrs = Some href ->
  URL_href h href (location_href w) = Some full ->
  full <> location_href w ->
  stateCache w !! full = None ->
  loaderCache (router w) !! full = None ->
  _matchRoute h (router w) full = Some m ->
  loader (options (mr_route m)) = Some load ->
  load (mr_params m) (mr_query m) = Returns d ->
  truthy d = true ->
  render (options (mr_route m)) = Some rend ->
  rend d (mr_params m) (mr_query m) = Returns v ->
  elements w !! container (config (router w)) = Some sf ->
  _buildCtx h full = Normal ctx ->
  Forall (fun fn => proceeds (fn ctx) = true)
         (hooks_beforeEach (hooks (router w))) ->
  exists w1 w2 kids acts after,
    hoverHandler h e w = (Normal tt, w1)
    /\ events_since w w1 = [EvLoader (path (mr_route m))]
    /\ loaderCache (router w1) !! full = Some d
    /\ navigate h (S fuel) href o w1 = (Normal tt, w2)
    /\ _patch h (sf_children sf) (ToString v) = Normal (kids, acts)
    /\ events_since w1 w2
       = before_events 0 (length (hooks_beforeEach (hooks (router w)))) ctx
         ++ [EvRender (path (mr_route m)); EvPatch (ToString v)]
         ++ (EvActivate <$> acts ++ snd (_runScripts h kids))
         ++ [history_event o
               {| hs_html := innerHTML h (fst (_runScripts h kids));
                  hs_title := document_title w; hs_url := full |} full;
             EvUpdateActiveLinks]
         ++ scroll_events o ++ after
    /\ Forall (fun e => is_afterEach e || is_onError e = true) after.
Proof.
  intros Hel Hon Hhref Hfull Hne Hsc Hlc Hm Hloader Hload Htruthy Hrender
         Hrend Hsf Hctx Hall.
  set (w1 := with_router
               {| config := config (router w); routes := routes (router w);
                  loaderCache := <[full := d]> (loaderCache (router w));
                  hooks := hooks (router w) |}
               (add_log [EvLoader (path (mr_route m))] w)).
  assert (Hhover : hoverHandler h e w = (Normal tt, w1)).
  { unfold hoverHandler. run. rewrite Hel.
    assert (Hgate : negb (prefetchOnHover (config (router w)))
                    && negb (hasAttribute "data-prefetch" attrs) = false)
      by (destruct Hon as [-> | ->]; [reflexivity|apply andb_false_r]).
    rewrite Hgate, Hhref, Hfull, Hsc, Hlc.
    rewrite !bool_decide_eq_false_2 by (by intros [? ?]).
    cbn [orb]. rewrite Hm, Hloader. run. rewrite Hload.
    unfold loaderCache_set. run. reflexivity. }
  destruct (navigate_warm_route h fuel href o w1 full ctx sf m rend d v)
    as (w2 & kids & acts & after & Hpatch & Hnav & Hlog & _ & Honly & _);
    try assumption.
  { subst w1. cbn. apply lookup_insert_eq. }
  exists w1, w2, kids, acts, after.
  split; [exact Hhover|]. split; [apply events_since_add_log|].
  split; [subst w1; cbn; apply lookup_insert_eq|].
  split; [exact Hnav|]. split; [exact Hpatch|]. split; [exact Hlog|].
  exact Honly.
Qed.

Lemma prefetched_data_is_not_loaded_again_witness :
  exists w1 w2 kids acts after,
    hoverHandler online (click_on "/about") (home rendering)
    = (Normal tt, w1)
    /\ events_since (home rendering) w1
       = [EvLoader (path (mr_route about_match))]
    /\ loaderCache (router w1) !! "http://example.com/about"
       = Some (VString "<p>About</p>")
    /\ navigate online 1 "/about" nav_defaults w1 = (Normal tt, w2)
    /\ _patch online [] (ToString (VString "<p>About</p>"))
       = Normal (kids, acts)
    /\ events_since w1 w2
       = before_events 0 0 ctx_about
         ++ [EvRender (path (mr_route about_match));
             EvPatch (ToString (VString "<p>About</p>"))]
         ++ (EvActivate <$> acts ++ snd (_runScripts online kids))
         ++ [history_event nav_defaults
               {| hs_html := innerHTML online (fst (_runScripts online kids));
                  hs_title := "Home";
                  hs_url := "http://example.com/about" |}
               "http://example.com/about";
             EvUpdateActiveLinks]
         ++ scroll_events nav_defaults ++ after
    /\ Forall (fun e => is_afterEach e || is_onError e = true) after.
Proof.
  apply (prefetched_data_is_not_loaded_again online 0 (click_on "/about")
           nav_defaults (home rendering)
           [("href", "/about"); ("data-router", "")] "/about"
           "http://example.com/about" ctx_about
           {| sf_children := []; sf_loading := false |} about_match
           load_about render_data (VString "<p>About</p>")
           (VString "<p>About</p>")).
  - reflexivity.
  - left. reflexivity.
  - reflexivity.
  - reflexivity.
  - discriminate.
  - reflexivity.
  - reflexivity.
  - vm_compute. reflexivity.
  - vm_compute. reflexivity.
  - reflexivity.
  - reflexivity.
  - vm_compute. reflexivity.
  - reflexivity.
  - reflexivity.
  - reflexivity.
  - constructor.
Defined.
